(** * Static exclusivity diagnostics: a shallow embedding

    This development embeds the diagnostic pass of
    [lib/SILOptimizer/Mandatory/DiagnoseStaticExclusivity.cpp] and states
    the properties of its natural-language specification over it.  It
    then embeds the control flow of [lib/Migrator/Migrator.cpp] and
    proves further properties of both.

    Conventions of the embedding.
    - A C++ pointer is an address ([Addr]); pointer comparison is
      comparison of addresses.  An object reached through a pointer is
      carried next to its address (field [self]).
    - [unsigned] counters are integers in [0, 2^32) with the wrap-around
      of [++] and [--] written out ([uinc], [udec]).
    - A failed [assert], a failed [cast<>] and [llvm_unreachable] stop the
      pass: the result is [Abort] with the kind of fault.  Dereferencing
      the end iterator of a map is not checked by the source at all; it is
      kept apart as [UndefinedBehaviour].
    - [llvm::SmallDenseMap<AccessedStorage, AccessInfo>] uses the custom
      [DenseMapInfo<AccessedStorage>::isEqual]; it is a finite map over
      [StorageKey], the data that [isEqual] compares
      (lemma [isEqual_storageKey]). *)

From Stdlib Require Import ZArith Lia.

From stdpp Require Import gmap strings list fin_maps.

Local Open Scope Z_scope.

(** ** Faults and the result monad *)

Inductive Fault : Type :=
| AssertionFailure (msg : string)
| Unreachable (msg : string)
| UndefinedBehaviour (what : string).

Inductive Result (A : Type) : Type :=
| Ok (a : A)
| Abort (f : Fault).

Arguments Ok {A} a.

Arguments Abort {A} f.

Definition bindR {A B} (r : Result A) (k : A -> Result B) : Result B :=
  match r with
  | Ok a => k a
  | Abort f => Abort f
  end.

Notation "'let!' x ':=' c 'in' k" := (bindR c (fun x => k))
  (at level 10, x pattern, c at level 100, k at level 200).

Definition assertR (b : bool) (msg : string) : Result unit :=
  if b then Ok tt else Abort (AssertionFailure msg).

(** An internal-error signal is an [assert] or [llvm_unreachable] that the
    source itself raises. *)
Definition isInternalError (f : Fault) : bool :=
  match f with
  | AssertionFailure _ | Unreachable _ => true
  | UndefinedBehaviour _ => false
  end.

(** ** Machine integers: [unsigned] *)

Definition UINT_WIDTH : Z := 32.

Definition UINT_MOD : Z := 2 ^ UINT_WIDTH.

Definition uinc (n : Z) : Z := (n + 1) mod UINT_MOD.

Definition udec (n : Z) : Z := (n - 1) mod UINT_MOD.

Definition is_unsigned (n : Z) : Prop := 0 <= n < UINT_MOD.

(** ** Addresses, declarations, source positions *)

Definition Addr : Type := N.

Definition SourceLoc : Type := N.

Record SourceRange : Type := { Start : SourceLoc; End : SourceLoc }.

(** [ValueDecl]: what the diagnostics read from a declaration. *)
Record ValueDecl : Type := {
  vd_self : Addr;
  DescriptiveKind : N;
  BaseName : string
}.

Record SILGlobalVariable : Type := {
  gv_self : Addr;
  gv_Decl : option ValueDecl          (* getDecl() *)
}.

(** ** SIL values

    Only what the resolver inspects: the dynamic class of the value and
    its first operand. *)

Module ValueKind.

Inductive t : Type :=
| BeginBorrowInst
| ProjectBoxInst
| CopyValueInst
| MarkUninitializedInst
| UncheckedAddrCastInst
| StructElementAddrInst
| TupleElementAddrInst
| UncheckedTakeEnumDataAddrInst
| RefTailAddrInst
| TailAddrInst
| IndexAddrInst
| AllocStackInst
| BeginAccessInst
| PointerToAddressInst
| InitEnumDataAddrInst
| InitExistentialAddrInst
| OpenExistentialAddrInst
| Other (tag : N).

End ValueKind.

Inductive SILValue : Type :=
| GlobalAddr (self : Addr) (ReferencedGlobal : SILGlobalVariable)
| RefElementAddr (self : Addr) (Operand : SILValue)
                 (FieldNo : N) (Field : option ValueDecl)
| AllocBox (self : Addr) (LocDecl : option ValueDecl)
| FunctionArgument (self : Addr) (ArgDecl : option ValueDecl)
| Inst0 (self : Addr) (Kind : ValueKind.t)
| Inst1 (self : Addr) (Kind : ValueKind.t) (Operand0 : SILValue).

Definition addrOf (V : SILValue) : Addr :=
  match V with
  | GlobalAddr p _ | RefElementAddr p _ _ _ | AllocBox p _
  | FunctionArgument p _ | Inst0 p _ | Inst1 p _ _ => p
  end.

(** [SILValue::operator==] compares the pointers. *)
Definition SILValue_eq (A B : SILValue) : bool := N.eqb (addrOf A) (addrOf B).

(** [Projection] (swift/SIL/Projection.h) is not part of the sources at
    hand.  A projection built from a [ref_element_addr] is the class-field
    projection with the field number; [operator==] compares that number;
    [getVarDecl] gives back the declaration of the field. *)
Record Projection : Type := {
  proj_Index : N;
  proj_VarDecl : option ValueDecl
}.

Definition Projection_eq (P Q : Projection) : bool :=
  N.eqb (proj_Index P) (proj_Index Q).

Definition Projection_of_REA (FieldNo : N) (Field : option ValueDecl) : Projection :=
  {| proj_Index := FieldNo; proj_VarDecl := Field |}.

(** ** Storage identity *)

Inductive AccessedStorageKind : Type := Value | GlobalVar | ClassProperty.

Definition AccessedStorageKind_eq (a b : AccessedStorageKind) : bool :=
  match a, b with
  | Value, Value | GlobalVar, GlobalVar | ClassProperty, ClassProperty => true
  | _, _ => false
  end.

Record ObjectProjection : Type := {
  Object : SILValue;
  Proj : Projection
}.

Definition ObjectProjection_eq (A B : ObjectProjection) : bool :=
  SILValue_eq (Object A) (Object B) && Projection_eq (Proj A) (Proj B).

Inductive AccessedStorage : Type :=
| OfValue (V : SILValue)
| OfGlobal (G : SILGlobalVariable)
| OfObjectProjection (OP : ObjectProjection).

Definition getKind (S : AccessedStorage) : AccessedStorageKind :=
  match S with
  | OfValue _ => Value
  | OfGlobal _ => GlobalVar
  | OfObjectProjection _ => ClassProperty
  end.

(** [AccessedStorage::getStorageDecl] *)
Definition getStorageDecl (S : AccessedStorage) : option ValueDecl :=
  match S with
  | OfGlobal G => gv_Decl G
  | OfValue V =>
      match V with
      | AllocBox _ d => d
      | FunctionArgument _ d => d
      | _ => None
      end
  | OfObjectProjection OP => proj_VarDecl (Proj OP)
  end.

(** [DenseMapInfo<AccessedStorage>::isEqual] *)
Definition isEqual (LHS RHS : AccessedStorage) : bool :=
  if negb (AccessedStorageKind_eq (getKind LHS) (getKind RHS)) then false
  else
    match LHS, RHS with
    | OfValue V1, OfValue V2 => SILValue_eq V1 V2
    | OfGlobal G1, OfGlobal G2 => N.eqb (gv_self G1) (gv_self G2)
    | OfObjectProjection P1, OfObjectProjection P2 => ObjectProjection_eq P1 P2
    | _, _ => false
    end.

(** The data [isEqual] compares: the key of the storage map. *)
Definition StorageKey : Type := Addr + Addr + Addr * N.

Definition storageKey (S : AccessedStorage) : StorageKey :=
  match S with
  | OfValue V => inl (inl (addrOf V))
  | OfGlobal G => inl (inr (gv_self G))
  | OfObjectProjection OP => inr (addrOf (Object OP), proj_Index (Proj OP))
  end.

(** ** The resolver *)

(** [findUnderlyingObject]: looks through [begin_borrow]. *)
Fixpoint findUnderlyingObject (V : SILValue) : SILValue :=
  match V with
  | Inst1 _ ValueKind.BeginBorrowInst Operand => findUnderlyingObject Operand
  | _ => V
  end.

(** The producers the resolver looks through. *)
Definition isLookThrough (K : ValueKind.t) : bool :=
  match K with
  | ValueKind.ProjectBoxInst
  | ValueKind.CopyValueInst
  | ValueKind.MarkUninitializedInst
  | ValueKind.UncheckedAddrCastInst
  | ValueKind.StructElementAddrInst
  | ValueKind.TupleElementAddrInst
  | ValueKind.UncheckedTakeEnumDataAddrInst
  | ValueKind.RefTailAddrInst
  | ValueKind.TailAddrInst
  | ValueKind.IndexAddrInst => true
  | _ => false
  end.

(** The base address producers among the generic instructions
    ([alloc_box] and function arguments have constructors of their own). *)
Definition isBaseProducer (K : ValueKind.t) : bool :=
  match K with
  | ValueKind.AllocStackInst
  | ValueKind.BeginAccessInst
  | ValueKind.PointerToAddressInst => true
  | _ => false
  end.

Definition unexpected_access_source : Fault :=
  Unreachable "Unexpected access source.".

Definition operand_out_of_range : Fault :=
  AssertionFailure "getOperand: index out of range".

(** [findAccessedStorage] *)
Fixpoint findAccessedStorage (Iter : SILValue) : Result AccessedStorage :=
  match Iter with
  | GlobalAddr _ G => Ok (OfGlobal G)
  | RefElementAddr _ Operand FieldNo Field =>
      Ok (OfObjectProjection
            {| Object := findUnderlyingObject Operand;
               Proj := Projection_of_REA FieldNo Field |})
  | AllocBox _ _ => Ok (OfValue Iter)
  | FunctionArgument _ _ => Ok (OfValue Iter)
  | Inst1 _ K Operand0 =>
      if isLookThrough K then findAccessedStorage Operand0
      else if isBaseProducer K then Ok (OfValue Iter)
      else Abort unexpected_access_source
  | Inst0 _ K =>
      if isLookThrough K then Abort operand_out_of_range
      else if isBaseProducer K then Ok (OfValue Iter)
      else Abort unexpected_access_source
  end.

(** ** The syntax tree, as far as the pass reads it *)

Record SubscriptDecl : Type := {
  sd_self : Addr;
  (* getDeclContext()->getAsProtocolOrProtocolExtensionContext() *)
  sd_ProtocolContext : option Addr;
  (* getSatisfiedProtocolRequirements(), each requirement given by the
     protocol (or protocol extension) context of its declaration *)
  sd_SatisfiedProtocolRequirements : list (option Addr)
}.

Record ExprInfo : Type := {
  e_self : Addr;
  e_SourceRange : SourceRange
}.

#[warnings="-register-all"]
Inductive Expr : Type :=
| InOutExpr (i : ExprInfo) (SubExpr : Expr)
| SubscriptExpr (i : ExprInfo) (Base Index : Expr) (Decl : SubscriptDecl)
| ParenExpr (i : ExprInfo) (SubExpr : Expr)
| TupleExpr (i : ExprInfo) (Elements : list Expr)
| CallExpr (i : ExprInfo) (Fn Arg : Expr) (CalledValue : option Addr)
| DotSyntaxBaseIgnoredExpr (i : ExprInfo) (LHS RHS : Expr)
| DeclRefExpr (i : ExprInfo) (D : Addr)
| OtherExpr (i : ExprInfo).

Definition exprInfo (E : Expr) : ExprInfo :=
  match E with
  | InOutExpr i _ | SubscriptExpr i _ _ _ | ParenExpr i _ | TupleExpr i _
  | CallExpr i _ _ _ | DotSyntaxBaseIgnoredExpr i _ _ | DeclRefExpr i _
  | OtherExpr i => i
  end.

Definition getSourceRange (E : Expr) : SourceRange := e_SourceRange (exprInfo E).

(** Comparison of two [Expr *]. *)
Definition Expr_ptr_eq (A B : Expr) : bool :=
  N.eqb (e_self (exprInfo A)) (e_self (exprInfo B)).

Inductive ASTNode : Type :=
| ExprNode (E : Expr)
| FuncDeclNode (FD : Addr)
| OtherNode.

Record SILLocation : Type := {
  loc_Node : option ASTNode;           (* None: isNull() *)
  loc_SourceLoc : SourceLoc;           (* getSourceLoc() *)
  loc_SourceRange : SourceRange        (* getSourceRange() *)
}.

Definition isNull (L : SILLocation) : bool :=
  match loc_Node L with None => true | Some _ => false end.

(** [getAsASTNode<InOutExpr>()]: the expression, when the location is an
    [InOutExpr]. *)
Definition getAsInOutExpr (L : SILLocation) : option Expr :=
  match loc_Node L with
  | Some (ExprNode (InOutExpr i Sub)) => Some (InOutExpr i Sub)
  | _ => None
  end.

Definition getAsCallExpr (L : SILLocation) : option Expr :=
  match loc_Node L with
  | Some (ExprNode (CallExpr i F A C)) => Some (CallExpr i F A C)
  | _ => None
  end.

Definition getAsFuncDecl (L : SILLocation) : option Addr :=
  match loc_Node L with
  | Some (FuncDeclNode FD) => Some FD
  | _ => None
  end.

Record ASTContext : Type := {
  (* SourceMgr.extractText of the character range of a source range *)
  extractText : SourceRange -> string;
  getSwap : option Addr;                    (* getSwap(nullptr) *)
  getMutableCollectionDecl : option Addr;
  isSwiftVersion3 : bool                    (* LangOpts.isSwiftVersion3() *)
}.

(** [extractExprText] *)
Definition extractExprText (E : Expr) (Ctx : ASTContext) : string :=
  extractText Ctx (getSourceRange E).

(** ** Instructions *)

(** [SILAccessKind] with the values of its enumerators. *)
Inductive SILAccessKind : Type := Init | Read | Modify | Deinit.

Definition SILAccessKind_eq (a b : SILAccessKind) : bool :=
  match a, b with
  | Init, Init | Read, Read | Modify, Modify | Deinit, Deinit => true
  | _, _ => false
  end.

Definition SILAccessKind_unsigned (k : SILAccessKind) : Z :=
  match k with Init => 0 | Read => 1 | Modify => 2 | Deinit => 3 end.

Record BeginAccessInst : Type := {
  bai_self : Addr;
  getAccessKind : SILAccessKind;
  getSource : SILValue;
  getLoc : SILLocation
}.

(** An [end_access] has its [begin_access] as operand; its source is the
    source of that [begin_access]. *)
Record EndAccessInst : Type := {
  getBeginAccess : BeginAccessInst
}.

Definition EndAccessInst_getSource (EAI : EndAccessInst) : SILValue :=
  getSource (getBeginAccess EAI).

Record SILFunctionRef : Type := {
  hasLocation : bool;
  getLocation : SILLocation
}.

Record ApplyInst : Type := {
  ai_self : Addr;
  ai_Loc : SILLocation;
  getReferencedFunction : option SILFunctionRef
}.

Inductive SILInstruction : Type :=
| IBeginAccess (BAI : BeginAccessInst)
| IEndAccess (EAI : EndAccessInst)
| IApply (AI : ApplyInst)
| IReturn
| IOther.

(** ** In-progress accesses of one storage location *)

Record AccessInfo : Type := {
  Reads : Z;
  NonReads : Z;
  FirstAccess : option BeginAccessInst
}.

Definition AccessInfo_default : AccessInfo :=
  {| Reads := 0; NonReads := 0; FirstAccess := None |}.

Definition conflictsWithAccess (Info : AccessInfo) (Kind : SILAccessKind) : bool :=
  if SILAccessKind_eq Kind Read then
    0 <? NonReads Info
  else
    (0 <? NonReads Info) || (0 <? Reads Info).

Definition alreadyHadConflict (Info : AccessInfo) : bool :=
  ((0 <? NonReads Info) && (0 <? Reads Info)) || (1 <? NonReads Info).

Definition hasAccessesInProgress (Info : AccessInfo) : bool :=
  (0 <? Reads Info) || (0 <? NonReads Info).

Definition beginAccess (Info : AccessInfo) (BAI : BeginAccessInst) : Result AccessInfo :=
  let! First :=
    match FirstAccess Info with
    | None =>
        let! _ := assertR ((Reads Info =? 0) && (NonReads Info =? 0))
                          "Reads == 0 && NonReads == 0" in
        Ok (Some BAI)
    | Some F => Ok (Some F)
    end in
  if SILAccessKind_eq (getAccessKind BAI) Read then
    Ok {| Reads := uinc (Reads Info); NonReads := NonReads Info; FirstAccess := First |}
  else
    Ok {| Reads := Reads Info; NonReads := uinc (NonReads Info); FirstAccess := First |}.

Definition endAccess (Info : AccessInfo) (EAI : EndAccessInst) : AccessInfo :=
  let R := if SILAccessKind_eq (getAccessKind (getBeginAccess EAI)) Read
           then udec (Reads Info) else Reads Info in
  let N := if SILAccessKind_eq (getAccessKind (getBeginAccess EAI)) Read
           then NonReads Info else udec (NonReads Info) in
  {| Reads := R; NonReads := N;
     FirstAccess := if (R =? 0) && (N =? 0) then None else FirstAccess Info |}.

Inductive ExclusiveOrShared_t : Type := ExclusiveAccess | SharedAccess.

Definition getRequiredAccess (BAI : BeginAccessInst) : ExclusiveOrShared_t :=
  if SILAccessKind_eq (getAccessKind BAI) Read then SharedAccess
  else ExclusiveAccess.

Record ConflictingAccess : Type := {
  ca_Storage : AccessedStorage;
  ca_FirstAccess : BeginAccessInst;
  ca_SecondAccess : BeginAccessInst
}.

(** ** Diagnostics *)

Inductive DiagID : Type :=
| exclusivity_access_required
| exclusivity_access_required_swift3
| exclusivity_access_required_unknown_decl
| exclusivity_access_required_unknown_decl_swift3
| exclusivity_conflicting_access.

Inductive DiagArg : Type :=
| ArgDescriptiveKind (k : N)
| ArgIdentifier (name : string)
| ArgUnsigned (n : Z).

Record FixIt : Type := {
  fix_Range : SourceRange;
  fix_Text : string
}.

Record Diagnostic : Type := {
  diag_Loc : SourceLoc;
  diag_ID : DiagID;
  diag_Args : list DiagArg;
  diag_Highlight : SourceRange;
  diag_FixIt : option FixIt
}.

(** ** The swapAt fix-it *)

Definition ptr_eq (a b : option Addr) : bool := bool_decide (a = b).

(** [isCallToStandardLibrarySwap(CallExpr *, ASTContext &)] *)
Definition isCallExprToStandardLibrarySwap
    (Fn : Expr) (CalledValue : option Addr) (Ctx : ASTContext) : bool :=
  if ptr_eq CalledValue (getSwap Ctx) then true
  else
    match Fn with
    | DotSyntaxBaseIgnoredExpr _ _ (DeclRefExpr _ D) => ptr_eq (Some D) (getSwap Ctx)
    | _ => false
    end.

(** [isCallToStandardLibrarySwap(ApplyInst *, ASTContext &)] *)
Definition isCallToStandardLibrarySwap (AI : ApplyInst) (Ctx : ASTContext) : bool :=
  match getReferencedFunction AI with
  | None => false
  | Some SF =>
      if negb (hasLocation SF) then false
      else
        match getAsFuncDecl (getLocation SF) with
        | None => false
        | Some FD => ptr_eq (Some FD) (getSwap Ctx)
        end
  end.

(** The loop of [tryFixItWithCallToCollectionSwapAt] that looks for the
    call with the two accesses as its arguments; the result is the source
    range of the call found. *)
Fixpoint findSwapCall (CallsToSwap : list ApplyInst) (InOut1 InOut2 : Expr)
    (Ctx : ASTContext) : Result (option SourceRange) :=
  match CallsToSwap with
  | [] => Ok None
  | AI :: rest =>
      if isNull (ai_Loc AI) then findSwapCall rest InOut1 InOut2 Ctx
      else
        match getAsCallExpr (ai_Loc AI) with
        | Some (CallExpr i Fn Arg CalledValue) =>
            let! _ := assertR (isCallExprToStandardLibrarySwap Fn CalledValue Ctx)
                              "isCallToStandardLibrarySwap(CE, Ctx)" in
            match Arg with
            | TupleExpr _ Elements =>
                match Elements !! 0%nat, Elements !! 1%nat with
                | Some Arg1, Some Arg2 =>
                    if Expr_ptr_eq Arg1 InOut1 && Expr_ptr_eq Arg2 InOut2
                    then Ok (Some (e_SourceRange i))
                    else findSwapCall rest InOut1 InOut2 Ctx
                | _, _ => Abort (AssertionFailure "TupleExpr::getElement: out of range")
                end
            | _ => Abort (AssertionFailure "cast<TupleExpr>")
            end
        | _ => findSwapCall rest InOut1 InOut2 Ctx
        end
  end.

(** The loop over the satisfied protocol requirements. *)
Fixpoint witnessesMutableCollection (Reqs : list (option Addr))
    (MutableCollectionDecl : option Addr) : Result bool :=
  match Reqs with
  | [] => Ok false
  | ReqProto :: rest =>
      match ReqProto with
      | None => Abort (AssertionFailure "Protocol requirement not in a protocol?")
      | Some P =>
          if ptr_eq (Some P) MutableCollectionDecl then Ok true
          else witnessesMutableCollection rest MutableCollectionDecl
      end
  end.

Definition isSubscriptOnMutableCollection (Decl1 : SubscriptDecl)
    (Ctx : ASTContext) : Result bool :=
  match sd_ProtocolContext Decl1 with
  | Some ProtocolForDecl =>
      Ok (ptr_eq (Some ProtocolForDecl) (getMutableCollectionDecl Ctx))
  | None =>
      witnessesMutableCollection (sd_SatisfiedProtocolRequirements Decl1)
                                 (getMutableCollectionDecl Ctx)
  end.

Definition swapAtText (Base1Text Index1Text Index2Text : string) : string :=
  Base1Text +:+ ".swapAt(" +:+ Index1Text +:+ ", " +:+ Index2Text +:+ ")".

(** [tryFixItWithCallToCollectionSwapAt]: [Ok (Some f)] when
    [Diag.fixItReplace] is reached, [Ok None] on each early [return]. *)
Definition tryFixItWithCallToCollectionSwapAt
    (Access1 Access2 : BeginAccessInst) (CallsToSwap : list ApplyInst)
    (Ctx : ASTContext) : Result (option FixIt) :=
  match CallsToSwap with
  | [] => Ok None
  | _ =>
  if negb (SILAccessKind_eq (getAccessKind Access1) Modify)
     || negb (SILAccessKind_eq (getAccessKind Access2) Modify) then Ok None
  else
  let Loc1 := getLoc Access1 in
  let Loc2 := getLoc Access2 in
  if isNull Loc1 || isNull Loc2 then Ok None
  else
  match getAsInOutExpr Loc1, getAsInOutExpr Loc2 with
  | Some (InOutExpr i1 Sub1 as InOut1), Some (InOutExpr i2 Sub2 as InOut2) =>
      let! FoundCall := findSwapCall CallsToSwap InOut1 InOut2 Ctx in
      match FoundCall with
      | None => Ok None
      | Some CallRange =>
          match Sub1 with
          | SubscriptExpr _ Base1 Idx1 Decl1 =>
              match Sub2 with
              | SubscriptExpr _ Base2 Idx2 Decl2 =>
                  if negb (N.eqb (sd_self Decl1) (sd_self Decl2)) then Ok None
                  else
                  let! IsSubscriptOnMutableCollection :=
                    isSubscriptOnMutableCollection Decl1 Ctx in
                  if negb IsSubscriptOnMutableCollection then Ok None
                  else
                  let Base1Text := extractExprText Base1 Ctx in
                  let Base2Text := extractExprText Base2 Ctx in
                  if negb (String.eqb Base1Text Base2Text) then Ok None
                  else
                  match Idx1 with
                  | ParenExpr _ IndexSub1 =>
                      match Idx2 with
                      | ParenExpr _ IndexSub2 =>
                          let Index1Text := extractExprText IndexSub1 Ctx in
                          let Index2Text := extractExprText IndexSub2 Ctx in
                          Ok (Some {| fix_Range := CallRange;
                                      fix_Text := swapAtText Base1Text Index1Text
                                                             Index2Text |})
                      | _ => Ok None
                      end
                  | _ => Ok None
                  end
              | _ => Ok None
              end
          | _ => Ok None
          end
      end
  | _, _ => Ok None
  end
  end.

(** ** Emission of one violation *)

(** [diagnoseExclusivityViolation]: the diagnostics it emits, in order. *)
Definition diagnoseExclusivityViolation
    (Storage : AccessedStorage) (PriorAccess NewAccess : BeginAccessInst)
    (CallsToSwap : list ApplyInst) (Ctx : ASTContext) : Result (list Diagnostic) :=
  let! _ := assertR
    (negb (SILAccessKind_eq (getAccessKind PriorAccess) Read
           && SILAccessKind_eq (getAccessKind NewAccess) Read))
    "Can't have a conflict if both accesses are reads." in
  let PriorRequires := getRequiredAccess PriorAccess in
  let AccessForMainDiagnostic :=
    match PriorRequires with
    | ExclusiveAccess => PriorAccess
    | SharedAccess => NewAccess
    end in
  let AccessForNote :=
    match PriorRequires with
    | ExclusiveAccess => NewAccess
    | SharedAccess => PriorAccess
    end in
  let rangeForMain := loc_SourceRange (getLoc AccessForMainDiagnostic) in
  let AccessKindForMain :=
    SILAccessKind_unsigned (getAccessKind AccessForMainDiagnostic) in
  let! Main :=
    match getStorageDecl Storage with
    | Some VD =>
        let DiagnosticID :=
          if isSwiftVersion3 Ctx then exclusivity_access_required_swift3
          else exclusivity_access_required in
        let! Fix := tryFixItWithCallToCollectionSwapAt PriorAccess NewAccess
                                                       CallsToSwap Ctx in
        Ok {| diag_Loc := loc_SourceLoc (getLoc AccessForMainDiagnostic);
              diag_ID := DiagnosticID;
              diag_Args := [ArgDescriptiveKind (DescriptiveKind VD);
                            ArgIdentifier (BaseName VD);
                            ArgUnsigned AccessKindForMain];
              diag_Highlight := rangeForMain;
              diag_FixIt := Fix |}
    | None =>
        let DiagnosticID :=
          if isSwiftVersion3 Ctx
          then exclusivity_access_required_unknown_decl_swift3
          else exclusivity_access_required_unknown_decl in
        Ok {| diag_Loc := loc_SourceLoc (getLoc AccessForMainDiagnostic);
              diag_ID := DiagnosticID;
              diag_Args := [ArgUnsigned AccessKindForMain];
              diag_Highlight := rangeForMain;
              diag_FixIt := None |}
    end in
  Ok [Main;
      {| diag_Loc := loc_SourceLoc (getLoc AccessForNote);
         diag_ID := exclusivity_conflicting_access;
         diag_Args := [];
         diag_Highlight := loc_SourceRange (getLoc AccessForNote);
         diag_FixIt := None |}].

(** ** The walker *)

(** [StorageMap]: the in-progress accesses per storage location. *)
Abbreviation StorageMap := (gmap StorageKey AccessInfo).

Record SILBasicBlock : Type := {
  bb_self : Addr;
  getPredecessorBlocks : list Addr;
  Insts : list SILInstruction
}.

Record SILFunction : Type := {
  Blocks : list SILBasicBlock;          (* the first block is the entry *)
  getASTContext : ASTContext
}.

(** The state the instruction loop of [checkStaticExclusivity] works on. *)
Record WalkState : Type := {
  Accesses : StorageMap;
  ConflictingAccesses : list ConflictingAccess;
  CallsToSwap : list ApplyInst
}.

Definition end_iterator_dereferenced : Fault :=
  UndefinedBehaviour "It->getSecond() on Accesses.end()".

Definition entries_not_removed : Fault :=
  AssertionFailure "Entries were not properly removed?!".

(** [Accesses[Storage]]: the record of the location, a fresh one when the
    map has none. *)
Definition lookupOrDefault (M : StorageMap) (K : StorageKey) : AccessInfo :=
  default AccessInfo_default (M !! K).

(** The body of the instruction loop for a [begin_access]. *)
Definition transferBeginAccess (BAI : BeginAccessInst) (St : WalkState)
    : Result WalkState :=
  let Kind := getAccessKind BAI in
  let! Storage := findAccessedStorage (getSource BAI) in
  let Info := lookupOrDefault (Accesses St) (storageKey Storage) in
  let! Conflicts :=
    if conflictsWithAccess Info Kind && negb (alreadyHadConflict Info) then
      match FirstAccess Info with
      | Some Conflict =>
          Ok (ConflictingAccesses St ++
              [{| ca_Storage := Storage; ca_FirstAccess := Conflict;
                  ca_SecondAccess := BAI |}])
      | None =>
          Abort (AssertionFailure "Must already have had access to conflict!")
      end
    else Ok (ConflictingAccesses St) in
  let! Info' := beginAccess Info BAI in
  Ok {| Accesses := <[storageKey Storage := Info']> (Accesses St);
        ConflictingAccesses := Conflicts;
        CallsToSwap := CallsToSwap St |}.

(** The body of the instruction loop for an [end_access]. *)
Definition transferEndAccess (EAI : EndAccessInst) (St : WalkState)
    : Result WalkState :=
  let! Storage := findAccessedStorage (EndAccessInst_getSource EAI) in
  match Accesses St !! storageKey Storage with
  | None => Abort end_iterator_dereferenced
  | Some Info =>
      let Info' := endAccess Info EAI in
      Ok {| Accesses :=
              if negb (hasAccessesInProgress Info')
              then delete (storageKey Storage) (Accesses St)
              else <[storageKey Storage := Info']> (Accesses St);
            ConflictingAccesses := ConflictingAccesses St;
            CallsToSwap := CallsToSwap St |}
  end.

(** One iteration of the instruction loop. *)
Definition transfer (Ctx : ASTContext) (Ins : SILInstruction) (St : WalkState)
    : Result WalkState :=
  match Ins with
  | IBeginAccess BAI => transferBeginAccess BAI St
  | IEndAccess EAI => transferEndAccess EAI St
  | IApply AI =>
      Ok {| Accesses := Accesses St;
            ConflictingAccesses := ConflictingAccesses St;
            CallsToSwap :=
              if isCallToStandardLibrarySwap AI Ctx
              then CallsToSwap St ++ [AI] else CallsToSwap St |}
  | IReturn =>
      if bool_decide (size (Accesses St) = 0%nat) then Ok St
      else Abort entries_not_removed
  | IOther => Ok St
  end.

(** The instruction loop over (part of) a block. *)
Fixpoint transferInsts (Ctx : ASTContext) (Is : list SILInstruction)
    (St : WalkState) : Result WalkState :=
  match Is with
  | [] => Ok St
  | Ins :: rest =>
      let! St' := transfer Ctx Ins St in
      transferInsts Ctx rest St'
  end.

(** The loop over the predecessors: the out state of the first
    predecessor that has one, else the state the block already has. *)
Fixpoint predecessorState (BlockOutAccesses : gmap Addr (option StorageMap))
    (Preds : list Addr) (BBState : option StorageMap) : option StorageMap :=
  match Preds with
  | [] => BBState
  | Pred :: rest =>
      match BlockOutAccesses !! Pred with
      | None => predecessorState BlockOutAccesses rest BBState
      | Some None => predecessorState BlockOutAccesses rest BBState
      | Some (Some PredAccesses) => Some PredAccesses
      end
  end.

(** The state of the loop over the blocks. *)
Record FunctionState : Type := {
  BlockOutAccesses : gmap Addr (option StorageMap);
  fs_ConflictingAccesses : list ConflictingAccess;
  fs_CallsToSwap : list ApplyInst
}.

Definition optional_has_no_value : Fault :=
  AssertionFailure "Optional: hasVal".

(** One iteration of the loop over the reverse post order. *)
Definition visitBlock (Ctx : ASTContext) (BB : SILBasicBlock) (FnSt : FunctionState)
    : Result FunctionState :=
  (* BlockOutAccesses[BB] *)
  let Out := match BlockOutAccesses FnSt !! bb_self BB with
             | Some _ => BlockOutAccesses FnSt
             | None => <[bb_self BB := None]> (BlockOutAccesses FnSt)
             end in
  let BBState := predecessorState Out (getPredecessorBlocks BB)
                                  (default None (Out !! bb_self BB)) in
  match BBState with
  | None => Abort optional_has_no_value
  | Some Accesses0 =>
      let! St := transferInsts Ctx (Insts BB)
                   {| Accesses := Accesses0;
                      ConflictingAccesses := fs_ConflictingAccesses FnSt;
                      CallsToSwap := fs_CallsToSwap FnSt |} in
      Ok {| BlockOutAccesses := <[bb_self BB := Some (Accesses St)]> Out;
            fs_ConflictingAccesses := ConflictingAccesses St;
            fs_CallsToSwap := CallsToSwap St |}
  end.

Fixpoint visitBlocks (Ctx : ASTContext) (RPO : list SILBasicBlock)
    (FnSt : FunctionState) : Result FunctionState :=
  match RPO with
  | [] => Ok FnSt
  | BB :: rest =>
      let! FnSt' := visitBlock Ctx BB FnSt in
      visitBlocks Ctx rest FnSt'
  end.

(** The loop that emits the collected violations. *)
Fixpoint emitViolations (Violations : list ConflictingAccess)
    (Swaps : list ApplyInst) (Ctx : ASTContext) : Result (list Diagnostic) :=
  match Violations with
  | [] => Ok []
  | Violation :: rest =>
      let! Ds := diagnoseExclusivityViolation (ca_Storage Violation)
                   (ca_FirstAccess Violation) (ca_SecondAccess Violation)
                   Swaps Ctx in
      let! Rest := emitViolations rest Swaps Ctx in
      Ok (Ds ++ Rest)
  end.

(** The traversal of [checkStaticExclusivity]: everything before the
    diagnostics are emitted.  [RPO] is [PO->getReversePostOrder()]. *)
Definition traverse (Fn : SILFunction) (RPO : list SILBasicBlock)
    : Result FunctionState :=
  match Blocks Fn with
  | [] => Ok {| BlockOutAccesses := ∅; fs_ConflictingAccesses := [];
                fs_CallsToSwap := [] |}
  | EntryBlock :: _ =>
      visitBlocks (getASTContext Fn) RPO
        {| BlockOutAccesses := {[ bb_self EntryBlock := Some ∅ ]};
           fs_ConflictingAccesses := [];
           fs_CallsToSwap := [] |}
  end.

(** [checkStaticExclusivity]: the diagnostics of one function. *)
Definition checkStaticExclusivity (Fn : SILFunction) (RPO : list SILBasicBlock)
    : Result (list Diagnostic) :=
  match Blocks Fn with
  | [] => Ok []
  | _ =>
      let! FnSt := traverse Fn RPO in
      emitViolations (fs_ConflictingAccesses FnSt) (fs_CallsToSwap FnSt)
                     (getASTContext Fn)
  end.

(** * The vocabulary of the properties *)

(** ** Conflict test *)

(** An instruction that opens or closes no access other than a read. *)
Definition readOnly (Ins : SILInstruction) : Prop :=
  match Ins with
  | IBeginAccess BAI => getAccessKind BAI = Read
  | IEndAccess EAI => getAccessKind (getBeginAccess EAI) = Read
  | _ => True
  end.

(** No storage location has a write-like access in progress. *)
Definition noNonReads (M : StorageMap) : Prop :=
  forall K Info, M !! K = Some Info -> NonReads Info = 0.

(** ** Storage identity *)

(** Two storage identities name the same storage: the same defining
    value, the same global variable, or the same field of the same
    object. *)
Definition sameStorage (L R : AccessedStorage) : Prop :=
  match L, R with
  | OfValue V1, OfValue V2 => addrOf V1 = addrOf V2
  | OfGlobal G1, OfGlobal G2 => gv_self G1 = gv_self G2
  | OfObjectProjection P1, OfObjectProjection P2 =>
      addrOf (Object P1) = addrOf (Object P2)
      /\ proj_Index (Proj P1) = proj_Index (Proj P2)
  | _, _ => False
  end.

(** ** The resolver faults on unrecognised producers *)

(** The chain of producers the resolver visits from [V]: [V], then the
    first operand of each producer it looks through. *)
Fixpoint producerChain (V : SILValue) : list SILValue :=
  V :: match V with
       | Inst1 _ K Operand0 =>
           if isLookThrough K then producerChain Operand0 else []
       | _ => []
       end.

(** The allow-list: the producers looked through and the recognised
    roots. *)
Definition isRecognizedProducer (V : SILValue) : bool :=
  match V with
  | GlobalAddr _ _ | RefElementAddr _ _ _ _
  | AllocBox _ _ | FunctionArgument _ _ => true
  | Inst0 _ K | Inst1 _ K _ => isLookThrough K || isBaseProducer K
  end.

(** ** Well-formed access markers *)

(** The key of the storage a [begin_access] resolves to. *)
Definition keyOf (BAI : BeginAccessInst) : option StorageKey :=
  match findAccessedStorage (getSource BAI) with
  | Ok Storage => Some (storageKey Storage)
  | Abort _ => None
  end.

Definition isRead (BAI : BeginAccessInst) : bool :=
  SILAccessKind_eq (getAccessKind BAI) Read.

(** The number of open accesses to [K] that are reads ([read = true]) or
    write-like ([read = false]). *)
Definition countOpen (K : StorageKey) (read : bool) (Open : list BeginAccessInst) : Z :=
  Z.of_nat (length (filter (fun b => keyOf b = Some K /\ isRead b = read) Open)).

(** [balanced Open Is Open']: along the instructions [Is], started with
    the accesses [Open] in progress, every [end_access] closes an access
    that is in progress, every [return] is reached with no access in
    progress, and the accesses in progress stay within the range of the
    counters; [Open'] are the accesses in progress at the end. *)
Inductive balanced : list BeginAccessInst -> list SILInstruction ->
                     list BeginAccessInst -> Prop :=
| balanced_nil Open :
    balanced Open [] Open
| balanced_begin Open BAI Is Open' :
    Z.of_nat (length Open) + 1 < UINT_MOD ->
    balanced (BAI :: Open) Is Open' ->
    balanced Open (IBeginAccess BAI :: Is) Open'
| balanced_end Open1 Open2 EAI Is Open' :
    balanced (Open1 ++ Open2) Is Open' ->
    balanced (Open1 ++ getBeginAccess EAI :: Open2) (IEndAccess EAI :: Is) Open'
| balanced_apply Open AI Is Open' :
    balanced Open Is Open' ->
    balanced Open (IApply AI :: Is) Open'
| balanced_return Is Open' :
    balanced [] Is Open' ->
    balanced [] (IReturn :: Is) Open'
| balanced_other Open Is Open' :
    balanced Open Is Open' ->
    balanced Open (IOther :: Is) Open'.

(** [nested Open Is Open']: as [balanced], and the accesses are ended in
    the reverse of the order in which they were begun: [Open] is a stack,
    the access begun last first. *)
Inductive nested : list BeginAccessInst -> list SILInstruction ->
                   list BeginAccessInst -> Prop :=
| nested_nil Open :
    nested Open [] Open
| nested_begin Open BAI Is Open' :
    Z.of_nat (length Open) + 1 < UINT_MOD ->
    nested (BAI :: Open) Is Open' ->
    nested Open (IBeginAccess BAI :: Is) Open'
| nested_end Open EAI Is Open' :
    nested Open Is Open' ->
    nested (getBeginAccess EAI :: Open) (IEndAccess EAI :: Is) Open'
| nested_apply Open AI Is Open' :
    nested Open Is Open' ->
    nested Open (IApply AI :: Is) Open'
| nested_return Is Open' :
    nested [] Is Open' ->
    nested [] (IReturn :: Is) Open'
| nested_other Open Is Open' :
    nested Open Is Open' ->
    nested Open (IOther :: Is) Open'.

(** A path of the control-flow graph from the entry block, last block
    first. *)
Inductive cfgPath (RPO : list SILBasicBlock) (Entry : Addr)
  : list SILBasicBlock -> Prop :=
| cfgPath_entry B :
    B ∈ RPO -> bb_self B = Entry -> cfgPath RPO Entry [B]
| cfgPath_step B' B P :
    cfgPath RPO Entry (B :: P) -> B' ∈ RPO ->
    bb_self B ∈ getPredecessorBlocks B' ->
    cfgPath RPO Entry (B' :: B :: P).

(** The instructions along a path, in execution order. *)
Definition pathInsts (P : list SILBasicBlock) : list SILInstruction :=
  concat (Insts <$> reverse P).

(** The access markers of a function are well formed: they are balanced
    along every path from the entry. *)
Definition wellFormedMarkers (RPO : list SILBasicBlock) (Entry : Addr) : Prop :=
  forall P, cfgPath RPO Entry P -> exists Open, balanced [] (pathInsts P) Open.

(** The access markers of a function are well formed and nested along
    every path from the entry. *)
Definition nestedMarkers (RPO : list SILBasicBlock) (Entry : Addr) : Prop :=
  forall P, cfgPath RPO Entry P -> exists Open, nested [] (pathInsts P) Open.

(** Every block but the first comes after one of its predecessors. *)
Definition predecessorFirst (RPO : list SILBasicBlock) : Prop :=
  forall Visited BB Rest,
    RPO = Visited ++ BB :: Rest -> Visited <> [] ->
    exists Pred, Pred ∈ Visited /\ bb_self Pred ∈ getPredecessorBlocks BB.

(** The address of every access marker has a shape the resolver
    accepts. *)
Definition resolvable (Ins : SILInstruction) : Prop :=
  match Ins with
  | IBeginAccess BAI => keyOf BAI <> None
  | IEndAccess EAI => keyOf (getBeginAccess EAI) <> None
  | _ => True
  end.

(** The storage map counts the accesses in progress. *)
Definition abstracts (Open : list BeginAccessInst) (M : StorageMap) : Prop :=
  Z.of_nat (length Open) < UINT_MOD
  /\ forall K,
      match M !! K with
      | None => countOpen K true Open = 0 /\ countOpen K false Open = 0
      | Some Info =>
          Reads Info = countOpen K true Open
          /\ NonReads Info = countOpen K false Open
          /\ FirstAccess Info <> None
          /\ 0 < countOpen K true Open + countOpen K false Open
      end.

(** [FirstAccess] of every record is the access to its location that
    has been in progress longest. *)
Definition firstIsOldest (Open : list BeginAccessInst) (M : StorageMap) : Prop :=
  forall K Info,
    M !! K = Some Info ->
    FirstAccess Info = last (filter (fun b => keyOf b = Some K) Open).

Definition abstractsNested (Open : list BeginAccessInst) (M : StorageMap) : Prop :=
  abstracts Open M /\ firstIsOldest Open M.

(** A recorded conflict does not pair two reads. *)
Definition notBothReads (c : ConflictingAccess) : Prop :=
  isRead (ca_FirstAccess c) && isRead (ca_SecondAccess c) = false.

(** The faults of the resolver. *)
Definition isResolverFault (f : Fault) : Prop :=
  f = unexpected_access_source \/ f = operand_out_of_range.

(** The record invariant of the data model. *)
Definition firstAccessInvariant (Info : AccessInfo) : Prop :=
  FirstAccess Info <> None <-> 0 < Reads Info + NonReads Info.

(** ** The instruction loop counts the accesses in progress *)

(** The record of [beginAccess] when its assertion holds. *)
Definition beginCounted (Info : AccessInfo) (BAI : BeginAccessInst) : AccessInfo :=
  {| Reads := if isRead BAI then uinc (Reads Info) else Reads Info;
     NonReads := if isRead BAI then NonReads Info else uinc (NonReads Info);
     FirstAccess := Some (default BAI (FirstAccess Info)) |}.

(** The conflicts a [begin_access] appends. *)
Definition newConflicts (Info : AccessInfo) (Storage : AccessedStorage)
    (BAI : BeginAccessInst) : list ConflictingAccess :=
  if conflictsWithAccess Info (getAccessKind BAI) && negb (alreadyHadConflict Info)
  then match FirstAccess Info with
       | Some Conflict => [{| ca_Storage := Storage; ca_FirstAccess := Conflict;
                              ca_SecondAccess := BAI |}]
       | None => []
       end
  else [].

(** The loop stopped in the resolver, at a marker of [Is] whose address
    the resolver does not accept. *)
Definition resolverStops (Is : list SILInstruction) (f : Fault) : Prop :=
  isResolverFault f /\ exists Ins, Ins ∈ Is /\ ~ resolvable Ins.

(** ** The loop over the blocks follows paths of the graph *)

(** What the out states say after the blocks [Visited]: every block
    visited has an out state, no other block has an entry, and each out
    state is related by [Abs] to the accesses in progress at the end of a
    path to its block ([Bal] tells which accesses these are). *)
Definition blockInvariant
    (Bal : list BeginAccessInst -> list SILInstruction ->
           list BeginAccessInst -> Prop)
    (Abs : list BeginAccessInst -> StorageMap -> Prop)
    (RPO : list SILBasicBlock) (Entry : Addr)
    (Out : gmap Addr (option StorageMap)) (Visited : list SILBasicBlock) : Prop :=
  (forall a, is_Some (Out !! a) -> a ∈ bb_self <$> Visited)
  /\ (forall B, B ∈ Visited -> exists M, Out !! bb_self B = Some (Some M))
  /\ (forall a M, Out !! a = Some (Some M) ->
        exists B P, bb_self B = a /\ cfgPath RPO Entry (B :: P)
                    /\ forall Open, Bal [] (pathInsts (B :: P)) Open ->
                                    Abs Open M).

(** Why a traversal of well-formed markers can stop at all: an address
    the resolver does not accept, or an order of the blocks that is not a
    reverse post order. *)
Definition benignStop (RPO : list SILBasicBlock) (f : Fault) : Prop :=
  (isResolverFault f
   /\ exists BB Ins, BB ∈ RPO /\ Ins ∈ Insts BB /\ ~ resolvable Ins)
  \/ (f = optional_has_no_value /\ ~ predecessorFirst RPO).

(** ** An end-access without a record *)

Definition abortsWithInternalError {A : Type} (r : Result A) : Prop :=
  exists f, r = Abort f /\ isInternalError f = true.

(** The specification's reading: an [end_access] whose storage has no
    record stops the analysis with an internal-error signal. *)
Definition missingRecordIsInternalError (Ctx : ASTContext)
    (EAI : EndAccessInst) (St : WalkState) : Prop :=
  forall Storage,
    findAccessedStorage (EndAccessInst_getSource EAI) = Ok Storage ->
    Accesses St !! storageKey Storage = None ->
    abortsWithInternalError (transfer Ctx (IEndAccess EAI) St).

Definition initialState : WalkState :=
  {| Accesses := ∅; ConflictingAccesses := []; CallsToSwap := [] |}.

(** ** The dedup policy *)

(** The number of conflicts recorded on the storage with key [K]. *)
Definition conflictsOn (K : StorageKey) (L : list ConflictingAccess) : nat :=
  length (filter (fun c => storageKey (ca_Storage c) = K) L).

(** The specification's reading of the dedup policy: as long as the
    location's record never leaves the map (its access set never drains),
    at most one conflict is reported for it. *)
Definition oneReportUntilDrain (Ctx : ASTContext) (K : StorageKey)
    (Is : list SILInstruction) : Prop :=
  forall St',
    transferInsts Ctx Is initialState = Ok St' ->
    (forall Pre Post St1,
        Is = Pre ++ Post -> Pre <> [] ->
        transferInsts Ctx Pre initialState = Ok St1 ->
        Accesses St1 !! K <> None) ->
    (conflictsOn K (ConflictingAccesses St') <= 1)%nat.

(** ** The primary diagnostic *)

(** The note attached to the primary diagnostic. *)
Definition noteFor (BAI : BeginAccessInst) : Diagnostic :=
  {| diag_Loc := loc_SourceLoc (getLoc BAI);
     diag_ID := exclusivity_conflicting_access;
     diag_Args := [];
     diag_Highlight := loc_SourceRange (getLoc BAI);
     diag_FixIt := None |}.

(** The primary diagnostic that names the declaration [VD]. *)
Definition primaryFor (Ctx : ASTContext) (VD : ValueDecl) (BAI : BeginAccessInst)
    (Fix : option FixIt) : Diagnostic :=
  {| diag_Loc := loc_SourceLoc (getLoc BAI);
     diag_ID := if isSwiftVersion3 Ctx then exclusivity_access_required_swift3
                else exclusivity_access_required;
     diag_Args := [ArgDescriptiveKind (DescriptiveKind VD);
                   ArgIdentifier (BaseName VD);
                   ArgUnsigned (SILAccessKind_unsigned (getAccessKind BAI))];
     diag_Highlight := loc_SourceRange (getLoc BAI);
     diag_FixIt := Fix |}.

(** The primary diagnostic for storage without a declaration. *)
Definition primaryUnknownFor (Ctx : ASTContext) (BAI : BeginAccessInst) : Diagnostic :=
  {| diag_Loc := loc_SourceLoc (getLoc BAI);
     diag_ID := if isSwiftVersion3 Ctx
                then exclusivity_access_required_unknown_decl_swift3
                else exclusivity_access_required_unknown_decl;
     diag_Args := [ArgUnsigned (SILAccessKind_unsigned (getAccessKind BAI))];
     diag_Highlight := loc_SourceRange (getLoc BAI);
     diag_FixIt := None |}.

(** The access the primary diagnostic is sited at, and the other one. *)
Definition mainAccess (Prior New : BeginAccessInst) : BeginAccessInst :=
  if isRead Prior then New else Prior.

Definition noteAccess (Prior New : BeginAccessInst) : BeginAccessInst :=
  if isRead Prior then Prior else New.

(** ** The swapAt fix-it *)

(** The first recorded call with a call expression whose first two
    arguments are the two given expressions: the source range of the call
    the fix-it replaces. *)
Fixpoint recordedSwapCall (Calls : list ApplyInst) (InOut1 InOut2 : Expr)
    : option SourceRange :=
  match Calls with
  | [] => None
  | AI :: rest =>
      match getAsCallExpr (ai_Loc AI) with
      | Some (CallExpr i _ (TupleExpr _ (Arg1 :: Arg2 :: _)) _) =>
          if Expr_ptr_eq Arg1 InOut1 && Expr_ptr_eq Arg2 InOut2
          then Some (e_SourceRange i)
          else recordedSwapCall rest InOut1 InOut2
      | _ => recordedSwapCall rest InOut1 InOut2
      end
  end.

(** The two expressions are the first and the second argument of a
    recorded call to the library swap. *)
Definition argumentsOfRecordedSwap (Calls : list ApplyInst)
    (InOut1 InOut2 : Expr) : Prop :=
  exists AI i Fn j Elements CalledValue Arg1 Arg2,
    AI ∈ Calls
    /\ getAsCallExpr (ai_Loc AI)
       = Some (CallExpr i Fn (TupleExpr j Elements) CalledValue)
    /\ Elements !! 0%nat = Some Arg1 /\ Elements !! 1%nat = Some Arg2
    /\ Expr_ptr_eq Arg1 InOut1 = true /\ Expr_ptr_eq Arg2 InOut2 = true.

(** The subscript declaration is declared in, or is a witness for a
    requirement of, the mutable collection protocol. *)
Definition onMutableCollection (Decl : SubscriptDecl) (Ctx : ASTContext) : Prop :=
  match sd_ProtocolContext Decl with
  | Some P => Some P = getMutableCollectionDecl Ctx
  | None => getMutableCollectionDecl Ctx ∈ sd_SatisfiedProtocolRequirements Decl
            /\ getMutableCollectionDecl Ctx <> None
  end.

(** The preconditions of the fix-it as the specification lists them. *)
Definition specFixItPreconditions (Prior New : BeginAccessInst)
    (Calls : list ApplyInst) (Ctx : ASTContext) : Prop :=
  getAccessKind Prior <> Read /\ getAccessKind New <> Read
  /\ exists i1 j1 Base1 Index1 Decl1 i2 j2 Base2 Index2 Decl2,
      getAsInOutExpr (getLoc Prior)
      = Some (InOutExpr i1 (SubscriptExpr j1 Base1 Index1 Decl1))
      /\ getAsInOutExpr (getLoc New)
         = Some (InOutExpr i2 (SubscriptExpr j2 Base2 Index2 Decl2))
      /\ sd_self Decl1 = sd_self Decl2
      /\ onMutableCollection Decl1 Ctx
      /\ extractExprText Base1 Ctx = extractExprText Base2 Ctx
      /\ argumentsOfRecordedSwap Calls
           (InOutExpr i1 (SubscriptExpr j1 Base1 Index1 Decl1))
           (InOutExpr i2 (SubscriptExpr j2 Base2 Index2 Decl2)).

(** The conditions under which the code attaches the fix-it [Fix]. *)
Definition fixItConditions (Prior New : BeginAccessInst)
    (Calls : list ApplyInst) (Ctx : ASTContext) (Fix : FixIt) : Prop :=
  getAccessKind Prior = Modify /\ getAccessKind New = Modify
  /\ exists i1 j1 Base1 p1 IndexSub1 Decl1 i2 j2 Base2 p2 IndexSub2 Decl2 CallRange,
      getAsInOutExpr (getLoc Prior)
      = Some (InOutExpr i1 (SubscriptExpr j1 Base1 (ParenExpr p1 IndexSub1) Decl1))
      /\ getAsInOutExpr (getLoc New)
         = Some (InOutExpr i2 (SubscriptExpr j2 Base2 (ParenExpr p2 IndexSub2) Decl2))
      /\ recordedSwapCall Calls
           (InOutExpr i1 (SubscriptExpr j1 Base1 (ParenExpr p1 IndexSub1) Decl1))
           (InOutExpr i2 (SubscriptExpr j2 Base2 (ParenExpr p2 IndexSub2) Decl2))
         = Some CallRange
      /\ sd_self Decl1 = sd_self Decl2
      /\ onMutableCollection Decl1 Ctx
      /\ extractExprText Base1 Ctx = extractExprText Base2 Ctx
      /\ Fix = {| fix_Range := CallRange;
                  fix_Text := swapAtText (extractExprText Base1 Ctx)
                                         (extractExprText IndexSub1 Ctx)
                                         (extractExprText IndexSub2 Ctx) |}.

(** A recorded call is, in the syntax tree, a call to the library swap
    with an argument list of at least two elements. *)
Definition wellFormedSwapCall (Ctx : ASTContext) (AI : ApplyInst) : Prop :=
  match getAsCallExpr (ai_Loc AI) with
  | Some (CallExpr _ Fn (TupleExpr _ (_ :: _ :: _)) CalledValue) =>
      isCallExprToStandardLibrarySwap Fn CalledValue Ctx = true
  | Some _ => False
  | None => True
  end.

(** The declaration of the subscript an access comes from. *)
Definition subscriptDeclOf (BAI : BeginAccessInst) : option SubscriptDecl :=
  match getAsInOutExpr (getLoc BAI) with
  | Some (InOutExpr _ (SubscriptExpr _ _ _ Decl)) => Some Decl
  | _ => None
  end.

(** Every requirement a subscript witnesses is declared in a protocol. *)
Definition requirementsInProtocols (Decl : SubscriptDecl) : Prop :=
  Forall (fun ReqProto => ReqProto <> None)
         (sd_SatisfiedProtocolRequirements Decl).

(** The syntax the fix-it inspects is as the type checker leaves it: the
    assertions and casts of the fix-it hold. *)
Definition wellTypedSyntax (Ctx : ASTContext) (Calls : list ApplyInst)
    (Prior : BeginAccessInst) : Prop :=
  Forall (wellFormedSwapCall Ctx) Calls
  /\ forall Decl, subscriptDeclOf Prior = Some Decl ->
                  requirementsInProtocols Decl.

(** The index expression of the subscript an access comes from. *)
Definition subscriptIndex (BAI : BeginAccessInst) : option Expr :=
  match getAsInOutExpr (getLoc BAI) with
  | Some (InOutExpr _ (SubscriptExpr _ _ Index _)) => Some Index
  | _ => None
  end.

(** The index is a single parenthesised expression. *)
Definition plainParenIndex (BAI : BeginAccessInst) : Prop :=
  exists p Sub, subscriptIndex BAI = Some (ParenExpr p Sub).

(** The specification's reading of the fix-it: it is attached to the
    primary diagnostic iff the listed preconditions hold. *)
Definition fixItIffSpecPreconditions (Storage : AccessedStorage)
    (Prior New : BeginAccessInst) (Calls : list ApplyInst) (Ctx : ASTContext)
    : Prop :=
  forall Main Note,
    diagnoseExclusivityViolation Storage Prior New Calls Ctx = Ok [Main; Note] ->
    (is_Some (diag_FixIt Main) <-> specFixItPreconditions Prior New Calls Ctx).

(** * Example programs *)

(** ** A function that reads a global and writes it before the read ends *)

Module Example.

Definition g_decl : ValueDecl :=
  {| vd_self := 101%N; DescriptiveKind := 3%N; BaseName := "g" |}.

Definition g : SILGlobalVariable :=
  {| gv_self := 100%N; gv_Decl := Some g_decl |}.

Definition locAt (pos : N) : SILLocation :=
  {| loc_Node := Some OtherNode;
     loc_SourceLoc := pos;
     loc_SourceRange := {| Start := pos; End := (pos + 1)%N |} |}.

Definition access (self : Addr) (Kind : SILAccessKind) (Source : SILValue)
    (pos : N) : BeginAccessInst :=
  {| bai_self := self; getAccessKind := Kind; getSource := Source;
     getLoc := locAt pos |}.

Definition endOf (BAI : BeginAccessInst) : SILInstruction :=
  IEndAccess {| getBeginAccess := BAI |}.

Definition readG : BeginAccessInst := access 1%N Read (GlobalAddr 10%N g) 40%N.

Definition writeG : BeginAccessInst := access 2%N Modify (GlobalAddr 11%N g) 50%N.

Definition ctx : ASTContext :=
  {| extractText := fun _ => EmptyString;
     getSwap := Some 7%N;
     getMutableCollectionDecl := Some 8%N;
     isSwiftVersion3 := false |}.

Definition entryBlock : SILBasicBlock :=
  {| bb_self := 1%N;
     getPredecessorBlocks := [];
     Insts := [IBeginAccess readG; IBeginAccess writeG;
               endOf writeG; endOf readG] |}.

Definition exitBlock : SILBasicBlock :=
  {| bb_self := 2%N;
     getPredecessorBlocks := [1%N];
     Insts := [IReturn] |}.

Definition readThenWrite : SILFunction :=
  {| Blocks := [entryBlock; exitBlock]; getASTContext := ctx |}.

Definition rpo : list SILBasicBlock := [entryBlock; exitBlock].

(** The same read, open across the edge between two blocks. *)
Definition openingBlock : SILBasicBlock :=
  {| bb_self := 1%N;
     getPredecessorBlocks := [];
     Insts := [IBeginAccess readG] |}.

Definition closingBlock : SILBasicBlock :=
  {| bb_self := 2%N;
     getPredecessorBlocks := [1%N];
     Insts := [endOf readG; IReturn] |}.

Definition readAcrossBlocks : SILFunction :=
  {| Blocks := [openingBlock; closingBlock]; getASTContext := ctx |}.

Definition rpoAcross : list SILBasicBlock := [openingBlock; closingBlock].

(** A [begin_access] that is ended twice on one path. *)
Definition doubleEnd : SILFunction :=
  {| Blocks := [ {| bb_self := 1%N; getPredecessorBlocks := [];
                    Insts := [IBeginAccess readG; endOf readG; endOf readG;
                              IReturn] |} ];
     getASTContext := ctx |}.

(** Three writes to [g]: the second nested in the first and closed, the
    third opened while the first is still open. *)
Definition writeA : BeginAccessInst := access 3%N Modify (GlobalAddr 12%N g) 60%N.

Definition writeB : BeginAccessInst := access 4%N Modify (GlobalAddr 13%N g) 70%N.

Definition writeC : BeginAccessInst := access 5%N Modify (GlobalAddr 14%N g) 80%N.

Definition nestedWrites : list SILInstruction :=
  [IBeginAccess writeA; IBeginAccess writeB; endOf writeB; IBeginAccess writeC].

(** A read of [g] that is ended while a write to [g], begun after it, is
    still in progress, and a second read of [g] within the write. *)
Definition readAgainG : BeginAccessInst := access 6%N Read (GlobalAddr 15%N g) 90%N.

Definition overlapBlock : SILBasicBlock :=
  {| bb_self := 1%N;
     getPredecessorBlocks := [];
     Insts := [IBeginAccess readG; IBeginAccess writeG; endOf readG;
               IBeginAccess readAgainG; endOf readAgainG; endOf writeG;
               IReturn] |}.

Definition readEndedInsideWrite : SILFunction :=
  {| Blocks := [overlapBlock]; getASTContext := ctx |}.

(** [swap(&c[i], &c[j])] on a local collection [c]. *)
Definition range (a b : N) : SourceRange := {| Start := a; End := b |}.

Definition expr (self a b : N) : ExprInfo :=
  {| e_self := self; e_SourceRange := range a b |}.

Definition sourceText (r : SourceRange) : string :=
  match Start r with
  | 6%N | 13%N => "c"
  | 8%N => "i"
  | 15%N => "j"
  | 30%N => "d"
  | _ => EmptyString
  end.

Definition swapCtx : ASTContext :=
  {| extractText := sourceText;
     getSwap := Some 7%N;
     getMutableCollectionDecl := Some 8%N;
     isSwiftVersion3 := false |}.

(** The subscript of an array: a witness of the subscript requirement
    of the mutable collection protocol (at address 8). *)
Definition arraySubscript : SubscriptDecl :=
  {| sd_self := 300%N; sd_ProtocolContext := None;
     sd_SatisfiedProtocolRequirements := [Some 9%N; Some 8%N] |}.

Definition base1 : Expr := OtherExpr (expr 201 6 7).

Definition index1 : Expr := ParenExpr (expr 203 7 10) (OtherExpr (expr 202 8 9)).

Definition inout1 : Expr :=
  InOutExpr (expr 205 5 10) (SubscriptExpr (expr 204 6 10) base1 index1 arraySubscript).

Definition base2 : Expr := OtherExpr (expr 211 13 14).

Definition index2 : Expr := ParenExpr (expr 213 14 17) (OtherExpr (expr 212 15 16)).

Definition inout2 : Expr :=
  InOutExpr (expr 215 12 17) (SubscriptExpr (expr 214 13 17) base2 index2 arraySubscript).

Definition swapCallOf (Arg1 Arg2 : Expr) : Expr :=
  CallExpr (expr 220 0 18) (DeclRefExpr (expr 221 0 4) 7%N)
           (TupleExpr (expr 222 4 18) [Arg1; Arg2]) (Some 7%N).

Definition applyAt (Call : Expr) : ApplyInst :=
  {| ai_self := 500%N;
     ai_Loc := {| loc_Node := Some (ExprNode Call); loc_SourceLoc := 0%N;
                  loc_SourceRange := range 0 18 |};
     getReferencedFunction :=
       Some {| hasLocation := true;
               getLocation := {| loc_Node := Some (FuncDeclNode 7%N);
                                 loc_SourceLoc := 0%N;
                                 loc_SourceRange := range 0 0 |} |} |}.

Definition c_decl : ValueDecl :=
  {| vd_self := 102%N; DescriptiveKind := 3%N; BaseName := "c" |}.

(** [c] is a boxed local variable. *)
Definition c_box : SILValue := AllocBox 400%N (Some c_decl).

Definition c_addr : SILValue := Inst1 401%N ValueKind.ProjectBoxInst c_box.

(** [c] is reached through an addressor. *)
Definition c_addressor : SILValue :=
  Inst1 403%N ValueKind.PointerToAddressInst (Inst0 402%N (ValueKind.Other 0%N)).

Definition modifyAt (self : Addr) (Source : SILValue) (InOut : Expr) (pos : N)
    : BeginAccessInst :=
  {| bai_self := self; getAccessKind := Modify; getSource := Source;
     getLoc := {| loc_Node := Some (ExprNode InOut); loc_SourceLoc := pos;
                  loc_SourceRange := getSourceRange InOut |} |}.

Definition swapFunction (Access1 Access2 : BeginAccessInst) (Call : Expr)
    : SILFunction :=
  {| Blocks := [ {| bb_self := 1%N; getPredecessorBlocks := [];
                    Insts := [IBeginAccess Access1; IBeginAccess Access2;
                              IApply (applyAt Call);
                              endOf Access2; endOf Access1; IReturn] |} ];
     getASTContext := swapCtx |}.

Definition access1 : BeginAccessInst := modifyAt 31%N c_addr inout1 5%N.

Definition access2 : BeginAccessInst := modifyAt 32%N c_addr inout2 12%N.

Definition swapCall : Expr := swapCallOf inout1 inout2.

(** [swap(&c[i], &d[j])]: the base of the second subscript has another
    text. *)
Definition base2d : Expr := OtherExpr (expr 211 30 31).

Definition inout2d : Expr :=
  InOutExpr (expr 215 12 17) (SubscriptExpr (expr 214 13 17) base2d index2 arraySubscript).

(** [swap(&c[i, k], &c[j])]: the index of the first subscript is an
    argument list of two elements. *)
Definition index1pair : Expr :=
  TupleExpr (expr 203 7 10) [OtherExpr (expr 202 8 9); OtherExpr (expr 206 9 10)].

Definition inout1pair : Expr :=
  InOutExpr (expr 205 5 10)
            (SubscriptExpr (expr 204 6 10) base1 index1pair arraySubscript).

(** The payload of an enum being initialised, and a field of it. *)
Definition enumPayload : SILValue :=
  Inst1 411%N ValueKind.InitEnumDataAddrInst (Inst0 410%N ValueKind.AllocStackInst).

Definition payloadField : SILValue :=
  Inst1 412%N ValueKind.StructElementAddrInst enumPayload.

Definition readG' : BeginAccessInst := access 6%N Read (GlobalAddr 15%N g) 90%N.

Definition access2d : BeginAccessInst := modifyAt 32%N c_addr inout2d 12%N.

Definition access1pair : BeginAccessInst := modifyAt 31%N c_addr inout1pair 5%N.

(** The same accesses with [c] reached through an addressor. *)
Definition access1addressor : BeginAccessInst :=
  modifyAt 31%N c_addressor inout1 5%N.

Definition access2addressor : BeginAccessInst :=
  modifyAt 32%N c_addressor inout2 12%N.

End Example.

(** * Further parts of the sources *)

(** ** Hashing of storage identities

    The hash functions of the libraries that
    [DenseMapInfo<AccessedStorage>::getHashValue] calls: the hash of a
    [SILValue] and of a [void *], both functions of the pointer, and
    [llvm::hash_combine] of an object and a projection. *)
Record HashFunctions : Type := {
  hashSILValue : Addr -> Z;
  hashPointer : Addr -> Z;
  hash_combine : Addr -> Projection -> Z
}.

(** [DenseMapInfo<AccessedStorage>::getHashValue] *)
Definition getHashValue (H : HashFunctions) (Storage : AccessedStorage) : Z :=
  match Storage with
  | OfValue V => hashSILValue H (addrOf V)
  | OfGlobal G => hashPointer H (gv_self G)
  | OfObjectProjection P => hash_combine H (addrOf (Object P)) (Proj P)
  end.

(** The hash of a projection respects the equality of projections. *)
Definition hashRespectsProjections (H : HashFunctions) : Prop :=
  forall a P Q, Projection_eq P Q = true -> hash_combine H a P = hash_combine H a Q.

(** * The migrator: a shallow embedding

    [lib/Migrator/Migrator.cpp] drives the compiler, the source manager,
    the rewriter and the file system.  These are outside the sources at
    hand; the embedding takes them as the fields of [Externals], each an
    arbitrary function on an abstract [World], and follows the control
    flow and the data flow of the migrator itself.  [std::vector::back]
    on an empty vector is undefined behaviour; a failed [assert] of
    [Optional], [ErrorOr] or [ArrayRef] stops the migrator. *)

Module Migrator.

Definition Version : Type := list N.

Inductive Swift3ObjCInferenceWarnings : Type := None_ | Minimal | Complete.

Inductive InputKind : Type := Filename | Buffer.

Record SelectedInput : Type := {
  Index : N;
  Kind : InputKind
}.

Inductive MigrationKind : Type := Syntactic | CompilerFixits.

(** [llvm::MemoryBuffer]: its contents and its identifier. *)
Record MemoryBuffer : Type := {
  getBuffer : string;
  getBufferIdentifier : string
}.

Record LangOptions : Type := {
  EffectiveLanguageVersion : Version;
  EnableSwift3ObjCInference : bool;
  WarnSwift3ObjCInference : Swift3ObjCInferenceWarnings
}.

Record FrontendOptions : Type := {
  InputFilenames : list string;
  InputBuffers : list MemoryBuffer;
  PrimaryInput : option SelectedInput
}.

Record MigratorOptions : Type := {
  EnableMigratorFixits : bool;
  KeepObjcVisibility : bool;
  EmitMigratedFilePath : string;
  DumpMigrationStatesDir : string
}.

(** [CompilerInvocation]: the options the migrator reads and writes. *)
Record CompilerInvocation : Type := {
  getLangOptions : LangOptions;
  getFrontendOptions : FrontendOptions;
  getMigratorOptions : MigratorOptions
}.

(** What the migrator calls and does not define. *)
Record Externals : Type := {
  World : Type;
  CompilerInstance : Type;
  MigrationState : Type;
  SourceFile : Type;
  Editor : Type;
  raw_fd_ostream : Type;
  (* Migrator::MaxCompilerFixitPassIterations *)
  MaxCompilerFixitPassIterations : N;
  (* llvm::MemoryBuffer::getFile: the buffer, or an error *)
  getFile : string -> World -> option MemoryBuffer;
  (* SourceManager *)
  addNewSourceBuffer : MemoryBuffer -> World -> N * World;
  addMemBufferCopy : string -> World -> N * World;
  (* MigrationState *)
  MigrationState_start : N -> MigrationState;
  MigrationState_make : MigrationKind -> N -> N -> MigrationState;
  getInputBufferID : MigrationState -> N;
  getOutputBufferID : MigrationState -> N;
  getOutputText : MigrationState -> World -> string;
  noChangesOccurred : MigrationState -> bool;
  print : MigrationState -> N -> string -> World -> bool * World;
  (* CompilerInvocation *)
  clearInputs : CompilerInvocation -> CompilerInvocation;
  addInputBuffer : MemoryBuffer -> CompilerInvocation -> CompilerInvocation;
  addInputFilename : string -> CompilerInvocation -> CompilerInvocation;
  (* CompilerInstance: a new instance set up with the invocation, [None]
     when [setup] returns true; [performSema] with a
     [FixitApplyDiagnosticConsumer] over the text and the file name added:
     its [getNumFixitsApplied] and what its [printResult] prints *)
  setup : CompilerInvocation -> World -> option CompilerInstance * World;
  performSema : CompilerInstance -> string -> string -> World
                -> (N * string) * World;
  hasASTContext : CompilerInstance -> World -> bool;
  hadError : CompilerInstance -> World -> bool;
  (* getPrimarySourceFile(), [None] for a null pointer, and
     SourceFile::getBufferID() *)
  getPrimarySourceFile : CompilerInstance -> World -> option SourceFile;
  getBufferID : SourceFile -> option N;
  (* the syntactic passes on an [EditorAdapter] for the instance *)
  newEditor : CompilerInstance -> World -> Editor;
  runAPIDiffMigratorPass : option SourceFile -> MigratorOptions -> Editor -> Editor;
  runTupleSplatMigratorPass : option SourceFile -> MigratorOptions -> Editor -> Editor;
  runTypeOfMigratorPass : option SourceFile -> MigratorOptions -> Editor -> Editor;
  (* the edits committed, applied to the text of the buffer by a
     [RewriteBufferEditsReceiver], and what its [printResult] prints *)
  applyRewrites : Editor -> N -> string -> string;
  (* llvm::raw_fd_ostream: opened on a file name, written, flushed,
     destroyed *)
  openFile : string -> World -> raw_fd_ostream * World;
  has_error : raw_fd_ostream -> bool;
  write : string -> raw_fd_ostream -> raw_fd_ostream;
  flush : raw_fd_ostream -> raw_fd_ostream;
  closeFile : raw_fd_ostream -> World -> World
}.

Section WithExternals.

Context (E : Externals).

(** The migrator object; its source manager is part of the world. *)
Record Migrator : Type := {
  StartInstance : CompilerInstance E;
  StartInvocation : CompilerInvocation;
  States : list (MigrationState E)
}.

(** [States.back()] *)
Definition back (States : list (MigrationState E)) : Result (MigrationState E) :=
  match last States with
  | Some State => Ok State
  | None => Abort (UndefinedBehaviour "back() of an empty vector")
  end.

(** [Migrator::getInputFilename] *)
Definition getInputFilename (StartInvocation : CompilerInvocation)
    : Result string :=
  match PrimaryInput (getFrontendOptions StartInvocation) with
  | None => Abort (AssertionFailure "Optional: hasVal")
  | Some PrimaryInput =>
      match InputFilenames (getFrontendOptions StartInvocation)
            !! N.to_nat (Index PrimaryInput) with
      | Some Name => Ok Name
      | None => Abort (AssertionFailure "Invalid index!")
      end
  end.

(** [Migrator::Migrator] *)
Definition Migrator_new (StartInstance : CompilerInstance E)
    (StartInvocation : CompilerInvocation) (W : World E)
    : Result (Migrator * World E) :=
  let! Name := getInputFilename StartInvocation in
  match getFile E Name W with
  | None => Abort (AssertionFailure "Cannot get value when an error exists!")
  | Some StartBuffer =>
      let (StartBufferID, W1) := addNewSourceBuffer E StartBuffer W in
      Ok ({| StartInstance := StartInstance;
             StartInvocation := StartInvocation;
             States := [MigrationState_start E StartBufferID] |}, W1)
  end.

(** [Migrator::performAFixItMigration]: the instance ([None] for
    [nullptr]), the migrator and the world after it. *)
Definition performAFixItMigration (SwiftLanguageVersion : Version)
    (M : Migrator) (W : World E)
    : Result (option (CompilerInstance E) * Migrator * World E) :=
  let! InputState := back (States M) in
  let! Name := getInputFilename (StartInvocation M) in
  let InputBuffer :=
    {| getBuffer := getOutputText E InputState W;
       getBufferIdentifier := Name |} in
  let Invocation := clearInputs E (StartInvocation M) in
  let Invocation :=
    {| getLangOptions :=
         {| EffectiveLanguageVersion := SwiftLanguageVersion;
            EnableSwift3ObjCInference := true;
            WarnSwift3ObjCInference :=
              if KeepObjcVisibility (getMigratorOptions (StartInvocation M))
              then Complete else Minimal |};
       getFrontendOptions := getFrontendOptions Invocation;
       getMigratorOptions := getMigratorOptions Invocation |} in
  let OrigFrontendOpts := getFrontendOptions (StartInvocation M) in
  let Invocation :=
    foldl (fun Inv Buffer => addInputBuffer E Buffer Inv) Invocation
          (InputBuffers OrigFrontendOpts) in
  let Invocation :=
    foldl (fun Inv Filename => addInputFilename E Filename Inv) Invocation
          (InputFilenames OrigFrontendOpts) in
  let PrimaryIndex :=
    N.of_nat (length (InputBuffers (getFrontendOptions Invocation))) in
  let Invocation := addInputBuffer E InputBuffer Invocation in
  let Invocation :=
    {| getLangOptions := getLangOptions Invocation;
       getFrontendOptions :=
         {| InputFilenames := InputFilenames (getFrontendOptions Invocation);
            InputBuffers := InputBuffers (getFrontendOptions Invocation);
            PrimaryInput := Some {| Index := PrimaryIndex; Kind := Buffer |} |};
       getMigratorOptions := getMigratorOptions Invocation |} in
  match setup E Invocation W with
  | (None, W1) => Ok (None, M, W1)
  | (Some Instance, W1) =>
      let! Name' := getInputFilename (StartInvocation M) in
      let '(NumFixitsApplied, Printed, W2) :=
        performSema E Instance (getOutputText E InputState W1) Name' W1 in
      let (ResultBufferID, W3) :=
        if (0 <? NumFixitsApplied)%N then
          addNewSourceBuffer E {| getBuffer := Printed;
                                  getBufferIdentifier := EmptyString |} W2
        else (getOutputBufferID E InputState, W2) in
      Ok (Some Instance,
          {| StartInstance := StartInstance M;
             StartInvocation := StartInvocation M;
             States := States M ++
                       [MigrationState_make E CompilerFixits
                          (getOutputBufferID E InputState) ResultBufferID] |},
          W3)
  end.

(** The loop of [Migrator::repeatFixitMigrations], with the number of
    iterations left. *)
Fixpoint repeatFixitMigrations_loop (Left : nat)
    (SwiftLanguageVersion : Version) (M : Migrator) (W : World E)
    : Result (option (CompilerInstance E) * Migrator * World E) :=
  match Left with
  | O => Ok (None, M, W)
  | S Left' =>
      let! (ThisInstance, M1, W1) :=
        performAFixItMigration SwiftLanguageVersion M W in
      match ThisInstance with
      | None => Ok (None, M1, W1)
      | Some Instance =>
          let! Back := back (States M1) in
          if noChangesOccurred E Back then Ok (Some Instance, M1, W1)
          else repeatFixitMigrations_loop Left' SwiftLanguageVersion M1 W1
      end
  end.

(** [Migrator::repeatFixitMigrations] *)
Definition repeatFixitMigrations (Iterations : N)
    (SwiftLanguageVersion : Version) (M : Migrator) (W : World E)
    : Result (option (CompilerInstance E) * Migrator * World E) :=
  repeatFixitMigrations_loop (N.to_nat Iterations) SwiftLanguageVersion M W.

(** [Migrator::performSyntacticPasses] *)
Definition performSyntacticPasses (M : Migrator) (W : World E)
    : Result (bool * Migrator * World E) :=
  let! InputState := back (States M) in
  let Editor0 := newEditor E (StartInstance M) W in
  let SF := getPrimarySourceFile E (StartInstance M) W in
  let Opts := getMigratorOptions (StartInvocation M) in
  let Editor1 := runAPIDiffMigratorPass E SF Opts Editor0 in
  let Editor2 := runTupleSplatMigratorPass E SF Opts Editor1 in
  let Editor3 := runTypeOfMigratorPass E SF Opts Editor2 in
  match SF with
  | None => Abort (UndefinedBehaviour "getPrimarySourceFile()->getBufferID()")
  | Some File =>
      match getBufferID E File with
      | None => Abort (AssertionFailure "Optional: hasVal")
      | Some BufferID =>
          let Printed :=
            applyRewrites E Editor3 BufferID (getOutputText E InputState W) in
          let (ResultBuffer, W1) := addMemBufferCopy E Printed W in
          let! Back := back (States M) in
          Ok (false,
              {| StartInstance := StartInstance M;
                 StartInvocation := StartInvocation M;
                 States := States M ++
                           [MigrationState_make E Syntactic
                              (getInputBufferID E Back) ResultBuffer] |},
              W1)
      end
  end.

(** [Migrator::emitRemap] *)
Definition emitRemap (M : Migrator) : bool := false.

(** [Migrator::emitMigratedFile] *)
Definition emitMigratedFile (M : Migrator) (W : World E)
    : Result (bool * World E) :=
  let OutFilename := EmitMigratedFilePath (getMigratorOptions (StartInvocation M)) in
  if String.eqb OutFilename EmptyString then Ok (false, W)
  else
    let (FileOS, W1) := openFile E OutFilename W in
    if has_error E FileOS then Ok (true, closeFile E FileOS W1)
    else
      let! Back := back (States M) in
      let FileOS1 := write E (getOutputText E Back W1) FileOS in
      let FileOS2 := flush E FileOS1 in
      Ok (has_error E FileOS2, closeFile E FileOS2 W1).

(** The loop of [Migrator::dumpStates] from the index [i] on. *)
Fixpoint dumpStates_loop (Rest : list (MigrationState E)) (i : N)
    (OutDir : string) (Failed : bool) (W : World E) : bool * World E :=
  match Rest with
  | [] => (Failed, W)
  | State :: Rest' =>
      let (PrintFailed, W1) := print E State i OutDir W in
      dumpStates_loop Rest' (i + 1)%N OutDir (Failed || PrintFailed) W1
  end.

(** [Migrator::dumpStates] *)
Definition dumpStates (M : Migrator) (W : World E) : bool * World E :=
  let OutDir := DumpMigrationStatesDir (getMigratorOptions (StartInvocation M)) in
  if String.eqb OutDir EmptyString then (false, W)
  else dumpStates_loop (States M) 0%N OutDir false W.

(** The end of [updateCodeAndEmitRemap]: the phases 2 and 3 and the
    output. *)
Definition migrateAndEmit (M : Migrator) (W : World E) : Result (bool * World E) :=
  let! (FailedSyntacticPasses, M1, W1) := performSyntacticPasses M W in
  if FailedSyntacticPasses : bool then Ok (true, W1)
  else
    let! (M2, W2) :=
      if EnableMigratorFixits (getMigratorOptions (StartInvocation M1)) then
        let! (_, M2, W2) :=
          repeatFixitMigrations (MaxCompilerFixitPassIterations E)
                                [4; 0; 0]%N M1 W1 in
        Ok (M2, W2)
      else Ok (M1, W1) in
    let EmitRemapFailed := emitRemap M2 in
    let! (EmitMigratedFailed, W3) := emitMigratedFile M2 W2 in
    let (DumpMigrationStatesFailed, W4) := dumpStates M2 W3 in
    Ok (EmitRemapFailed || EmitMigratedFailed || DumpMigrationStatesFailed, W4).

(** [migrator::updateCodeAndEmitRemap] *)
Definition updateCodeAndEmitRemap (Instance : CompilerInstance E)
    (Invocation : CompilerInvocation) (W : World E) : Result (bool * World E) :=
  let! (M, W1) := Migrator_new Instance Invocation W in
  if hadError E Instance W1 then
    let! (PreFixItInstance, M1, W2) :=
      repeatFixitMigrations 2 (EffectiveLanguageVersion (getLangOptions Invocation))
                            M W1 in
    match PreFixItInstance with
    | None => Ok (true, W2)
    | Some Pre =>
        if negb (hasASTContext E Pre W2) || hadError E Pre W2 then Ok (true, W2)
        else migrateAndEmit {| StartInstance := Pre;
                               StartInvocation := StartInvocation M1;
                               States := States M1 |} W2
    end
  else migrateAndEmit M W1.

End WithExternals.

End Migrator.

(** * The vocabulary of further properties *)

(** ** The walker over a whole function *)

(** The instructions of the blocks, in the order the walker visits them. *)
Definition functionInsts (RPO : list SILBasicBlock) : list SILInstruction :=
  concat (Insts <$> RPO).

Definition beginAccessesOf (Is : list SILInstruction) : list BeginAccessInst :=
  omap (fun Ins => match Ins with IBeginAccess BAI => Some BAI | _ => None end) Is.

Definition appliesOf (Is : list SILInstruction) : list ApplyInst :=
  omap (fun Ins => match Ins with IApply AI => Some AI | _ => None end) Is.

(** The conflicts one instruction appends, in a state with the storage
    map [M]. *)
Definition conflictsOfStep (Ins : SILInstruction) (M : StorageMap)
    : list ConflictingAccess :=
  match Ins with
  | IBeginAccess BAI =>
      match findAccessedStorage (getSource BAI) with
      | Ok Storage =>
          newConflicts (lookupOrDefault M (storageKey Storage)) Storage BAI
      | Abort _ => []
      end
  | _ => []
  end.

(** The markers of [Ins] on the storage with key [K] are reads. *)
Definition readsOnly (K : StorageKey) (Ins : SILInstruction) : Prop :=
  match Ins with
  | IBeginAccess BAI => keyOf BAI = Some K -> isRead BAI = true
  | IEndAccess EAI =>
      keyOf (getBeginAccess EAI) = Some K -> isRead (getBeginAccess EAI) = true
  | _ => True
  end.

(** The two diagnostics of one recorded conflict. *)
Definition diagnosticsOfConflict (c : ConflictingAccess) (Pair : list Diagnostic)
    : Prop :=
  exists Main,
    Pair = [Main; noteFor (noteAccess (ca_FirstAccess c) (ca_SecondAccess c))]
    /\ diag_Loc Main
       = loc_SourceLoc (getLoc (mainAccess (ca_FirstAccess c) (ca_SecondAccess c)))
    /\ diag_ID Main <> exclusivity_conflicting_access.

(** A record as the walker keeps it while accesses are in progress. *)
Definition recordInProgress (Info : AccessInfo) : Prop :=
  FirstAccess Info <> None
  /\ hasAccessesInProgress Info = true
  /\ is_unsigned (Reads Info) /\ is_unsigned (NonReads Info).

(** A block in which the access [N] begins and ends while the access [P]
    is in progress. *)
Definition overlappingAccesses (self : Addr) (P N : BeginAccessInst)
    : SILBasicBlock :=
  {| bb_self := self;
     getPredecessorBlocks := [];
     Insts := [IBeginAccess P; IBeginAccess N;
               IEndAccess {| getBeginAccess := N |};
               IEndAccess {| getBeginAccess := P |};
               IReturn] |}.

(** The instructions the walker has gone through when it stands inside a
    block: a prefix of the instructions along a path from the entry. *)
Definition walkedTrace (RPO : list SILBasicBlock) (Entry : Addr)
    (T : list SILInstruction) : Prop :=
  exists P Post, cfgPath RPO Entry P /\ pathInsts P = T ++ Post.

(** Along the instructions [T], the access [N] begins while the access
    [F] is in progress ([Bal] tells which accesses are in progress). *)
Definition overlapAt
    (Bal : list BeginAccessInst -> list SILInstruction ->
           list BeginAccessInst -> Prop)
    (T : list SILInstruction) (F N : BeginAccessInst) : Prop :=
  exists Pre Post Open,
    T = Pre ++ IBeginAccess N :: Post /\ Bal [] Pre Open /\ F ∈ Open.

(** A recorded conflict that is genuine: on some path from the entry its
    new access begins while its prior access is in progress, both resolve
    to the recorded storage, and they are not both reads. *)
Definition genuineConflict (RPO : list SILBasicBlock) (Entry : Addr)
    (c : ConflictingAccess) : Prop :=
  (exists P, cfgPath RPO Entry P
             /\ overlapAt nested (pathInsts P) (ca_FirstAccess c)
                          (ca_SecondAccess c))
  /\ keyOf (ca_FirstAccess c) = Some (storageKey (ca_Storage c))
  /\ keyOf (ca_SecondAccess c) = Some (storageKey (ca_Storage c))
  /\ notBothReads c.

(** Every conflicting overlap along [T] has a recorded conflict on its
    storage. *)
Definition overlapsReported (T : list SILInstruction)
    (L : list ConflictingAccess) : Prop :=
  forall F N K,
    overlapAt balanced T F N ->
    keyOf F = Some K -> keyOf N = Some K ->
    isRead F && isRead N = false ->
    exists c, c ∈ L /\ storageKey (ca_Storage c) = K.

(** Every record that already had a conflict has a recorded conflict on
    its storage. *)
Definition hadConflictReported (M : StorageMap) (L : list ConflictingAccess)
    : Prop :=
  forall K Info,
    M !! K = Some Info -> alreadyHadConflict Info = true ->
    exists c, c ∈ L /\ storageKey (ca_Storage c) = K.

(** ** The resolver and the declarations *)

(** The producer the resolver ends at: the value itself, or the root of
    the first operand of a producer it looks through. *)
Fixpoint rootOf (V : SILValue) : SILValue :=
  match V with
  | Inst1 _ K Operand0 => if isLookThrough K then rootOf Operand0 else V
  | _ => V
  end.

(** The roots the resolver accepts. *)
Definition isRecognizedRoot (V : SILValue) : bool :=
  match V with
  | GlobalAddr _ _ | RefElementAddr _ _ _ _
  | AllocBox _ _ | FunctionArgument _ _ => true
  | Inst0 _ K | Inst1 _ K _ => isBaseProducer K
  end.

Definition isBeginBorrow (V : SILValue) : bool :=
  match V with
  | Inst1 _ ValueKind.BeginBorrowInst _ => true
  | _ => false
  end.

(** The declaration a diagnostic can name for an access to the address
    [V]: that of the global, of the class field, of the box or of the
    function argument at the root of [V]. *)
Definition declOfRoot (V : SILValue) : option ValueDecl :=
  match rootOf V with
  | GlobalAddr _ G => gv_Decl G
  | RefElementAddr _ _ _ Field => Field
  | AllocBox _ d => d
  | FunctionArgument _ d => d
  | _ => None
  end.

(** ** The migrator *)

(** The results of the prints of [dumpStates], one for each state, from
    the index [i] on. *)
Fixpoint printResults (E : Migrator.Externals)
    (Rest : list (Migrator.MigrationState E)) (i : N) (OutDir : string)
    (W : Migrator.World E) : list bool :=
  match Rest with
  | [] => []
  | State :: Rest' =>
      let (PrintFailed, W1) := Migrator.print E State i OutDir W in
      PrintFailed :: printResults E Rest' (i + 1)%N OutDir W1
  end.

(** The states a fix-it pass has changed the text in. *)
Definition changesOccurred (E : Migrator.Externals)
    (State : Migrator.MigrationState E) : Prop :=
  Migrator.noChangesOccurred E State = false.

(** A state pushed by a fix-it pass. *)
Definition isFixitState (E : Migrator.Externals)
    (State : Migrator.MigrationState E) : Prop :=
  exists InputBufferID OutputBufferID,
    State = Migrator.MigrationState_make E Migrator.CompilerFixits
              InputBufferID OutputBufferID.

(** ** The language mode *)

(** The context with [LangOpts.isSwiftVersion3()] set to [b]. *)
Definition withSwiftVersion3 (b : bool) (Ctx : ASTContext) : ASTContext :=
  {| extractText := extractText Ctx;
     getSwap := getSwap Ctx;
     getMutableCollectionDecl := getMutableCollectionDecl Ctx;
     isSwiftVersion3 := b |}.

Definition inLanguageMode (b : bool) (Fn : SILFunction) : SILFunction :=
  {| Blocks := Blocks Fn;
     getASTContext := withSwiftVersion3 b (getASTContext Fn) |}.

(** The diagnostic of the Swift 3 mode for a diagnostic of the other
    modes. *)
Definition swift3ID (ID : DiagID) : DiagID :=
  match ID with
  | exclusivity_access_required => exclusivity_access_required_swift3
  | exclusivity_access_required_unknown_decl =>
      exclusivity_access_required_unknown_decl_swift3
  | _ => ID
  end.

Definition asSwift3 (D : Diagnostic) : Diagnostic :=
  {| diag_Loc := diag_Loc D;
     diag_ID := swift3ID (diag_ID D);
     diag_Args := diag_Args D;
     diag_Highlight := diag_Highlight D;
     diag_FixIt := diag_FixIt D |}.

(** * Further examples *)

(** ** A migration of a file with one fix-it

    The compiler of this example finds one error in the text [old], with
    a fix-it that turns the text into [new], and none in any other text;
    the syntactic passes change nothing; files and prints never fail. *)

Module MigratorExample.

Definition buffers : Type := list Migrator.MemoryBuffer.

Definition textOf (ID : N) (W : buffers) : string :=
  match W !! N.to_nat ID with
  | Some B => Migrator.getBuffer B
  | None => EmptyString
  end.

Definition primaryText (Inv : Migrator.CompilerInvocation) : string :=
  match last (Migrator.InputBuffers (Migrator.getFrontendOptions Inv)) with
  | Some B => Migrator.getBuffer B
  | None => EmptyString
  end.

Definition withInputs (Names : list string) (Buffers : list Migrator.MemoryBuffer)
    (Inv : Migrator.CompilerInvocation) : Migrator.CompilerInvocation :=
  {| Migrator.getLangOptions := Migrator.getLangOptions Inv;
     Migrator.getFrontendOptions :=
       {| Migrator.InputFilenames := Names;
          Migrator.InputBuffers := Buffers;
          Migrator.PrimaryInput :=
            Migrator.PrimaryInput (Migrator.getFrontendOptions Inv) |};
     Migrator.getMigratorOptions := Migrator.getMigratorOptions Inv |}.

Definition externals : Migrator.Externals :=
  {| Migrator.World := buffers;
     Migrator.CompilerInstance := bool;
     Migrator.MigrationState := option Migrator.MigrationKind * N * N;
     Migrator.SourceFile := unit;
     Migrator.Editor := unit;
     Migrator.raw_fd_ostream := bool;
     Migrator.MaxCompilerFixitPassIterations := 7%N;
     Migrator.getFile := fun Name _ =>
       Some {| Migrator.getBuffer := "old";
               Migrator.getBufferIdentifier := Name |};
     Migrator.addNewSourceBuffer := fun B W => (N.of_nat (length W), W ++ [B]);
     Migrator.addMemBufferCopy := fun Text W =>
       (N.of_nat (length W),
        W ++ [{| Migrator.getBuffer := Text;
                 Migrator.getBufferIdentifier := EmptyString |}]);
     Migrator.MigrationState_start := fun ID => (None, ID, ID);
     Migrator.MigrationState_make := fun K In Out => (Some K, In, Out);
     Migrator.getInputBufferID := fun S => snd (fst S);
     Migrator.getOutputBufferID := fun S => snd S;
     Migrator.getOutputText := fun S W => textOf (snd S) W;
     Migrator.noChangesOccurred := fun S => N.eqb (snd (fst S)) (snd S);
     Migrator.print := fun _ _ _ W => (false, W);
     Migrator.clearInputs := withInputs [] [];
     Migrator.addInputBuffer := fun B Inv =>
       withInputs (Migrator.InputFilenames (Migrator.getFrontendOptions Inv))
                  (Migrator.InputBuffers (Migrator.getFrontendOptions Inv) ++ [B])
                  Inv;
     Migrator.addInputFilename := fun Name Inv =>
       withInputs (Migrator.InputFilenames (Migrator.getFrontendOptions Inv) ++ [Name])
                  (Migrator.InputBuffers (Migrator.getFrontendOptions Inv))
                  Inv;
     Migrator.setup := fun Inv W => (Some (String.eqb (primaryText Inv) "old"), W);
     Migrator.performSema := fun _ Text _ W =>
       if String.eqb Text "old" then ((1%N, "new"), W) else ((0%N, Text), W);
     Migrator.hasASTContext := fun _ _ => true;
     Migrator.hadError := fun Instance _ => Instance;
     Migrator.getPrimarySourceFile := fun _ _ => Some tt;
     Migrator.getBufferID := fun _ => Some 0%N;
     Migrator.newEditor := fun _ _ => tt;
     Migrator.runAPIDiffMigratorPass := fun _ _ Ed => Ed;
     Migrator.runTupleSplatMigratorPass := fun _ _ Ed => Ed;
     Migrator.runTypeOfMigratorPass := fun _ _ Ed => Ed;
     Migrator.applyRewrites := fun _ _ Text => Text;
     Migrator.openFile := fun _ W => (false, W);
     Migrator.has_error := fun OS => OS;
     Migrator.write := fun _ OS => OS;
     Migrator.flush := fun OS => OS;
     Migrator.closeFile := fun _ W => W |}.

Definition invocation : Migrator.CompilerInvocation :=
  {| Migrator.getLangOptions :=
       {| Migrator.EffectiveLanguageVersion := [3%N];
          Migrator.EnableSwift3ObjCInference := false;
          Migrator.WarnSwift3ObjCInference := Migrator.None_ |};
     Migrator.getFrontendOptions :=
       {| Migrator.InputFilenames := ["main.swift"];
          Migrator.InputBuffers := [];
          Migrator.PrimaryInput :=
            Some {| Migrator.Index := 0%N; Migrator.Kind := Migrator.Filename |} |};
     Migrator.getMigratorOptions :=
       {| Migrator.EnableMigratorFixits := true;
          Migrator.KeepObjcVisibility := false;
          Migrator.EmitMigratedFilePath := "out.swift";
          Migrator.DumpMigrationStatesDir := "states" |} |}.

(** The migrator on the file with the text [old]. *)
Definition migrator : Migrator.Migrator externals :=
  Migrator.Build_Migrator externals true invocation [(None, 0%N, 0%N)].

Definition world : buffers :=
  [{| Migrator.getBuffer := "old"; Migrator.getBufferIdentifier := "main.swift" |}].

(** A hash of projections by the number of the field. *)
Definition hashes : HashFunctions :=
  {| hashSILValue := Z.of_N;
     hashPointer := Z.of_N;
     hash_combine := fun a P => Z.of_N a + Z.of_N (proj_Index P) |}.

End MigratorExample.

(** * Properties *)

(** ** Basic facts *)

Lemma bindR_Ok {A B} (r : Result A) (k : A -> Result B) (b : B) :
  bindR r k = Ok b -> exists a, r = Ok a /\ k a = Ok b.
Proof. destruct r as [a|f]; simpl; [eauto | discriminate]. Qed.

Lemma assertR_Ok (b : bool) (msg : string) (u : unit) :
  assertR b msg = Ok u -> b = true.
Proof. destruct b; [reflexivity | discriminate]. Qed.

Lemma SILAccessKind_eq_spec (a b : SILAccessKind) :
  SILAccessKind_eq a b = true <-> a = b.
Proof. destruct a, b; simpl; split; congruence. Qed.

Lemma SILAccessKind_eq_false (a b : SILAccessKind) :
  SILAccessKind_eq a b = false <-> a <> b.
Proof. destruct a, b; simpl; split; congruence. Qed.

Lemma AccessedStorageKind_eq_spec (a b : AccessedStorageKind) :
  AccessedStorageKind_eq a b = true <-> a = b.
Proof. destruct a, b; simpl; split; congruence. Qed.

(** [isEqual] compares exactly the key of the storage map. *)
Lemma isEqual_storageKey (LHS RHS : AccessedStorage) :
  isEqual LHS RHS = true <-> storageKey LHS = storageKey RHS.
Proof.
  destruct LHS as [V1|G1|[O1 P1]], RHS as [V2|G2|[O2 P2]];
    unfold isEqual, ObjectProjection_eq, Projection_eq, SILValue_eq; simpl;
    rewrite ?andb_true_iff, ?N.eqb_eq; split; intros H;
    try discriminate; try congruence.
  - destruct H as [HO HP]. rewrite HO, HP. reflexivity.
  - inversion H. split; reflexivity || assumption.
Qed.

Lemma uinc_small (n : Z) : 0 <= n -> n + 1 < UINT_MOD -> uinc n = n + 1.
Proof. intros ? ?. unfold uinc. apply Z.mod_small. lia. Qed.

Lemma udec_pos (n : Z) : 0 < n -> n < UINT_MOD -> udec n = n - 1.
Proof. intros ? ?. unfold udec. apply Z.mod_small. lia. Qed.

Lemma UINT_MOD_pos : 0 < UINT_MOD.
Proof. reflexivity. Qed.

Lemma uinc_range (n : Z) : is_unsigned (uinc n).
Proof. unfold uinc, is_unsigned. apply Z.mod_pos_bound. apply UINT_MOD_pos. Qed.

Lemma udec_range (n : Z) : is_unsigned (udec n).
Proof. unfold udec, is_unsigned. apply Z.mod_pos_bound. apply UINT_MOD_pos. Qed.

(** ** Conflict test *)

Lemma lookupOrDefault_noNonReads (M : StorageMap) (K : StorageKey) :
  noNonReads M -> NonReads (lookupOrDefault M K) = 0.
Proof.
  intros HM. unfold lookupOrDefault.
  destruct (M !! K) as [Info|] eqn:E; simpl; [eauto | reflexivity].
Qed.

Lemma conflictsWithAccess_Read (Info : AccessInfo) :
  conflictsWithAccess Info Read = (0 <? NonReads Info).
Proof. reflexivity. Qed.

Lemma transfer_readOnly (Ctx : ASTContext) (Ins : SILInstruction)
    (St St' : WalkState) :
  readOnly Ins -> noNonReads (Accesses St) -> transfer Ctx Ins St = Ok St' ->
  noNonReads (Accesses St') /\ ConflictingAccesses St' = ConflictingAccesses St.
Proof.
  intros HR HM HT. destruct Ins as [BAI|EAI| AI | |]; simpl in *.
  - unfold transferBeginAccess in HT.
    apply bindR_Ok in HT as (S & HS & HT). cbv beta zeta in HT.
    pose proof (lookupOrDefault_noNonReads (Accesses St) (storageKey S) HM) as H0.
    rewrite HR, conflictsWithAccess_Read, H0 in HT. simpl in HT.
    apply bindR_Ok in HT as (Info' & HB & HT). inversion HT; subst; clear HT.
    simpl. split; [|reflexivity].
    unfold beginAccess in HB. apply bindR_Ok in HB as (F & _ & HB).
    rewrite HR in HB. simpl in HB. inversion HB; subst; clear HB.
    intros K Info HK. destruct (decide (storageKey S = K)) as [HKe|Hne]; [subst K|].
    + rewrite lookup_insert_eq in HK. inversion HK; subst. exact H0.
    + rewrite lookup_insert_ne in HK by done. eauto.
  - unfold transferEndAccess in HT.
    apply bindR_Ok in HT as (S & HS & HT). cbv beta zeta in HT.
    destruct (Accesses St !! storageKey S) as [Info|] eqn:E; [|discriminate].
    inversion HT; subst; clear HT. simpl. split; [|reflexivity].
    assert (HN : NonReads (endAccess Info EAI) = 0).
    { unfold endAccess. rewrite HR. simpl. eauto. }
    intros K Info' HK.
    destruct (negb (hasAccessesInProgress (endAccess Info EAI))).
    + apply lookup_delete_Some in HK as [_ HK]. eauto.
    + destruct (decide (storageKey S = K)) as [HKe|Hne]; [subst K|].
      * rewrite lookup_insert_eq in HK. congruence.
      * rewrite lookup_insert_ne in HK by done. eauto.
  - inversion HT; subst; simpl. auto.
  - destruct (bool_decide _); inversion HT; subst; auto.
  - inversion HT; subst; auto.
Qed.

Lemma transferInsts_readOnly (Ctx : ASTContext) (Is : list SILInstruction) :
  forall St St',
    Forall readOnly Is -> noNonReads (Accesses St) ->
    transferInsts Ctx Is St = Ok St' ->
    noNonReads (Accesses St') /\ ConflictingAccesses St' = ConflictingAccesses St.
Proof.
  induction Is as [|Ins Is IH]; intros St St' HF HM HT; simpl in HT.
  - inversion HT; subst; auto.
  - apply bindR_Ok in HT as (St1 & H1 & HT).
    inversion HF as [|? ? HR HF']; subst.
    destruct (transfer_readOnly Ctx Ins St St1 HR HM H1) as [HM1 HC1].
    destruct (IH St1 St' HF' HM1 HT) as [HM' HC'].
    split; [exact HM' | congruence].
Qed.

(** C1. The conflict test on a begin-access of kind [Kind] against the
    record of the location, before the new access is counted: a read
    conflicts iff [NonReads > 0]; a write-like access (any kind other
    than read) conflicts iff [NonReads > 0] or [Reads > 0].  In
    particular overlapping reads never produce a conflict: a run of the
    instruction loop in which only reads are opened and closed, from a
    state with no write-like access in progress, records no conflict. *)
Theorem conflictsWithAccess_spec :
  (forall (Info : AccessInfo) (Kind : SILAccessKind),
      conflictsWithAccess Info Kind = true <->
      match Kind with
      | Read => 0 < NonReads Info
      | _ => 0 < NonReads Info \/ 0 < Reads Info
      end)
  /\
  (forall (Ctx : ASTContext) (Is : list SILInstruction) (St St' : WalkState),
      Forall readOnly Is -> noNonReads (Accesses St) ->
      transferInsts Ctx Is St = Ok St' ->
      ConflictingAccesses St' = ConflictingAccesses St).
Proof.
  split.
  - intros Info Kind. unfold conflictsWithAccess.
    destruct Kind; simpl; rewrite ?orb_true_iff, ?Z.ltb_lt; reflexivity.
  - intros Ctx Is St St' HF HM HT.
    apply (transferInsts_readOnly Ctx Is St St' HF HM HT).
Qed.

(** ** Storage identity *)

Lemma sameStorage_storageKey (L R : AccessedStorage) :
  sameStorage L R <-> storageKey L = storageKey R.
Proof.
  destruct L as [V1|G1|[O1 P1]], R as [V2|G2|[O2 P2]]; simpl;
    split; intros H; try contradiction; try discriminate; try congruence.
  - destruct H as [HO HP]. rewrite HO, HP. reflexivity.
  - inversion H. split; reflexivity || assumption.
Qed.

Lemma isEqual_false_iff (L R : AccessedStorage) :
  isEqual L R = false <-> storageKey L <> storageKey R.
Proof.
  rewrite <- isEqual_storageKey. destruct (isEqual L R); split; congruence.
Qed.

(** C3. Equality of storage identities never merges falsely: identities
    of different variants are unequal; value identities keyed on
    distinct defining values are unequal; global identities keyed on
    distinct globals are unequal; and two identities that compare equal
    name the same storage. *)
Theorem isEqual_no_false_merge :
  forall L R : AccessedStorage,
    (getKind L <> getKind R -> isEqual L R = false)
    /\ (forall V1 V2, L = OfValue V1 -> R = OfValue V2 ->
                      addrOf V1 <> addrOf V2 -> isEqual L R = false)
    /\ (forall G1 G2, L = OfGlobal G1 -> R = OfGlobal G2 ->
                      gv_self G1 <> gv_self G2 -> isEqual L R = false)
    /\ (isEqual L R = true -> sameStorage L R).
Proof.
  intros L R. repeat split.
  - intros HK. apply isEqual_false_iff.
    destruct L, R; simpl in *; congruence.
  - intros V1 V2 -> -> HV. apply isEqual_false_iff. simpl. congruence.
  - intros G1 G2 -> -> HG. apply isEqual_false_iff. simpl. congruence.
  - intros HE. apply sameStorage_storageKey, isEqual_storageKey, HE.
Qed.

(** ** The resolver faults on unrecognised producers *)

Lemma findAccessedStorage_unrecognized (V P : SILValue) :
  P ∈ producerChain V -> isRecognizedProducer P = false ->
  findAccessedStorage V = Abort unexpected_access_source.
Proof.
  induction V as [p G|p Op IH n F|p d|p d|p K|p K Op IH]; simpl;
    intros HIn HP.
  - apply list_elem_of_singleton in HIn. subst P. discriminate.
  - apply list_elem_of_singleton in HIn. subst P. discriminate.
  - apply list_elem_of_singleton in HIn. subst P. discriminate.
  - apply list_elem_of_singleton in HIn. subst P. discriminate.
  - apply list_elem_of_singleton in HIn. subst P. simpl in HP.
    apply orb_false_iff in HP as [-> ->]. reflexivity.
  - destruct (isLookThrough K) eqn:EK.
    + apply elem_of_cons in HIn as [->|HIn].
      * simpl in HP. rewrite EK in HP. discriminate.
      * apply IH; assumption.
    + apply list_elem_of_singleton in HIn. subst P. simpl in HP.
      rewrite EK in HP. simpl in HP. rewrite HP. reflexivity.
Qed.

Lemma transferInsts_app (Ctx : ASTContext) (Pre Post : list SILInstruction) :
  forall St,
    transferInsts Ctx (Pre ++ Post) St =
    let! St1 := transferInsts Ctx Pre St in transferInsts Ctx Post St1.
Proof.
  induction Pre as [|Ins Pre IH]; intros St; simpl; [reflexivity|].
  destruct (transfer Ctx Ins St) as [St1|f]; simpl; [apply IH | reflexivity].
Qed.

(** An instruction on which the loop body stops in every state stops the
    loop over any block that holds it. *)
Lemma transferInsts_stops (Ctx : ASTContext) (Ins : SILInstruction)
    (Is : list SILInstruction) :
  Ins ∈ Is ->
  (forall St, exists f, transfer Ctx Ins St = Abort f) ->
  forall St, exists f, transferInsts Ctx Is St = Abort f.
Proof.
  intros HIn HStop. induction Is as [|J Is IH]; intros St.
  - inversion HIn.
  - simpl. destruct (transfer Ctx J St) as [St1|f] eqn:EJ; simpl; [|eauto].
    apply elem_of_cons in HIn as [->|HIn].
    + destruct (HStop St) as [f Hf]. congruence.
    + apply IH, HIn.
Qed.

Lemma visitBlock_stops (Ctx : ASTContext) (Ins : SILInstruction)
    (BB : SILBasicBlock) :
  Ins ∈ Insts BB ->
  (forall St, exists f, transfer Ctx Ins St = Abort f) ->
  forall FnSt, exists f, visitBlock Ctx BB FnSt = Abort f.
Proof.
  intros HIn HStop FnSt. unfold visitBlock.
  destruct (predecessorState _ _ _) as [M|]; [|eauto].
  destruct (transferInsts_stops Ctx Ins (Insts BB) HIn HStop
              {| Accesses := M;
                 ConflictingAccesses := fs_ConflictingAccesses FnSt;
                 CallsToSwap := fs_CallsToSwap FnSt |}) as [f Hf].
  rewrite Hf. simpl. eauto.
Qed.

Lemma visitBlocks_stops (Ctx : ASTContext) (Ins : SILInstruction)
    (BB : SILBasicBlock) (RPO : list SILBasicBlock) :
  BB ∈ RPO -> Ins ∈ Insts BB ->
  (forall St, exists f, transfer Ctx Ins St = Abort f) ->
  forall FnSt, exists f, visitBlocks Ctx RPO FnSt = Abort f.
Proof.
  intros HBB HIn HStop. induction RPO as [|B RPO IH]; intros FnSt.
  - inversion HBB.
  - simpl. destruct (visitBlock Ctx B FnSt) as [FnSt1|f] eqn:EB; simpl; [|eauto].
    apply elem_of_cons in HBB as [->|HBB].
    + destruct (visitBlock_stops Ctx Ins B HIn HStop FnSt) as [f Hf]. congruence.
    + apply IH, HBB.
Qed.

(** C7. An address whose producer chain holds a producer outside the
    allow-list (such as [init_enum_data_addr], [init_existential_addr]
    or [open_existential_addr]) makes the resolver stop with the internal
    [llvm_unreachable] fault; no storage identity is returned, and a
    function with a begin-access of such an address in a visited block
    yields a fault and no diagnostics. *)
Theorem findAccessedStorage_faults_outside_allow_list :
  forall (V P : SILValue),
    P ∈ producerChain V -> isRecognizedProducer P = false ->
    findAccessedStorage V = Abort unexpected_access_source
    /\ isInternalError unexpected_access_source = true
    /\ (forall S, findAccessedStorage V <> Ok S)
    /\ (forall (Fn : SILFunction) (RPO : list SILBasicBlock)
               (BB : SILBasicBlock) (BAI : BeginAccessInst),
           Blocks Fn <> [] -> BB ∈ RPO -> IBeginAccess BAI ∈ Insts BB ->
           getSource BAI = V ->
           exists f, checkStaticExclusivity Fn RPO = Abort f).
Proof.
  intros V P HIn HP.
  pose proof (findAccessedStorage_unrecognized V P HIn HP) as HV.
  repeat split; [exact HV | congruence |].
  intros Fn RPO BB BAI HFn HBB HI HS.
  unfold checkStaticExclusivity, traverse.
  destruct (Blocks Fn) as [|Entry Rest]; [congruence|].
  destruct (visitBlocks_stops (getASTContext Fn) (IBeginAccess BAI) BB RPO HBB HI)
    with (FnSt := {| BlockOutAccesses := {[bb_self Entry := Some ∅]};
                     fs_ConflictingAccesses := [];
                     fs_CallsToSwap := [] |}) as [f Hf].
  - intros St. simpl. unfold transferBeginAccess. rewrite HS, HV. simpl. eauto.
  - rewrite Hf. simpl. eauto.
Qed.

(** ** Well-formed access markers *)

Lemma countOpen_nil (K : StorageKey) (r : bool) : countOpen K r [] = 0.
Proof. reflexivity. Qed.

Lemma countOpen_cons (K : StorageKey) (r : bool) (b : BeginAccessInst)
    (Open : list BeginAccessInst) :
  countOpen K r (b :: Open) =
  (if decide (keyOf b = Some K /\ isRead b = r) then 1 else 0) + countOpen K r Open.
Proof.
  unfold countOpen. rewrite filter_cons.
  destruct (decide (keyOf b = Some K /\ isRead b = r)); simpl length; lia.
Qed.

Lemma countOpen_app (K : StorageKey) (r : bool) (O1 O2 : list BeginAccessInst) :
  countOpen K r (O1 ++ O2) = countOpen K r O1 + countOpen K r O2.
Proof. unfold countOpen. rewrite filter_app, length_app. lia. Qed.

Lemma countOpen_nonneg (K : StorageKey) (r : bool) (Open : list BeginAccessInst) :
  0 <= countOpen K r Open.
Proof. unfold countOpen. lia. Qed.

Lemma countOpen_both_le (K : StorageKey) (Open : list BeginAccessInst) :
  countOpen K true Open + countOpen K false Open <= Z.of_nat (length Open).
Proof.
  induction Open as [|b Open IH]; [rewrite !countOpen_nil; simpl; lia|].
  rewrite !countOpen_cons. simpl length.
  destruct (decide (keyOf b = Some K /\ isRead b = true)) as [[_ H1]|_];
    destruct (decide (keyOf b = Some K /\ isRead b = false)) as [[_ H2]|_];
    try congruence; lia.
Qed.

Lemma abstracts_nil : abstracts [] ∅.
Proof.
  split; [reflexivity|]. intros K. rewrite lookup_empty.
  rewrite !countOpen_nil. auto.
Qed.

Lemma abstracts_nil_empty (M : StorageMap) : abstracts [] M -> M = ∅.
Proof.
  intros [_ H]. apply map_eq. intros K. rewrite lookup_empty.
  specialize (H K). destruct (M !! K) as [Info|]; [|reflexivity].
  rewrite !countOpen_nil in H. lia.
Qed.

Lemma abstracts_firstAccessInvariant (Open : list BeginAccessInst)
    (M : StorageMap) (K : StorageKey) (Info : AccessInfo) :
  abstracts Open M -> M !! K = Some Info ->
  firstAccessInvariant Info /\ 0 < Reads Info + NonReads Info.
Proof.
  intros [_ H] HK. specialize (H K). rewrite HK in H.
  destruct H as (HR & HN & HF & HP). unfold firstAccessInvariant.
  rewrite HR, HN. tauto.
Qed.

Lemma findAccessedStorage_fault (V : SILValue) (f : Fault) :
  findAccessedStorage V = Abort f -> isResolverFault f.
Proof.
  unfold isResolverFault.
  induction V as [p G|p Op IH n F|p d|p d|p K|p K Op IH]; simpl;
    try discriminate.
  - destruct (isLookThrough K); [intros [= <-]; auto|].
    destruct (isBaseProducer K); [discriminate | intros [= <-]; auto].
  - destruct (isLookThrough K); [exact IH|].
    destruct (isBaseProducer K); [discriminate | intros [= <-]; auto].
Qed.

Lemma keyOf_Ok (BAI : BeginAccessInst) (S : AccessedStorage) :
  findAccessedStorage (getSource BAI) = Ok S -> keyOf BAI = Some (storageKey S).
Proof. unfold keyOf. intros ->. reflexivity. Qed.

(** ** The instruction loop counts the accesses in progress *)

Lemma beginAccess_eq (Info : AccessInfo) (BAI : BeginAccessInst) :
  FirstAccess Info <> None \/ (Reads Info = 0 /\ NonReads Info = 0) ->
  beginAccess Info BAI = Ok (beginCounted Info BAI).
Proof.
  intros H. unfold beginAccess, beginCounted, isRead.
  destruct (FirstAccess Info) as [F|] eqn:EF; simpl.
  - destruct (SILAccessKind_eq _ _); reflexivity.
  - destruct H as [H|[H1 H2]]; [congruence|]. rewrite H1, H2. simpl.
    destruct (SILAccessKind_eq _ _); reflexivity.
Qed.

Lemma beginAccess_Ok_inv (Info Info' : AccessInfo) (BAI : BeginAccessInst) :
  beginAccess Info BAI = Ok Info' -> Info' = beginCounted Info BAI.
Proof.
  unfold beginAccess, beginCounted, isRead. intros H.
  destruct (FirstAccess Info) as [F|] eqn:EF; simpl in *.
  - destruct (SILAccessKind_eq _ _); inversion H; reflexivity.
  - destruct (assertR _ _) as [u|f]; simpl in H; [|discriminate].
    destruct (SILAccessKind_eq _ _); inversion H; reflexivity.
Qed.

Lemma conflictsWithAccess_fresh (Info : AccessInfo) (Kind : SILAccessKind) :
  Reads Info = 0 -> NonReads Info = 0 -> conflictsWithAccess Info Kind = false.
Proof.
  intros HR HN. unfold conflictsWithAccess. rewrite HR, HN.
  destruct (SILAccessKind_eq Kind Read); reflexivity.
Qed.

Lemma transferBeginAccess_eq (BAI : BeginAccessInst) (St : WalkState)
    (Storage : AccessedStorage) :
  findAccessedStorage (getSource BAI) = Ok Storage ->
  let Info := lookupOrDefault (Accesses St) (storageKey Storage) in
  FirstAccess Info <> None \/ (Reads Info = 0 /\ NonReads Info = 0) ->
  transferBeginAccess BAI St =
  Ok {| Accesses := <[storageKey Storage := beginCounted Info BAI]> (Accesses St);
        ConflictingAccesses := ConflictingAccesses St ++ newConflicts Info Storage BAI;
        CallsToSwap := CallsToSwap St |}.
Proof.
  intros HS Info H. unfold transferBeginAccess. rewrite HS. simpl.
  fold Info. rewrite (beginAccess_eq Info BAI H). unfold newConflicts.
  destruct H as [H|[HR HN]].
  - destruct (FirstAccess Info) as [F|]; [|congruence].
    destruct (conflictsWithAccess _ _ && _); simpl; rewrite ?app_nil_r; reflexivity.
  - rewrite (conflictsWithAccess_fresh Info _ HR HN). simpl.
    rewrite app_nil_r. reflexivity.
Qed.

Lemma transferBeginAccess_Ok_inv (BAI : BeginAccessInst) (St St' : WalkState) :
  transferBeginAccess BAI St = Ok St' ->
  exists Storage,
    findAccessedStorage (getSource BAI) = Ok Storage /\
    let Info := lookupOrDefault (Accesses St) (storageKey Storage) in
    St' = {| Accesses := <[storageKey Storage := beginCounted Info BAI]> (Accesses St);
             ConflictingAccesses :=
               ConflictingAccesses St ++ newConflicts Info Storage BAI;
             CallsToSwap := CallsToSwap St |}.
Proof.
  unfold transferBeginAccess. intros H.
  apply bindR_Ok in H as (Storage & HS & H). cbv beta zeta in H.
  exists Storage. split; [exact HS|]. cbv zeta.
  set (Info := lookupOrDefault (Accesses St) (storageKey Storage)) in *.
  apply bindR_Ok in H as (Conflicts & HC & H). cbv beta in H.
  apply bindR_Ok in H as (Info' & HB & H). cbv beta in H.
  apply beginAccess_Ok_inv in HB. subst Info'.
  inversion H; subst; clear H. f_equal. unfold newConflicts.
  destruct (conflictsWithAccess _ _ && _).
  - destruct (FirstAccess Info); [congruence | discriminate].
  - rewrite app_nil_r. congruence.
Qed.

Lemma countOpen_cons_other (K K' : StorageKey) (r : bool) (b : BeginAccessInst)
    (Open : list BeginAccessInst) :
  keyOf b = Some K -> K <> K' ->
  countOpen K' r (b :: Open) = countOpen K' r Open.
Proof.
  intros Hb Hne. rewrite countOpen_cons.
  destruct (decide _) as [[H _]|_]; [congruence | lia].
Qed.

Lemma countOpen_cons_same (K : StorageKey) (r : bool) (b : BeginAccessInst)
    (Open : list BeginAccessInst) :
  keyOf b = Some K ->
  countOpen K r (b :: Open) =
  (if bool_decide (isRead b = r) then 1 else 0) + countOpen K r Open.
Proof.
  intros Hb. rewrite countOpen_cons.
  destruct (decide _) as [[_ H]|H]; case_bool_decide; try lia; tauto.
Qed.

Lemma transfer_begin_abstracts (Ctx : ASTContext) (BAI : BeginAccessInst)
    (Open : list BeginAccessInst) (St : WalkState) :
  Z.of_nat (length Open) + 1 < UINT_MOD ->
  abstracts Open (Accesses St) ->
  match transfer Ctx (IBeginAccess BAI) St with
  | Ok St' => abstracts (BAI :: Open) (Accesses St')
  | Abort f => isResolverFault f /\ ~ resolvable (IBeginAccess BAI)
  end.
Proof.
  intros HLen [HB HA]. simpl.
  destruct (findAccessedStorage (getSource BAI)) as [Storage|f] eqn:HS.
  2:{ unfold transferBeginAccess, keyOf. rewrite HS. simpl.
      split; [eapply findAccessedStorage_fault, HS | tauto]. }
  pose proof (keyOf_Ok BAI Storage HS) as HK.
  set (K := storageKey Storage) in *.
  pose proof (HA K) as HAK.
  pose proof (countOpen_both_le K Open) as HLe.
  pose proof (countOpen_nonneg K true Open) as H0r.
  pose proof (countOpen_nonneg K false Open) as H0n.
  rewrite (transferBeginAccess_eq BAI St Storage HS).
  2:{ unfold lookupOrDefault. fold K. destruct (Accesses St !! K) as [Info|];
      simpl; [left; tauto | right; auto]. }
  simpl. fold K. split; [simpl length; lia|].
  intros K'. destruct (decide (K = K')) as [<-|Hne].
  - rewrite lookup_insert_eq. unfold beginCounted. simpl.
    rewrite !(countOpen_cons_same K _ BAI Open HK).
    unfold lookupOrDefault. destruct (Accesses St !! K) as [Info|]; simpl.
    + destruct HAK as (HR & HN & HF & HP). rewrite HR, HN.
      destruct (isRead BAI); repeat case_bool_decide; try congruence;
        rewrite ?uinc_small by lia; repeat split; (lia || congruence).
    + destruct HAK as (HR & HN). rewrite HR, HN.
      destruct (isRead BAI); repeat case_bool_decide; try congruence;
        rewrite ?uinc_small by lia; repeat split; (lia || congruence).
  - rewrite lookup_insert_ne by done.
    rewrite !(countOpen_cons_other K K' _ BAI Open HK Hne). apply HA.
Qed.

Lemma hasAccessesInProgress_false (Info : AccessInfo) :
  0 <= Reads Info -> 0 <= NonReads Info ->
  hasAccessesInProgress Info = false <-> Reads Info = 0 /\ NonReads Info = 0.
Proof.
  intros HR HN. unfold hasAccessesInProgress.
  rewrite orb_false_iff, !Z.ltb_ge. lia.
Qed.

Lemma transfer_end_abstracts (Ctx : ASTContext) (EAI : EndAccessInst)
    (Open1 Open2 : list BeginAccessInst) (St : WalkState) :
  abstracts (Open1 ++ getBeginAccess EAI :: Open2) (Accesses St) ->
  match transfer Ctx (IEndAccess EAI) St with
  | Ok St' => abstracts (Open1 ++ Open2) (Accesses St')
  | Abort f => isResolverFault f /\ ~ resolvable (IEndAccess EAI)
  end.
Proof.
  intros [HB HA]. simpl.
  unfold transferEndAccess, EndAccessInst_getSource, keyOf.
  set (b := getBeginAccess EAI) in *.
  destruct (findAccessedStorage (getSource b)) as [Storage|f] eqn:HS; simpl.
  2:{ split; [eapply findAccessedStorage_fault, HS | tauto]. }
  fold (keyOf b).
  pose proof (keyOf_Ok b Storage HS) as HK.
  set (K := storageKey Storage) in *.
  rewrite length_app in HB. simpl length in HB.
  assert (HLen : Z.of_nat (length (Open1 ++ Open2)) + 1 < UINT_MOD)
    by (rewrite length_app; lia).
  assert (HCount : forall K' r,
    countOpen K' r (Open1 ++ b :: Open2) =
    countOpen K' r (Open1 ++ Open2)
    + (if decide (keyOf b = Some K' /\ isRead b = r) then 1 else 0)).
  { intros K' r. rewrite !countOpen_app, countOpen_cons. lia. }
  pose proof (HA K) as HAK. rewrite !HCount in HAK.
  pose proof (countOpen_both_le K (Open1 ++ Open2)) as HLe.
  pose proof (countOpen_nonneg K true (Open1 ++ Open2)) as H0r.
  pose proof (countOpen_nonneg K false (Open1 ++ Open2)) as H0n.
  destruct (Accesses St !! K) as [Info|] eqn:EK.
  2:{ exfalso. destruct HAK as [H1 H2].
      destruct (isRead b) eqn:Eb; repeat destruct (decide _); try lia; tauto. }
  destruct HAK as (HR & HN & HF & HP).
  assert (HR' : Reads (endAccess Info EAI) = countOpen K true (Open1 ++ Open2)
                /\ NonReads (endAccess Info EAI) = countOpen K false (Open1 ++ Open2)).
  { unfold endAccess. fold b. fold (isRead b). simpl. rewrite HR, HN.
    destruct (isRead b) eqn:Eb; repeat destruct (decide _);
      rewrite ?udec_pos by lia; try tauto; split; lia. }
  destruct HR' as [HR' HN'].
  assert (HF' : hasAccessesInProgress (endAccess Info EAI) = true ->
                FirstAccess (endAccess Info EAI) <> None).
  { unfold hasAccessesInProgress. rewrite HR', HN'. intros Hh.
    unfold endAccess at 1. simpl. fold b.
    change (if SILAccessKind_eq (getAccessKind b) Read
            then udec (Reads Info) else Reads Info)
      with (Reads (endAccess Info EAI)).
    change (if SILAccessKind_eq (getAccessKind b) Read
            then NonReads Info else udec (NonReads Info))
      with (NonReads (endAccess Info EAI)).
    rewrite HR', HN'. apply orb_true_iff in Hh. rewrite !Z.ltb_lt in Hh.
    destruct (Z.eqb_spec (countOpen K true (Open1 ++ Open2)) 0);
      destruct (Z.eqb_spec (countOpen K false (Open1 ++ Open2)) 0);
      simpl; try exact HF; lia. }
  assert (HOther : forall K' r, K <> K' ->
    (if decide (keyOf b = Some K' /\ isRead b = r) then 1 else 0) = 0).
  { intros K' r Hne.
    destruct (decide (keyOf b = Some K' /\ isRead b = r)) as [[Hk _]|_]; [|reflexivity].
    rewrite HK in Hk. inversion Hk. contradiction. }
  split; [lia|]. simpl. intros K'.
  destruct (hasAccessesInProgress (endAccess Info EAI)) eqn:Eh; simpl.
  - destruct (decide (K = K')) as [<-|Hne].
    + rewrite lookup_insert_eq. repeat split; try assumption; [auto|].
      unfold hasAccessesInProgress in Eh. apply orb_true_iff in Eh.
      rewrite !Z.ltb_lt in Eh. lia.
    + rewrite lookup_insert_ne by done.
      specialize (HA K'). rewrite !HCount, !(HOther K' _ Hne), !Z.add_0_r in HA.
      exact HA.
  - apply hasAccessesInProgress_false in Eh; [|lia|lia].
    destruct (decide (K = K')) as [<-|Hne].
    + rewrite lookup_delete_eq. lia.
    + rewrite lookup_delete_ne by done.
      specialize (HA K'). rewrite !HCount, !(HOther K' _ Hne), !Z.add_0_r in HA.
      exact HA.
Qed.

Lemma transfer_return_abstracts (Ctx : ASTContext) (St : WalkState) :
  abstracts [] (Accesses St) -> transfer Ctx IReturn St = Ok St.
Proof.
  intros H. simpl. rewrite (abstracts_nil_empty _ H).
  rewrite bool_decide_eq_true_2; [reflexivity | apply map_size_empty].
Qed.

Lemma resolverStops_cons {A} (Ins : SILInstruction) (Is : list SILInstruction)
    (r : Result A) (P : A -> Prop) :
  match r with Ok a => P a | Abort f => resolverStops Is f end ->
  match r with Ok a => P a | Abort f => resolverStops (Ins :: Is) f end.
Proof.
  destruct r as [a|f]; [auto|]. intros [Hf (J & HJ & Hr)].
  split; [exact Hf|]. exists J. split; [apply list_elem_of_further, HJ | exact Hr].
Qed.

(** The instruction loop over balanced instructions keeps the storage map
    in step with the accesses in progress; it stops only if the resolver
    does. *)
Lemma transferInsts_abstracts (Ctx : ASTContext) (Is : list SILInstruction)
    (Open Open' : list BeginAccessInst) :
  balanced Open Is Open' ->
  forall St, abstracts Open (Accesses St) ->
  match transferInsts Ctx Is St with
  | Ok St' => abstracts Open' (Accesses St')
  | Abort f => resolverStops Is f
  end.
Proof.
  induction 1 as [Open|Open BAI Is Open' HLen HBal IH
                 |Open1 Open2 EAI Is Open' HBal IH
                 |Open AI Is Open' HBal IH
                 |Is Open' HBal IH
                 |Open Is Open' HBal IH]; intros St HA.
  - exact HA.
  - cbn [transferInsts].
    pose proof (transfer_begin_abstracts Ctx BAI Open St HLen HA) as HT.
    destruct (transfer Ctx (IBeginAccess BAI) St) as [St1|f]; simpl.
    + apply resolverStops_cons, IH, HT.
    + destruct HT as [Hf Hr]. split; [exact Hf|].
      eexists. split; [apply list_elem_of_here | exact Hr].
  - cbn [transferInsts].
    pose proof (transfer_end_abstracts Ctx EAI Open1 Open2 St HA) as HT.
    destruct (transfer Ctx (IEndAccess EAI) St) as [St1|f]; simpl.
    + apply resolverStops_cons, IH, HT.
    + destruct HT as [Hf Hr]. split; [exact Hf|].
      eexists. split; [apply list_elem_of_here | exact Hr].
  - cbn [transferInsts]. simpl. apply resolverStops_cons, IH, HA.
  - cbn [transferInsts]. rewrite (transfer_return_abstracts Ctx St HA). simpl.
    apply resolverStops_cons, IH, HA.
  - cbn [transferInsts]. simpl. apply resolverStops_cons, IH, HA.
Qed.

(** ** The loop over the blocks follows paths of the graph *)

Lemma pathInsts_cons (B : SILBasicBlock) (P : list SILBasicBlock) :
  pathInsts (B :: P) = pathInsts P ++ Insts B.
Proof.
  unfold pathInsts. rewrite reverse_cons, fmap_app, concat_app. simpl.
  rewrite app_nil_r. reflexivity.
Qed.

Lemma balanced_app_inv (Is1 Is2 : list SILInstruction) :
  forall Open Open2,
    balanced Open (Is1 ++ Is2) Open2 ->
    exists Open1, balanced Open Is1 Open1 /\ balanced Open1 Is2 Open2.
Proof.
  induction Is1 as [|Ins Is1 IH]; intros Open Open2 H; simpl in H.
  - exists Open. split; [constructor | exact H].
  - inversion H; subst;
      match goal with
      | Hb : balanced _ (Is1 ++ Is2) _ |- _ =>
          destruct (IH _ _ Hb) as (OpenM & HM1 & HM2)
      end;
      exists OpenM; (split; [constructor; assumption | exact HM2]).
Qed.

Lemma balanced_nil_inv (Open Open' : list BeginAccessInst) :
  balanced Open [] Open' -> Open' = Open.
Proof. inversion 1; reflexivity. Qed.

Lemma predecessorState_Some (Out : gmap Addr (option StorageMap))
    (Preds : list Addr) (d : option StorageMap) (M : StorageMap) :
  predecessorState Out Preds d = Some M ->
  (exists p, p ∈ Preds /\ Out !! p = Some (Some M)) \/ d = Some M.
Proof.
  induction Preds as [|p Preds IH]; simpl; intros H; [auto|].
  destruct (Out !! p) as [[Mp|]|] eqn:Ep.
  - inversion H; subst. left. exists p. split; [apply list_elem_of_here | exact Ep].
  - destruct (IH H) as [(q & Hq & HM)|Hd]; [|auto].
    left. exists q. split; [apply list_elem_of_further, Hq | exact HM].
  - destruct (IH H) as [(q & Hq & HM)|Hd]; [|auto].
    left. exists q. split; [apply list_elem_of_further, Hq | exact HM].
Qed.

Lemma predecessorState_found (Out : gmap Addr (option StorageMap))
    (Preds : list Addr) (d : option StorageMap) (p : Addr) (M : StorageMap) :
  p ∈ Preds -> Out !! p = Some (Some M) ->
  predecessorState Out Preds d <> None.
Proof.
  induction Preds as [|q Preds IH]; intros Hp HM; [inversion Hp|]. simpl.
  destruct (Out !! q) as [[Mq|]|] eqn:Eq; [discriminate| |];
    (apply elem_of_cons in Hp as [->|Hp]; [congruence | apply IH; assumption]).
Qed.

Lemma predecessorState_default (Out : gmap Addr (option StorageMap))
    (Preds : list Addr) (M : StorageMap) :
  predecessorState Out Preds (Some M) <> None.
Proof.
  induction Preds as [|p Preds IH]; simpl; [discriminate|].
  destruct (Out !! p) as [[Mp|]|]; [discriminate | exact IH | exact IH].
Qed.

(** The traversal, for any discipline [Bal] of the access markers along
    paths and any relation [Abs] between the accesses in progress and
    the storage map that the instruction loop maintains, together with a
    property [Good] of the recorded conflicts. *)
Section Traversal.

Variable Bal : list BeginAccessInst -> list SILInstruction ->
               list BeginAccessInst -> Prop.
Variable Abs : list BeginAccessInst -> StorageMap -> Prop.
Variable Good : list ConflictingAccess -> Prop.

Hypothesis Abs_nil : Abs [] ∅.
Hypothesis Good_nil : Good [].
Hypothesis Bal_nil_inv : forall Open Open', Bal Open [] Open' -> Open' = Open.
Hypothesis Bal_app_inv :
  forall Is1 Is2 Open Open2,
    Bal Open (Is1 ++ Is2) Open2 ->
    exists Open1, Bal Open Is1 Open1 /\ Bal Open1 Is2 Open2.
Hypothesis Bal_transferInsts :
  forall Ctx Is Open Open',
    Bal Open Is Open' ->
    forall St, Abs Open (Accesses St) -> Good (ConflictingAccesses St) ->
    match transferInsts Ctx Is St with
    | Ok St' => Abs Open' (Accesses St') /\ Good (ConflictingAccesses St')
    | Abort f => resolverStops Is f
    end.

Let alongPaths (RPO : list SILBasicBlock) (Entry : Addr) : Prop :=
  forall P, cfgPath RPO Entry P -> exists Open, Bal [] (pathInsts P) Open.

(** The instruction loop over one block, entered at the end of a path. *)
Lemma transferInsts_path (Ctx : ASTContext) (RPO : list SILBasicBlock)
    (Entry : Addr) (BB : SILBasicBlock) (Q : list SILBasicBlock)
    (St : WalkState) :
  alongPaths RPO Entry ->
  cfgPath RPO Entry (BB :: Q) ->
  (forall Open, Bal [] (pathInsts Q) Open -> Abs Open (Accesses St)) ->
  Good (ConflictingAccesses St) ->
  match transferInsts Ctx (Insts BB) St with
  | Ok St' => (forall Open, Bal [] (pathInsts (BB :: Q)) Open ->
                            Abs Open (Accesses St'))
              /\ Good (ConflictingAccesses St')
  | Abort f => resolverStops (Insts BB) f
  end.
Proof.
  intros HWF HPath HQ HG.
  destruct (HWF _ HPath) as [Open2 HBal]. rewrite pathInsts_cons in HBal.
  apply Bal_app_inv in HBal as (Open1 & HB1 & HB2).
  pose proof (Bal_transferInsts Ctx (Insts BB) Open1 Open2 HB2 St
                (HQ Open1 HB1) HG) as HT.
  destruct (transferInsts Ctx (Insts BB) St) as [St'|f] eqn:E; [|exact HT].
  split; [|exact (proj2 HT)].
  intros Open HBal'. rewrite pathInsts_cons in HBal'.
  apply Bal_app_inv in HBal' as (Open1' & HB1' & HB2').
  pose proof (Bal_transferInsts Ctx (Insts BB) Open1' Open HB2' St
                (HQ Open1' HB1') HG) as HT'.
  rewrite E in HT'. exact (proj1 HT').
Qed.

Lemma visitBlock_entry (Ctx : ASTContext) (RPO : list SILBasicBlock)
    (E : SILBasicBlock) :
  alongPaths RPO (bb_self E) -> E ∈ RPO ->
  match visitBlock Ctx E {| BlockOutAccesses := {[bb_self E := Some ∅]};
                            fs_ConflictingAccesses := [];
                            fs_CallsToSwap := [] |} with
  | Ok FnSt' =>
      blockInvariant Bal Abs RPO (bb_self E) (BlockOutAccesses FnSt') [E]
      /\ Good (fs_ConflictingAccesses FnSt')
  | Abort f => benignStop RPO f
  end.
Proof.
  intros HWF HE. unfold visitBlock. cbn [BlockOutAccesses].
  rewrite !lookup_singleton_eq. cbn [default fs_ConflictingAccesses fs_CallsToSwap].
  cbv zeta.
  destruct (predecessorState _ _ _) as [M0|] eqn:EP.
  2:{ exfalso. eapply predecessorState_default, EP. }
  assert (HM0 : M0 = ∅).
  { apply predecessorState_Some in EP as [(p & _ & Hp)|Hd].
    - apply lookup_singleton_Some in Hp as [_ Hp]. congruence.
    - simpl in Hd. congruence. }
  subst M0.
  assert (HPath : cfgPath RPO (bb_self E) [E]) by (constructor; auto).
  assert (HEmpty : forall Open, Bal [] (pathInsts []) Open -> Abs Open ∅).
  { intros Open HB. apply Bal_nil_inv in HB. subst Open. exact Abs_nil. }
  pose proof (transferInsts_path Ctx RPO (bb_self E) E []
                {| Accesses := ∅; ConflictingAccesses := []; CallsToSwap := [] |}
                HWF HPath HEmpty Good_nil) as HT.
  destruct (transferInsts Ctx (Insts E) _) as [St'|f]; simpl.
  - destruct HT as [HAbs HG]. split; [|exact HG]. repeat split.
    + intros a [x Hx]. apply lookup_insert_Some in Hx as [[<- _]|[_ Hx]].
      * apply list_elem_of_singleton. reflexivity.
      * apply lookup_singleton_Some in Hx as [<- _].
        apply list_elem_of_singleton. reflexivity.
    + intros B HB. apply list_elem_of_singleton in HB. subst B.
      eexists. apply lookup_insert_eq.
    + intros a M HM. apply lookup_insert_Some in HM as [[<- HM]|[Hne HM]].
      * exists E, []. inversion HM; subst. auto.
      * apply lookup_singleton_Some in HM as [HM _]. congruence.
  - left. destruct HT as [Hf (Ins & HIn & Hr)].
    split; [exact Hf|]. exists E, Ins. auto.
Qed.

Lemma visitBlock_invariant (Ctx : ASTContext) (RPO : list SILBasicBlock)
    (Entry : Addr) (Visited : list SILBasicBlock) (BB : SILBasicBlock)
    (Rest : list SILBasicBlock) (FnSt : FunctionState) :
  alongPaths RPO Entry ->
  RPO = Visited ++ BB :: Rest ->
  NoDup (bb_self <$> RPO) ->
  Visited <> [] ->
  blockInvariant Bal Abs RPO Entry (BlockOutAccesses FnSt) Visited ->
  Good (fs_ConflictingAccesses FnSt) ->
  match visitBlock Ctx BB FnSt with
  | Ok FnSt' =>
      blockInvariant Bal Abs RPO Entry (BlockOutAccesses FnSt') (Visited ++ [BB])
      /\ Good (fs_ConflictingAccesses FnSt')
  | Abort f => benignStop RPO f
  end.
Proof.
  intros HWF HRPO HND HNE (HDom & HAll & HPaths) HG.
  assert (HBB : BB ∈ RPO).
  { rewrite HRPO. apply elem_of_app. right. apply list_elem_of_here. }
  assert (HFresh : bb_self BB ∉ bb_self <$> Visited).
  { rewrite HRPO, fmap_app, fmap_cons in HND.
    apply NoDup_app in HND as (_ & HND & _).
    intros HIn. apply (HND _ HIn). apply list_elem_of_here. }
  assert (HNone : BlockOutAccesses FnSt !! bb_self BB = None).
  { destruct (BlockOutAccesses FnSt !! bb_self BB) eqn:EL; [|reflexivity].
    exfalso. apply HFresh, HDom. eauto. }
  unfold visitBlock. rewrite !HNone. rewrite !lookup_insert_eq.
  cbn [default]. unfold id. cbv zeta.
  set (Out := <[bb_self BB := None]> (BlockOutAccesses FnSt)).
  assert (HOut : forall p M, Out !! p = Some (Some M) ->
                             BlockOutAccesses FnSt !! p = Some (Some M)).
  { intros p M Hp. unfold Out in Hp.
    apply lookup_insert_Some in Hp as [[_ Hp]|[_ Hp]]; [discriminate | exact Hp]. }
  destruct (predecessorState Out (getPredecessorBlocks BB) None) as [M0|] eqn:EP.
  - apply predecessorState_Some in EP as [(p & Hp & HM0)|Hd]; [|discriminate].
    apply HOut in HM0.
    destruct (HPaths p M0 HM0) as (B & P & HBp & HPath & HAbs).
    assert (HPath' : cfgPath RPO Entry (BB :: B :: P)).
    { constructor; [exact HPath | exact HBB | rewrite HBp; exact Hp]. }
    pose proof (transferInsts_path Ctx RPO Entry BB (B :: P)
                  {| Accesses := M0;
                     ConflictingAccesses := fs_ConflictingAccesses FnSt;
                     CallsToSwap := fs_CallsToSwap FnSt |}
                  HWF HPath' HAbs HG) as HT.
    destruct (transferInsts Ctx (Insts BB) _) as [St'|f]; simpl.
    + destruct HT as [HT HG']. split; [|exact HG']. repeat split.
      * intros a [x Hx]. rewrite fmap_app. apply elem_of_app.
        apply lookup_insert_Some in Hx as [[<- _]|[_ Hx]].
        { right. apply list_elem_of_singleton. reflexivity. }
        unfold Out in Hx. apply lookup_insert_Some in Hx as [[<- _]|[_ Hx]].
        { right. apply list_elem_of_singleton. reflexivity. }
        left. apply HDom. eauto.
      * intros B' HB'. apply elem_of_app in HB' as [HB'|HB'].
        { destruct (HAll B' HB') as [M HM]. exists M.
          assert (bb_self BB <> bb_self B').
          { intros Heq. apply HFresh. rewrite Heq.
            apply list_elem_of_fmap. eauto. }
          unfold Out. rewrite !lookup_insert_ne by done. exact HM. }
        apply list_elem_of_singleton in HB'. subst B'.
        eexists. apply lookup_insert_eq.
      * intros a M HM. apply lookup_insert_Some in HM as [[<- HM]|[Hne HM]].
        { exists BB, (B :: P). inversion HM; subst. auto. }
        apply HOut in HM. exact (HPaths a M HM).
    + left. destruct HT as [Hf (Ins & HIn & Hr)].
      split; [exact Hf|]. exists BB, Ins. auto.
  - right. split; [reflexivity|]. intros HPF.
    destruct (HPF Visited BB Rest HRPO HNE) as (Pred & HPred & HEdge).
    destruct (HAll Pred HPred) as [M HM].
    apply (predecessorState_found Out (getPredecessorBlocks BB) None
             (bb_self Pred) M HEdge); [|exact EP].
    unfold Out. rewrite lookup_insert_ne; [exact HM|].
    intros Heq. apply HFresh. rewrite Heq. apply list_elem_of_fmap. eauto.
Qed.

Lemma visitBlocks_invariant (Ctx : ASTContext) (RPO : list SILBasicBlock)
    (Entry : Addr) (Rest : list SILBasicBlock) :
  alongPaths RPO Entry ->
  NoDup (bb_self <$> RPO) ->
  forall (Visited : list SILBasicBlock) (FnSt : FunctionState),
    RPO = Visited ++ Rest -> Visited <> [] ->
    blockInvariant Bal Abs RPO Entry (BlockOutAccesses FnSt) Visited ->
    Good (fs_ConflictingAccesses FnSt) ->
    match visitBlocks Ctx Rest FnSt with
    | Ok FnSt' =>
        blockInvariant Bal Abs RPO Entry (BlockOutAccesses FnSt') RPO
        /\ Good (fs_ConflictingAccesses FnSt')
    | Abort f => benignStop RPO f
    end.
Proof.
  intros HWF HND.
  induction Rest as [|BB Rest IH]; intros Visited FnSt HRPO HNE HInv HG.
  - simpl. rewrite app_nil_r in HRPO. subst Visited. auto.
  - simpl.
    pose proof (visitBlock_invariant Ctx RPO Entry Visited BB Rest FnSt
                  HWF HRPO HND HNE HInv HG) as HV.
    destruct (visitBlock Ctx BB FnSt) as [FnSt1|f]; simpl; [|exact HV].
    destruct HV as [HV HG1].
    apply (IH (Visited ++ [BB])); [| | exact HV | exact HG1].
    + rewrite <- app_assoc. exact HRPO.
    + destruct Visited; discriminate.
Qed.

(** The traversal of a function whose markers follow [Bal] on every path
    ends with out states related by [Abs] to the accesses in progress
    along paths and with [Good] conflicts, or it stops for one of the two
    reasons of [benignStop]. *)
Lemma traverse_invariant_for (Fn : SILFunction) (RPO : list SILBasicBlock)
    (Entry : SILBasicBlock) (Rest Rest' : list SILBasicBlock) :
  Blocks Fn = Entry :: Rest -> RPO = Entry :: Rest' ->
  NoDup (bb_self <$> RPO) ->
  alongPaths RPO (bb_self Entry) ->
  match traverse Fn RPO with
  | Ok FnSt =>
      blockInvariant Bal Abs RPO (bb_self Entry) (BlockOutAccesses FnSt) RPO
      /\ Good (fs_ConflictingAccesses FnSt)
  | Abort f => benignStop RPO f
  end.
Proof.
  intros HFn HRPO HND HWF. unfold traverse. rewrite HFn.
  assert (HE : Entry ∈ RPO) by (rewrite HRPO; apply list_elem_of_here).
  pose proof (visitBlock_entry (getASTContext Fn) RPO Entry HWF HE) as HV.
  pose proof (visitBlocks_invariant (getASTContext Fn) RPO (bb_self Entry) Rest'
                HWF HND [Entry]) as HVs.
  remember (visitBlocks (getASTContext Fn) RPO _) as R eqn:ER.
  rewrite HRPO in ER. cbn [visitBlocks] in ER. subst R.
  destruct (visitBlock _ Entry _) as [FnSt1|f]; simpl; [|exact HV].
  destruct HV as [HV HG].
  apply HVs; [exact HRPO | discriminate | exact HV | exact HG].
Qed.

End Traversal.

Lemma transferInsts_abstracts_True (Ctx : ASTContext) (Is : list SILInstruction)
    (Open Open' : list BeginAccessInst) :
  balanced Open Is Open' ->
  forall St, abstracts Open (Accesses St) -> True ->
  match transferInsts Ctx Is St with
  | Ok St' => abstracts Open' (Accesses St') /\ True
  | Abort f => resolverStops Is f
  end.
Proof.
  intros HB St HA _.
  pose proof (transferInsts_abstracts Ctx Is Open Open' HB St HA) as HT.
  destruct (transferInsts Ctx Is St); auto.
Qed.

(** The traversal of a function with well-formed markers: it ends with
    out states that count the accesses in progress along paths, or it
    stops for one of the two reasons of [benignStop]; no assertion of the
    walker fails and no record is missing. *)
Lemma traverse_invariant (Fn : SILFunction) (RPO : list SILBasicBlock)
    (Entry : SILBasicBlock) (Rest Rest' : list SILBasicBlock) :
  Blocks Fn = Entry :: Rest -> RPO = Entry :: Rest' ->
  NoDup (bb_self <$> RPO) ->
  wellFormedMarkers RPO (bb_self Entry) ->
  match traverse Fn RPO with
  | Ok FnSt =>
      blockInvariant balanced abstracts RPO (bb_self Entry)
                     (BlockOutAccesses FnSt) RPO
  | Abort f => benignStop RPO f
  end.
Proof.
  intros HFn HRPO HND HWF.
  pose proof (traverse_invariant_for balanced abstracts (fun _ => True)
                abstracts_nil I balanced_nil_inv balanced_app_inv
                transferInsts_abstracts_True
                Fn RPO Entry Rest Rest' HFn HRPO HND HWF) as HT.
  destruct (traverse Fn RPO); [exact (proj1 HT) | exact HT].
Qed.

(** ** Nested accesses *)

Lemma nested_balanced (Open Open' : list BeginAccessInst)
    (Is : list SILInstruction) :
  nested Open Is Open' -> balanced Open Is Open'.
Proof.
  induction 1; try (constructor; assumption).
  apply (balanced_end [] Open EAI Is Open'). assumption.
Qed.

Lemma nested_nil_inv (Open Open' : list BeginAccessInst) :
  nested Open [] Open' -> Open' = Open.
Proof. inversion 1; reflexivity. Qed.

Lemma nested_app_inv (Is1 Is2 : list SILInstruction) :
  forall Open Open2,
    nested Open (Is1 ++ Is2) Open2 ->
    exists Open1, nested Open Is1 Open1 /\ nested Open1 Is2 Open2.
Proof.
  induction Is1 as [|Ins Is1 IH]; intros Open Open2 H; simpl in H.
  - exists Open. split; [constructor | exact H].
  - inversion H; subst;
      match goal with
      | Hb : nested _ (Is1 ++ Is2) _ |- _ =>
          destruct (IH _ _ Hb) as (OpenM & HM1 & HM2)
      end;
      exists OpenM; (split; [constructor; assumption | exact HM2]).
Qed.

Lemma countOpen_filter (K : StorageKey) (Open : list BeginAccessInst) :
  Z.of_nat (length (filter (fun b => keyOf b = Some K) Open))
  = countOpen K true Open + countOpen K false Open.
Proof.
  induction Open as [|b Open IH]; [reflexivity|].
  rewrite !countOpen_cons, filter_cons.
  destruct (decide (keyOf b = Some K)) as [Hk|Hk].
  - simpl length. destruct (isRead b) eqn:Eb;
      repeat destruct (decide (keyOf b = Some K /\ _)); try lia;
      exfalso; intuition congruence.
  - repeat destruct (decide (keyOf b = Some K /\ _)); try lia;
      exfalso; tauto.
Qed.

Lemma countOpen_elem (K : StorageKey) (r : bool) (b : BeginAccessInst)
    (Open : list BeginAccessInst) :
  b ∈ Open -> keyOf b = Some K -> isRead b = r -> 0 < countOpen K r Open.
Proof.
  intros HIn Hk Hr. unfold countOpen.
  assert (HF : b ∈ filter (fun b => keyOf b = Some K /\ isRead b = r) Open).
  { apply list_elem_of_filter. auto. }
  destruct (filter _ Open); [inversion HF | simpl; lia].
Qed.

Lemma last_filter_elem (K : StorageKey) (Open : list BeginAccessInst)
    (F : BeginAccessInst) :
  last (filter (fun b => keyOf b = Some K) Open) = Some F ->
  F ∈ Open /\ keyOf F = Some K.
Proof.
  intros HL. apply last_Some in HL as [l' Hl'].
  assert (HF : F ∈ filter (fun b => keyOf b = Some K) Open).
  { rewrite Hl'. apply elem_of_app. right. apply list_elem_of_here. }
  apply list_elem_of_filter in HF. tauto.
Qed.

Lemma filter_key_cons_other (K K' : StorageKey) (b : BeginAccessInst)
    (Open : list BeginAccessInst) :
  keyOf b = Some K -> K <> K' ->
  filter (fun b => keyOf b = Some K') (b :: Open)
  = filter (fun b => keyOf b = Some K') Open.
Proof. intros Hk Hne. apply filter_cons_False. congruence. Qed.

Lemma filter_key_cons_same (K : StorageKey) (b : BeginAccessInst)
    (Open : list BeginAccessInst) :
  keyOf b = Some K ->
  filter (fun b => keyOf b = Some K) (b :: Open)
  = b :: filter (fun b => keyOf b = Some K) Open.
Proof. intros Hk. apply filter_cons_True. exact Hk. Qed.

Lemma transfer_begin_nested (Ctx : ASTContext) (BAI : BeginAccessInst)
    (Open : list BeginAccessInst) (St St' : WalkState) :
  abstractsNested Open (Accesses St) ->
  Forall notBothReads (ConflictingAccesses St) ->
  transfer Ctx (IBeginAccess BAI) St = Ok St' ->
  firstIsOldest (BAI :: Open) (Accesses St')
  /\ Forall notBothReads (ConflictingAccesses St').
Proof.
  intros [[HLen HA] HFO] HG HT. simpl in HT.
  apply transferBeginAccess_Ok_inv in HT as (Storage & HS & ->).
  pose proof (keyOf_Ok BAI Storage HS) as HK.
  set (K := storageKey Storage) in *. cbv zeta. simpl.
  pose proof (countOpen_filter K Open) as HCF.
  pose proof (countOpen_nonneg K true Open) as H0r.
  pose proof (countOpen_nonneg K false Open) as H0n.
  specialize (HA K). pose proof (HFO K) as HFK.
  split.
  - intros K' Info' HL. destruct (decide (K = K')) as [<-|Hne].
    + rewrite lookup_insert_eq in HL. injection HL as <-.
      rewrite (filter_key_cons_same K BAI Open HK), last_cons.
      unfold beginCounted, lookupOrDefault. simpl.
      destruct (Accesses St !! K) as [Info0|]; simpl.
      * rewrite <- (HFK Info0 eq_refl). destruct (FirstAccess Info0); reflexivity.
      * destruct (filter (fun b => keyOf b = Some K) Open) as [|x l] eqn:EF;
          [reflexivity|]. simpl length in HCF. lia.
    + rewrite lookup_insert_ne in HL by done.
      rewrite (filter_key_cons_other K K' BAI Open HK Hne). apply HFO, HL.
  - apply Forall_app. split; [exact HG|]. unfold newConflicts.
    destruct (conflictsWithAccess _ _ && negb (alreadyHadConflict _)) eqn:EC;
      [|constructor].
    destruct (FirstAccess _) as [F|] eqn:EF; [|constructor].
    constructor; [|constructor]. unfold notBothReads. simpl.
    destruct (isRead F) eqn:ERF; [|reflexivity].
    destruct (isRead BAI) eqn:ERB; [|reflexivity]. exfalso.
    unfold lookupOrDefault in EC, EF.
    destruct (Accesses St !! K) as [Info0|]; simpl in EC, EF; [|discriminate EF].
    rewrite (HFK Info0 eq_refl) in EF.
    apply last_filter_elem in EF as [HIn HkF].
    pose proof (countOpen_elem K true F Open HIn HkF ERF) as HPos.
    destruct HA as (HR & HN & _).
    apply andb_true_iff in EC as [EC1 EC2]. apply negb_true_iff in EC2.
    unfold conflictsWithAccess in EC1. unfold isRead in ERB. rewrite ERB in EC1.
    unfold alreadyHadConflict in EC2. rewrite EC1 in EC2. simpl in EC2.
    apply orb_false_iff in EC2 as [EC2 _]. apply Z.ltb_ge in EC2. lia.
Qed.

Lemma transfer_end_nested (Ctx : ASTContext) (EAI : EndAccessInst)
    (Open : list BeginAccessInst) (St St' : WalkState) :
  abstractsNested (getBeginAccess EAI :: Open) (Accesses St) ->
  abstracts Open (Accesses St') ->
  transfer Ctx (IEndAccess EAI) St = Ok St' ->
  firstIsOldest Open (Accesses St')
  /\ ConflictingAccesses St' = ConflictingAccesses St.
Proof.
  intros [_ HFO] [_ HA'] HT. simpl in HT. unfold transferEndAccess in HT.
  apply bindR_Ok in HT as (Storage & HS & HT). cbv beta in HT.
  pose proof (keyOf_Ok (getBeginAccess EAI) Storage HS) as HK.
  set (K := storageKey Storage) in *.
  destruct (Accesses St !! K) as [Info|] eqn:EK; [|discriminate HT].
  injection HT as <-. simpl in *. split; [|reflexivity].
  pose proof (countOpen_filter K Open) as HCF.
  intros K' Info' HL. specialize (HA' K'). rewrite HL in HA'.
  destruct HA' as (HR' & HN' & _ & HPos).
  destruct (decide (K = K')) as [<-|Hne].
  - destruct (negb (hasAccessesInProgress (endAccess Info EAI))).
    { rewrite lookup_delete_eq in HL. discriminate HL. }
    rewrite lookup_insert_eq in HL. injection HL as <-.
    assert (HFE : FirstAccess (endAccess Info EAI) =
                  if (Reads (endAccess Info EAI) =? 0)
                     && (NonReads (endAccess Info EAI) =? 0)
                  then None else FirstAccess Info) by reflexivity.
    rewrite HFE, HR', HN'.
    pose proof (countOpen_nonneg K true Open) as H0r.
    pose proof (countOpen_nonneg K false Open) as H0n.
    destruct (Z.eqb_spec (countOpen K true Open) 0) as [E1|E1];
      destruct (Z.eqb_spec (countOpen K false Open) 0) as [E2|E2];
      cbn [andb]; try lia;
      rewrite (HFO K Info EK), (filter_key_cons_same K _ Open HK), last_cons;
      (destruct (filter (fun b => keyOf b = Some K) Open) as [|x l] eqn:EF;
       [simpl length in HCF; lia|]);
      (destruct (last (x :: l)) eqn:EL;
       [reflexivity | apply last_None in EL; discriminate EL]).
  - assert (HL0 : Accesses St !! K' = Some Info').
    { destruct (negb (hasAccessesInProgress (endAccess Info EAI))).
      - rewrite lookup_delete_ne in HL by done. exact HL.
      - rewrite lookup_insert_ne in HL by done. exact HL. }
    rewrite (HFO K' Info' HL0).
    rewrite (filter_key_cons_other K K' _ Open HK Hne). reflexivity.
Qed.

(** The instruction loop over nested instructions keeps [FirstAccess] at
    the access in progress longest, and never records two reads as a
    conflict. *)
Lemma transferInsts_nested (Ctx : ASTContext) (Is : list SILInstruction)
    (Open Open' : list BeginAccessInst) :
  nested Open Is Open' ->
  forall St,
    abstractsNested Open (Accesses St) ->
    Forall notBothReads (ConflictingAccesses St) ->
    match transferInsts Ctx Is St with
    | Ok St' => abstractsNested Open' (Accesses St')
                /\ Forall notBothReads (ConflictingAccesses St')
    | Abort f => resolverStops Is f
    end.
Proof.
  induction 1 as [Open|Open BAI Is Open' HLen HBal IH
                 |Open EAI Is Open' HBal IH
                 |Open AI Is Open' HBal IH
                 |Is Open' HBal IH
                 |Open Is Open' HBal IH]; intros St HA HG.
  - simpl. split; assumption.
  - cbn [transferInsts].
    pose proof (transfer_begin_abstracts Ctx BAI Open St HLen (proj1 HA)) as HT.
    destruct (transfer Ctx (IBeginAccess BAI) St) as [St1|f] eqn:ET; simpl.
    + destruct (transfer_begin_nested Ctx BAI Open St St1 HA HG ET) as [HF1 HG1].
      apply resolverStops_cons, IH; [split; assumption | exact HG1].
    + destruct HT as [Hf Hr]. split; [exact Hf|].
      eexists. split; [apply list_elem_of_here | exact Hr].
  - cbn [transferInsts].
    pose proof (transfer_end_abstracts Ctx EAI [] Open St (proj1 HA)) as HT.
    destruct (transfer Ctx (IEndAccess EAI) St) as [St1|f] eqn:ET; simpl.
    + destruct (transfer_end_nested Ctx EAI Open St St1 HA HT ET) as [HF1 HG1].
      apply resolverStops_cons, IH; [split; assumption | rewrite HG1; exact HG].
    + destruct HT as [Hf Hr]. split; [exact Hf|].
      eexists. split; [apply list_elem_of_here | exact Hr].
  - cbn [transferInsts]. simpl. apply resolverStops_cons, IH; assumption.
  - cbn [transferInsts].
    rewrite (transfer_return_abstracts Ctx St (proj1 HA)). simpl.
    apply resolverStops_cons, IH; assumption.
  - cbn [transferInsts]. simpl. apply resolverStops_cons, IH; assumption.
Qed.

Lemma abstractsNested_nil : abstractsNested [] ∅.
Proof.
  split; [apply abstracts_nil|]. intros K Info HK.
  rewrite lookup_empty in HK. discriminate HK.
Qed.

(** The traversal of a function with nested markers never records two
    reads as a conflict. *)
Lemma traverse_nested (Fn : SILFunction) (RPO : list SILBasicBlock)
    (Entry : SILBasicBlock) (Rest Rest' : list SILBasicBlock) :
  Blocks Fn = Entry :: Rest -> RPO = Entry :: Rest' ->
  NoDup (bb_self <$> RPO) ->
  nestedMarkers RPO (bb_self Entry) ->
  match traverse Fn RPO with
  | Ok FnSt => Forall notBothReads (fs_ConflictingAccesses FnSt)
  | Abort f => benignStop RPO f
  end.
Proof.
  intros HFn HRPO HND HWF.
  pose proof (traverse_invariant_for nested abstractsNested (Forall notBothReads)
                abstractsNested_nil (Forall_nil_2 _) nested_nil_inv
                (fun Is1 Is2 => nested_app_inv Is1 Is2)
                transferInsts_nested
                Fn RPO Entry Rest Rest' HFn HRPO HND HWF) as HT.
  destruct (traverse Fn RPO); [exact (proj2 HT) | exact HT].
Qed.

(** ** Balanced state at function exit *)

Lemma benignStop_not_entries_not_removed (RPO : list SILBasicBlock) :
  ~ benignStop RPO entries_not_removed.
Proof.
  intros [[[H|H] _]|[H _]]; discriminate H.
Qed.

Lemma benignStop_not_end_iterator (RPO : list SILBasicBlock) :
  ~ benignStop RPO end_iterator_dereferenced.
Proof.
  intros [[[H|H] _]|[H _]]; discriminate H.
Qed.

Lemma benignStop_excluded (RPO : list SILBasicBlock) (f : Fault) :
  predecessorFirst RPO ->
  (forall BB Ins, BB ∈ RPO -> Ins ∈ Insts BB -> resolvable Ins) ->
  ~ benignStop RPO f.
Proof.
  intros HPF HRes [[_ (BB & Ins & HBB & HIns & HN)]|[_ HN]].
  - apply HN. eapply HRes; eassumption.
  - exact (HN HPF).
Qed.

Lemma transfer_return_Ok (Ctx : ASTContext) (St St' : WalkState) :
  transfer Ctx IReturn St = Ok St' <-> Accesses St = ∅ /\ St' = St.
Proof.
  simpl. case_bool_decide as HS.
  - apply map_size_empty_iff in HS. split.
    + intros [= <-]. auto.
    + intros [_ ->]. reflexivity.
  - split; [discriminate|]. intros [HE _]. exfalso. apply HS.
    rewrite HE. apply map_size_empty.
Qed.

Lemma transfer_return_nonempty (Ctx : ASTContext) (St : WalkState) :
  Accesses St <> ∅ -> transfer Ctx IReturn St = Abort entries_not_removed.
Proof.
  intros HN. simpl. case_bool_decide as HS; [|reflexivity].
  apply map_size_empty_iff in HS. contradiction.
Qed.

Lemma checkStaticExclusivity_traverse_Abort (Fn : SILFunction)
    (RPO : list SILBasicBlock) (f : Fault) :
  traverse Fn RPO = Abort f -> checkStaticExclusivity Fn RPO = Abort f.
Proof.
  unfold checkStaticExclusivity, traverse.
  destruct (Blocks Fn) as [|E Rest]; [discriminate|].
  intros ->. reflexivity.
Qed.

(** C4. In a function whose access markers are well formed (balanced on
    every path from the entry) the traversal never fails the assertion
    at a [return]: a [return] passes exactly when the access map is
    empty, and the traversal runs to its end once the addresses are
    resolvable and the blocks come in reverse post order.  A [return]
    with a non-empty map is the internal assertion fault, and a
    traversal that stops yields no diagnostics. *)
Theorem balanced_state_at_exit :
  forall (Fn : SILFunction) (RPO : list SILBasicBlock)
         (Entry : SILBasicBlock) (Rest Rest' : list SILBasicBlock),
    Blocks Fn = Entry :: Rest -> RPO = Entry :: Rest' ->
    NoDup (bb_self <$> RPO) ->
    wellFormedMarkers RPO (bb_self Entry) ->
    traverse Fn RPO <> Abort entries_not_removed
    /\ (predecessorFirst RPO ->
        (forall BB Ins, BB ∈ RPO -> Ins ∈ Insts BB -> resolvable Ins) ->
        exists FnSt, traverse Fn RPO = Ok FnSt)
    /\ (forall Ctx St St',
          transfer Ctx IReturn St = Ok St' <-> Accesses St = ∅ /\ St' = St)
    /\ (forall Ctx St,
          Accesses St <> ∅ -> transfer Ctx IReturn St = Abort entries_not_removed)
    /\ isInternalError entries_not_removed = true
    /\ (forall f, traverse Fn RPO = Abort f ->
                  checkStaticExclusivity Fn RPO = Abort f).
Proof.
  intros Fn RPO Entry Rest Rest' HFn HRPO HND HWF.
  pose proof (traverse_invariant Fn RPO Entry Rest Rest' HFn HRPO HND HWF) as HT.
  split; [|split; [|split; [|split; [|split]]]].
  - intros HA. rewrite HA in HT.
    exact (benignStop_not_entries_not_removed RPO HT).
  - intros HPF HRes. destruct (traverse Fn RPO) as [FnSt|f]; [eauto|].
    exfalso. exact (benignStop_excluded RPO f HPF HRes HT).
  - apply transfer_return_Ok.
  - apply transfer_return_nonempty.
  - reflexivity.
  - apply checkStaticExclusivity_traverse_Abort.
Qed.

Lemma twoBlock_paths (B0 B1 : SILBasicBlock) (P : list SILBasicBlock) :
  bb_self B1 <> bb_self B0 ->
  getPredecessorBlocks B0 = [] -> getPredecessorBlocks B1 = [bb_self B0] ->
  cfgPath [B0; B1] (bb_self B0) P ->
  P = [B0] \/ P = [B1; B0].
Proof.
  intros HNe HP0 HP1.
  induction 1 as [B HB HE|B' B P HP IH HB' HEdge].
  - apply elem_of_cons in HB as [->|HB]; [auto|].
    apply list_elem_of_singleton in HB. subst B. contradiction.
  - apply elem_of_cons in HB' as [->|HB'].
    { rewrite HP0 in HEdge. inversion HEdge. }
    apply list_elem_of_singleton in HB'. subst B'.
    rewrite HP1 in HEdge. apply list_elem_of_singleton in HEdge.
    destruct IH as [IH|IH]; inversion IH; subst; [auto | contradiction].
Qed.

Lemma Example_paths (P : list SILBasicBlock) :
  cfgPath Example.rpo 1%N P ->
  P = [Example.entryBlock] \/ P = [Example.exitBlock; Example.entryBlock].
Proof.
  apply (twoBlock_paths Example.entryBlock Example.exitBlock);
    [discriminate | reflexivity | reflexivity].
Qed.

Lemma Example_wellFormed : wellFormedMarkers Example.rpo 1%N.
Proof.
  intros P HP. apply Example_paths in HP as [-> | ->].
  - exists []. unfold pathInsts, Example.endOf. simpl.
    apply balanced_begin; [reflexivity|].
    apply balanced_begin; [reflexivity|].
    apply (balanced_end [] [Example.readG] {| getBeginAccess := Example.writeG |}).
    apply (balanced_end [] [] {| getBeginAccess := Example.readG |}).
    apply balanced_nil.
  - exists []. unfold pathInsts, Example.endOf. simpl.
    apply balanced_begin; [reflexivity|].
    apply balanced_begin; [reflexivity|].
    apply (balanced_end [] [Example.readG] {| getBeginAccess := Example.writeG |}).
    apply (balanced_end [] [] {| getBeginAccess := Example.readG |}).
    apply balanced_return.
    apply balanced_nil.
Qed.

Lemma Example_nestedMarkers : nestedMarkers Example.rpo 1%N.
Proof.
  intros P HP. apply Example_paths in HP as [-> | ->].
  - exists []. unfold pathInsts, Example.endOf. simpl.
    apply nested_begin; [reflexivity|].
    apply nested_begin; [reflexivity|].
    apply (nested_end [Example.readG] {| getBeginAccess := Example.writeG |}).
    apply (nested_end [] {| getBeginAccess := Example.readG |}).
    apply nested_nil.
  - exists []. unfold pathInsts, Example.endOf. simpl.
    apply nested_begin; [reflexivity|].
    apply nested_begin; [reflexivity|].
    apply (nested_end [Example.readG] {| getBeginAccess := Example.writeG |}).
    apply (nested_end [] {| getBeginAccess := Example.readG |}).
    apply nested_return.
    apply nested_nil.
Qed.

Lemma Example_NoDup : NoDup (bb_self <$> Example.rpo).
Proof.
  simpl. apply NoDup_cons. split.
  - intros H. apply list_elem_of_singleton in H. discriminate H.
  - apply NoDup_singleton.
Qed.

Lemma Example_predecessorFirst : predecessorFirst Example.rpo.
Proof.
  intros Visited BB Rest HR HNE.
  destruct Visited as [|V1 [|V2 Visited]]; [congruence| |].
  - inversion HR; subst. exists Example.entryBlock.
    split; apply list_elem_of_here.
  - inversion HR as [[H1 H2 H3]]. destruct Visited; discriminate H3.
Qed.

Lemma Example_resolvable (BB : SILBasicBlock) (Ins : SILInstruction) :
  BB ∈ Example.rpo -> Ins ∈ Insts BB -> resolvable Ins.
Proof.
  intros HBB HIns.
  apply elem_of_cons in HBB as [->|HBB];
    [|apply list_elem_of_singleton in HBB; subst BB].
  - simpl in HIns.
    repeat (apply elem_of_cons in HIns as [->|HIns]; [simpl; discriminate|]).
    inversion HIns.
  - simpl in HIns. apply list_elem_of_singleton in HIns. subst Ins. exact I.
Qed.

Lemma balanced_state_at_exit_witness :
  exists FnSt, traverse Example.readThenWrite Example.rpo = Ok FnSt.
Proof.
  destruct (balanced_state_at_exit Example.readThenWrite Example.rpo
              Example.entryBlock [Example.exitBlock] [Example.exitBlock]
              eq_refl eq_refl Example_NoDup Example_wellFormed)
    as (_ & HOk & _).
  exact (HOk Example_predecessorFirst Example_resolvable).
Defined.

(** ** The record invariant *)

Lemma beginAccess_invariant (Info : AccessInfo) (BAI : BeginAccessInst) :
  firstAccessInvariant Info ->
  0 <= Reads Info -> 0 <= NonReads Info ->
  Reads Info + 1 < UINT_MOD -> NonReads Info + 1 < UINT_MOD ->
  beginAccess Info BAI = Ok (beginCounted Info BAI)
  /\ firstAccessInvariant (beginCounted Info BAI)
  /\ (FirstAccess Info = None -> FirstAccess (beginCounted Info BAI) = Some BAI)
  /\ (forall F, FirstAccess Info = Some F ->
                FirstAccess (beginCounted Info BAI) = Some F).
Proof.
  intros HInv HR HN HR1 HN1. unfold firstAccessInvariant in *.
  split; [|split; [|split]].
  - apply beginAccess_eq. destruct (FirstAccess Info) as [F|]; [left; congruence|].
    right. assert (~ 0 < Reads Info + NonReads Info) by (rewrite <- HInv; congruence).
    lia.
  - unfold beginCounted. simpl.
    destruct (isRead BAI); rewrite uinc_small by lia;
      (split; [intros _; lia | intros _; congruence]).
  - intros HF. unfold beginCounted. simpl. rewrite HF. reflexivity.
  - intros F HF. unfold beginCounted. simpl. rewrite HF. reflexivity.
Qed.

Lemma endAccess_invariant (Info : AccessInfo) (EAI : EndAccessInst) :
  firstAccessInvariant Info ->
  0 <= Reads Info -> 0 <= NonReads Info ->
  hasAccessesInProgress Info = true ->
  firstAccessInvariant (endAccess Info EAI)
  /\ (Reads (endAccess Info EAI) = 0 -> NonReads (endAccess Info EAI) = 0 ->
      FirstAccess (endAccess Info EAI) = None)
  /\ 0 <= Reads (endAccess Info EAI) /\ 0 <= NonReads (endAccess Info EAI).
Proof.
  intros HInv HR HN HP. unfold firstAccessInvariant in *.
  assert (HF : FirstAccess Info <> None).
  { apply HInv. unfold hasAccessesInProgress in HP.
    apply orb_true_iff in HP. rewrite !Z.ltb_lt in HP. lia. }
  assert (HR' : 0 <= Reads (endAccess Info EAI)).
  { unfold endAccess. simpl. destruct (SILAccessKind_eq _ _); [|exact HR].
    apply udec_range. }
  assert (HN' : 0 <= NonReads (endAccess Info EAI)).
  { unfold endAccess. simpl. destruct (SILAccessKind_eq _ _); [exact HN|].
    apply udec_range. }
  assert (HFE : FirstAccess (endAccess Info EAI) =
                if (Reads (endAccess Info EAI) =? 0)
                   && (NonReads (endAccess Info EAI) =? 0)
                then None else FirstAccess Info) by reflexivity.
  split; [|split; [|split; assumption]].
  - rewrite HFE.
    destruct (Z.eqb_spec (Reads (endAccess Info EAI)) 0) as [E1|E1];
      destruct (Z.eqb_spec (NonReads (endAccess Info EAI)) 0) as [E2|E2];
      cbn [andb]; split; intros H; try lia; try congruence.
  - intros E1 E2. rewrite HFE, E1, E2. reflexivity.
Qed.

Lemma transferEndAccess_drops (EAI : EndAccessInst) (St St' : WalkState)
    (Storage : AccessedStorage) (Info : AccessInfo) :
  findAccessedStorage (EndAccessInst_getSource EAI) = Ok Storage ->
  Accesses St !! storageKey Storage = Some Info ->
  Reads (endAccess Info EAI) = 0 -> NonReads (endAccess Info EAI) = 0 ->
  transferEndAccess EAI St = Ok St' ->
  Accesses St' !! storageKey Storage = None.
Proof.
  intros HS HK E1 E2. unfold transferEndAccess. rewrite HS. simpl. rewrite HK.
  unfold hasAccessesInProgress. rewrite E1, E2. simpl.
  intros [= <-]. simpl. apply lookup_delete_eq.
Qed.

(** C9. Every record of every out state of the walker, on a function
    with well-formed markers, has [FirstAccess] set iff
    [Reads + NonReads > 0].  [beginAccess] keeps the invariant (counters
    in range) and sets [FirstAccess] on the first open access;
    [endAccess] on an open record keeps it and clears [FirstAccess]
    when both counters are back to zero, and the walker then drops the
    entry from the map. *)
Theorem firstAccess_invariant_preserved :
  (forall (Fn : SILFunction) (RPO : list SILBasicBlock)
          (Entry : SILBasicBlock) (Rest Rest' : list SILBasicBlock)
          (FnSt : FunctionState),
      Blocks Fn = Entry :: Rest -> RPO = Entry :: Rest' ->
      NoDup (bb_self <$> RPO) ->
      wellFormedMarkers RPO (bb_self Entry) ->
      traverse Fn RPO = Ok FnSt ->
      forall a M K Info,
        BlockOutAccesses FnSt !! a = Some (Some M) -> M !! K = Some Info ->
        firstAccessInvariant Info)
  /\ (forall (Info : AccessInfo) (BAI : BeginAccessInst),
        firstAccessInvariant Info ->
        0 <= Reads Info -> 0 <= NonReads Info ->
        Reads Info + 1 < UINT_MOD -> NonReads Info + 1 < UINT_MOD ->
        beginAccess Info BAI = Ok (beginCounted Info BAI)
        /\ firstAccessInvariant (beginCounted Info BAI)
        /\ (FirstAccess Info = None ->
            FirstAccess (beginCounted Info BAI) = Some BAI))
  /\ (forall (Info : AccessInfo) (EAI : EndAccessInst),
        firstAccessInvariant Info ->
        0 <= Reads Info -> 0 <= NonReads Info ->
        hasAccessesInProgress Info = true ->
        firstAccessInvariant (endAccess Info EAI)
        /\ (Reads (endAccess Info EAI) = 0 -> NonReads (endAccess Info EAI) = 0 ->
            FirstAccess (endAccess Info EAI) = None
            /\ forall St St' Storage,
                 findAccessedStorage (EndAccessInst_getSource EAI) = Ok Storage ->
                 Accesses St !! storageKey Storage = Some Info ->
                 transferEndAccess EAI St = Ok St' ->
                 Accesses St' !! storageKey Storage = None)).
Proof.
  split; [|split].
  - intros Fn RPO Entry Rest Rest' FnSt HFn HRPO HND HWF HT a M K Info Ha HK.
    pose proof (traverse_invariant Fn RPO Entry Rest Rest' HFn HRPO HND HWF) as HI.
    rewrite HT in HI. destruct HI as (_ & _ & HPaths).
    destruct (HPaths a M Ha) as (B & P & _ & HPath & HAbs).
    destruct (HWF _ HPath) as [Open HBal].
    exact (proj1 (abstracts_firstAccessInvariant Open M K Info (HAbs Open HBal) HK)).
  - intros Info BAI HInv HR HN HR1 HN1.
    destruct (beginAccess_invariant Info BAI HInv HR HN HR1 HN1)
      as (H1 & H2 & H3 & _). auto.
  - intros Info EAI HInv HR HN HP.
    destruct (endAccess_invariant Info EAI HInv HR HN HP) as (H1 & H2 & _).
    split; [exact H1|]. intros E1 E2. split; [auto|].
    intros St St' Storage HS HK HT.
    exact (transferEndAccess_drops EAI St St' Storage Info HS HK E1 E2 HT).
Qed.

Lemma ExampleAcross_wellFormed : wellFormedMarkers Example.rpoAcross 1%N.
Proof.
  intros P HP.
  apply (twoBlock_paths Example.openingBlock Example.closingBlock) in HP
    as [-> | ->]; [| |discriminate|reflexivity|reflexivity].
  - exists [Example.readG]. unfold pathInsts. simpl.
    apply balanced_begin; [reflexivity|]. apply balanced_nil.
  - exists []. unfold pathInsts, Example.endOf. simpl.
    apply balanced_begin; [reflexivity|].
    apply (balanced_end [] [] {| getBeginAccess := Example.readG |}).
    apply balanced_return. apply balanced_nil.
Qed.

Lemma ExampleAcross_NoDup : NoDup (bb_self <$> Example.rpoAcross).
Proof. exact Example_NoDup. Qed.

Lemma firstAccess_invariant_preserved_witness :
  firstAccessInvariant
    {| Reads := 1; NonReads := 0; FirstAccess := Some Example.readG |}
  /\ firstAccessInvariant (beginCounted AccessInfo_default Example.writeG)
  /\ firstAccessInvariant
       (endAccess {| Reads := 1; NonReads := 0; FirstAccess := Some Example.readG |}
                  {| getBeginAccess := Example.readG |}).
Proof.
  destruct firstAccess_invariant_preserved as (HOut & HBegin & HEnd).
  split; [|split].
  - destruct (traverse Example.readAcrossBlocks Example.rpoAcross)
      as [FnSt|f] eqn:ET; [|vm_compute in ET; discriminate ET].
    apply (HOut Example.readAcrossBlocks Example.rpoAcross
             Example.openingBlock [Example.closingBlock] [Example.closingBlock]
             FnSt eq_refl eq_refl ExampleAcross_NoDup ExampleAcross_wellFormed ET
             1%N
             {[ storageKey (OfGlobal Example.g) :=
                  {| Reads := 1; NonReads := 0;
                     FirstAccess := Some Example.readG |} ]}
             (storageKey (OfGlobal Example.g))).
    + vm_compute in ET. injection ET as <-. reflexivity.
    + apply lookup_singleton_eq.
  - apply (HBegin AccessInfo_default Example.writeG).
    + split; simpl; [congruence | lia].
    + simpl; lia.
    + simpl; lia.
    + reflexivity.
    + reflexivity.
  - apply (HEnd {| Reads := 1; NonReads := 0; FirstAccess := Some Example.readG |}
                {| getBeginAccess := Example.readG |}).
    + split; simpl; [lia | congruence].
    + simpl; lia.
    + simpl; lia.
    + reflexivity.
Defined.

(** ** An end-access without a record *)

Lemma transferEndAccess_missing (Ctx : ASTContext) (EAI : EndAccessInst)
    (St : WalkState) (Storage : AccessedStorage) :
  findAccessedStorage (EndAccessInst_getSource EAI) = Ok Storage ->
  Accesses St !! storageKey Storage = None ->
  transfer Ctx (IEndAccess EAI) St = Abort end_iterator_dereferenced.
Proof.
  intros HS HK. simpl. unfold transferEndAccess. rewrite HS. simpl.
  rewrite HK. reflexivity.
Qed.

(** The claim C8 as stated fails: the walker dereferences the result of
    the failed lookup; no assertion and no [llvm_unreachable] guards it. *)
Lemma missing_record_not_internal_error :
  ~ missingRecordIsInternalError Example.ctx
      {| getBeginAccess := Example.readG |} initialState
  /\ checkStaticExclusivity Example.doubleEnd (Blocks Example.doubleEnd)
     = Abort end_iterator_dereferenced
  /\ isInternalError end_iterator_dereferenced = false.
Proof.
  split; [|split; reflexivity].
  intros H. destruct (H (OfGlobal Example.g) eq_refl eq_refl) as (f & Hf & Hi).
  vm_compute in Hf. injection Hf as <-. discriminate Hi.
Qed.

(** C8, amended. The walker has no check for an [end_access] whose
    storage has no record: it dereferences the failed lookup, which is
    undefined behaviour and not an internal-error signal; the loop does
    not go on and the function yields no diagnostics.  On well-formed
    markers the record is always there. *)
Theorem end_access_record_always_found :
  (forall (Ctx : ASTContext) (EAI : EndAccessInst) (St : WalkState)
          (Storage : AccessedStorage) (Rest : list SILInstruction),
      findAccessedStorage (EndAccessInst_getSource EAI) = Ok Storage ->
      Accesses St !! storageKey Storage = None ->
      transferInsts Ctx (IEndAccess EAI :: Rest) St
      = Abort end_iterator_dereferenced)
  /\ isInternalError end_iterator_dereferenced = false
  /\ (forall (Fn : SILFunction) (RPO : list SILBasicBlock)
             (Entry : SILBasicBlock) (Rest Rest' : list SILBasicBlock),
        Blocks Fn = Entry :: Rest -> RPO = Entry :: Rest' ->
        NoDup (bb_self <$> RPO) ->
        wellFormedMarkers RPO (bb_self Entry) ->
        traverse Fn RPO <> Abort end_iterator_dereferenced)
  /\ (forall (Fn : SILFunction) (RPO : list SILBasicBlock) (f : Fault),
        traverse Fn RPO = Abort f -> checkStaticExclusivity Fn RPO = Abort f).
Proof.
  split; [|split; [|split]].
  - intros Ctx EAI St Storage Rest HS HK. cbn [transferInsts].
    rewrite (transferEndAccess_missing Ctx EAI St Storage HS HK). reflexivity.
  - reflexivity.
  - intros Fn RPO Entry Rest Rest' HFn HRPO HND HWF HA.
    pose proof (traverse_invariant Fn RPO Entry Rest Rest' HFn HRPO HND HWF) as HT.
    rewrite HA in HT. exact (benignStop_not_end_iterator RPO HT).
  - apply checkStaticExclusivity_traverse_Abort.
Qed.

Lemma end_access_record_always_found_witness :
  transferInsts Example.ctx [Example.endOf Example.readG; IReturn] initialState
  = Abort end_iterator_dereferenced
  /\ traverse Example.readThenWrite Example.rpo <> Abort end_iterator_dereferenced.
Proof.
  destruct end_access_record_always_found as (HMiss & _ & HFound & _).
  split.
  - apply (HMiss Example.ctx {| getBeginAccess := Example.readG |} initialState
                 (OfGlobal Example.g) [IReturn]); reflexivity.
  - apply (HFound Example.readThenWrite Example.rpo Example.entryBlock
                  [Example.exitBlock] [Example.exitBlock] eq_refl eq_refl
                  Example_NoDup Example_wellFormed).
Defined.

(** ** The dedup policy *)

(** The scenarios of the specification for the dedup policy: three
    writes opened and none closed give one conflict; a write opened and
    closed, then two writes opened, give one conflict, between the
    later two. *)
Example dedup_three_writes :
  match transferInsts Example.ctx
          [IBeginAccess Example.writeA; IBeginAccess Example.writeB;
           IBeginAccess Example.writeC] initialState with
  | Ok St' =>
      ConflictingAccesses St' =
      [{| ca_Storage := OfGlobal Example.g; ca_FirstAccess := Example.writeA;
          ca_SecondAccess := Example.writeB |}]
  | Abort _ => False
  end.
Proof. vm_compute. reflexivity. Qed.

Example drain_resets_episode :
  match transferInsts Example.ctx
          [IBeginAccess Example.writeA; Example.endOf Example.writeA;
           IBeginAccess Example.writeB; IBeginAccess Example.writeC]
          initialState with
  | Ok St' =>
      ConflictingAccesses St' =
      [{| ca_Storage := OfGlobal Example.g; ca_FirstAccess := Example.writeB;
          ca_SecondAccess := Example.writeC |}]
  | Abort _ => False
  end.
Proof. vm_compute. reflexivity. Qed.

(** The claim C2 as stated fails: with write A open, write B is opened
    and closed and then write C is opened; the record of [g] never
    leaves the map, and two conflicts (A with B, A with C) are
    recorded. *)
Lemma second_report_before_drain :
  ~ oneReportUntilDrain Example.ctx (storageKey (OfGlobal Example.g))
      Example.nestedWrites.
Proof.
  intros H.
  destruct (transferInsts Example.ctx Example.nestedWrites initialState)
    as [St'|f] eqn:ET; [|vm_compute in ET; discriminate ET].
  specialize (H St' ET).
  assert (HC : conflictsOn (storageKey (OfGlobal Example.g))
                           (ConflictingAccesses St') = 2%nat).
  { vm_compute in ET. injection ET as <-. reflexivity. }
  rewrite HC in H. clear HC ET.
  assert (HFalse : (2 <= 1)%nat); [|lia].
  apply H. intros Pre Post St1 HEq HNE HT.
  destruct Pre as [|i1 [|i2 [|i3 [|i4 [|i5 Pre]]]]]; [congruence| | | | |];
    simpl in HEq; inversion HEq; subst;
    vm_compute in HT; injection HT as <-; vm_compute; discriminate.
Qed.

Lemma transferBeginAccess_Ok_first (BAI : BeginAccessInst) (St St' : WalkState)
    (Storage : AccessedStorage) :
  transferBeginAccess BAI St = Ok St' ->
  findAccessedStorage (getSource BAI) = Ok Storage ->
  let Info := lookupOrDefault (Accesses St) (storageKey Storage) in
  conflictsWithAccess Info (getAccessKind BAI) = true ->
  alreadyHadConflict Info = false ->
  FirstAccess Info <> None.
Proof.
  unfold transferBeginAccess. intros H HS. rewrite HS in H. simpl in H.
  cbv zeta. intros HC HA. rewrite HC, HA in H. simpl in H.
  destruct (FirstAccess _); [congruence | discriminate H].
Qed.

Lemma alreadyHadConflict_after_begin (Info : AccessInfo) (BAI : BeginAccessInst) :
  0 <= Reads Info -> 0 <= NonReads Info ->
  Reads Info + 1 < UINT_MOD -> NonReads Info + 1 < UINT_MOD ->
  conflictsWithAccess Info (getAccessKind BAI) = true
  \/ alreadyHadConflict Info = true ->
  alreadyHadConflict (beginCounted Info BAI) = true.
Proof.
  intros HR HN HR1 HN1 H.
  unfold alreadyHadConflict, conflictsWithAccess, beginCounted, isRead in *.
  simpl. destruct (SILAccessKind_eq (getAccessKind BAI) Read);
    rewrite ?uinc_small by lia;
    rewrite ?orb_true_iff, ?andb_true_iff, ?Z.ltb_lt in *; lia.
Qed.

(** C2, amended. A begin-access that conflicts appends a new conflict
    iff the record (before the new access is counted) does not satisfy
    [alreadyHadConflict]; a begin-access that does not conflict appends
    none.  Once a conflicting access is counted the record satisfies
    [alreadyHadConflict], and it keeps satisfying it while accesses are
    only begun, so that no second conflict is reported for the location
    in the meantime.  (An [end_access] can make the record leave
    [alreadyHadConflict] before it is empty.) *)
Theorem conflict_recorded_iff_not_alreadyHadConflict :
  forall (BAI : BeginAccessInst) (St St' : WalkState),
    transferBeginAccess BAI St = Ok St' ->
    exists Storage,
      findAccessedStorage (getSource BAI) = Ok Storage /\
      let Info := lookupOrDefault (Accesses St) (storageKey Storage) in
      let Info' := lookupOrDefault (Accesses St') (storageKey Storage) in
      (conflictsWithAccess Info (getAccessKind BAI) = true ->
       (alreadyHadConflict Info = false ->
        exists First,
          FirstAccess Info = Some First /\
          ConflictingAccesses St' =
          ConflictingAccesses St ++
            [{| ca_Storage := Storage; ca_FirstAccess := First;
                ca_SecondAccess := BAI |}])
       /\ (alreadyHadConflict Info = true ->
           ConflictingAccesses St' = ConflictingAccesses St))
      /\ (conflictsWithAccess Info (getAccessKind BAI) = false ->
          ConflictingAccesses St' = ConflictingAccesses St)
      /\ (0 <= Reads Info -> 0 <= NonReads Info ->
          Reads Info + 1 < UINT_MOD -> NonReads Info + 1 < UINT_MOD ->
          conflictsWithAccess Info (getAccessKind BAI) = true
          \/ alreadyHadConflict Info = true ->
          alreadyHadConflict Info' = true).
Proof.
  intros BAI St St' HT.
  destruct (transferBeginAccess_Ok_inv BAI St St' HT) as (Storage & HS & HSt).
  exists Storage. split; [exact HS|]. cbv zeta in *.
  pose proof (transferBeginAccess_Ok_first BAI St St' Storage HT HS) as HFirst.
  cbv zeta in HFirst.
  set (Info := lookupOrDefault (Accesses St) (storageKey Storage)) in *.
  subst St'. simpl. unfold newConflicts.
  split; [|split].
  - intros HC. rewrite HC. split.
    + intros HA. rewrite HA. simpl.
      destruct (FirstAccess Info) as [First|] eqn:EF.
      * exists First. auto.
      * exfalso. apply (HFirst HC HA). reflexivity.
    + intros HA. rewrite HA. simpl. apply app_nil_r.
  - intros HC. rewrite HC. simpl. apply app_nil_r.
  - intros HR HN HR1 HN1 H. unfold lookupOrDefault at 1.
    rewrite lookup_insert_eq. simpl.
    apply alreadyHadConflict_after_begin; assumption.
Qed.

Lemma conflict_recorded_iff_not_alreadyHadConflict_witness :
  exists St',
    transferBeginAccess Example.writeG
      {| Accesses := {[ storageKey (OfGlobal Example.g) :=
                          {| Reads := 1; NonReads := 0;
                             FirstAccess := Some Example.readG |} ]};
         ConflictingAccesses := []; CallsToSwap := [] |} = Ok St'
    /\ ConflictingAccesses St' =
       [{| ca_Storage := OfGlobal Example.g; ca_FirstAccess := Example.readG;
           ca_SecondAccess := Example.writeG |}].
Proof.
  set (St := {| Accesses := {[ storageKey (OfGlobal Example.g) :=
                                 {| Reads := 1; NonReads := 0;
                                    FirstAccess := Some Example.readG |} ]};
                ConflictingAccesses := []; CallsToSwap := [] |}).
  destruct (transferBeginAccess Example.writeG St) as [St'|f] eqn:ET;
    [|vm_compute in ET; discriminate ET].
  exists St'. split; [reflexivity|].
  destruct (conflict_recorded_iff_not_alreadyHadConflict Example.writeG St St' ET)
    as (Storage & HS & HConf & _).
  injection HS as <-.
  destruct (proj1 (HConf eq_refl) eq_refl) as (First & HF & HC).
  injection HF as <-. exact HC.
Defined.

(** ** The primary diagnostic *)

Lemma transferEndAccess_eq (EAI : EndAccessInst) (St : WalkState)
    (Storage : AccessedStorage) (Info : AccessInfo) :
  findAccessedStorage (EndAccessInst_getSource EAI) = Ok Storage ->
  Accesses St !! storageKey Storage = Some Info ->
  transferEndAccess EAI St =
  Ok {| Accesses :=
          if negb (hasAccessesInProgress (endAccess Info EAI))
          then delete (storageKey Storage) (Accesses St)
          else <[storageKey Storage := endAccess Info EAI]> (Accesses St);
        ConflictingAccesses := ConflictingAccesses St;
        CallsToSwap := CallsToSwap St |}.
Proof.
  intros HS HK. unfold transferEndAccess. rewrite HS. simpl. rewrite HK.
  reflexivity.
Qed.

(** The instruction loop on: read of [G] begun, write-like access to [G]
    begun, both ended in reverse order, return. *)
Lemma transferInsts_read_then_write (Ctx : ASTContext) (G : SILGlobalVariable)
    (R W : BeginAccessInst) (pR pW : Addr) :
  getAccessKind R = Read -> getAccessKind W <> Read ->
  getSource R = GlobalAddr pR G -> getSource W = GlobalAddr pW G ->
  transferInsts Ctx
    [IBeginAccess R; IBeginAccess W;
     IEndAccess {| getBeginAccess := W |}; IEndAccess {| getBeginAccess := R |};
     IReturn] initialState
  = Ok {| Accesses := ∅;
          ConflictingAccesses :=
            [{| ca_Storage := OfGlobal G; ca_FirstAccess := R;
                ca_SecondAccess := W |}];
          CallsToSwap := [] |}.
Proof.
  intros HR HW HSR HSW.
  apply SILAccessKind_eq_spec in HR. apply SILAccessKind_eq_false in HW.
  assert (HResR : findAccessedStorage (getSource R) = Ok (OfGlobal G))
    by (rewrite HSR; reflexivity).
  assert (HResW : findAccessedStorage (getSource W) = Ok (OfGlobal G))
    by (rewrite HSW; reflexivity).
  set (K := storageKey (OfGlobal G)).
  set (I1 := {| Reads := 1; NonReads := 0; FirstAccess := Some R |}).
  set (I2 := {| Reads := 1; NonReads := 1; FirstAccess := Some R |}).
  cbn [transferInsts transfer].
  (* begin_access [read] *)
  rewrite (transferBeginAccess_eq R initialState (OfGlobal G) HResR)
    by (right; split; reflexivity).
  cbn [bindR Accesses ConflictingAccesses CallsToSwap initialState].
  fold K. unfold lookupOrDefault at 1 2. rewrite lookup_empty.
  cbn [default from_option id].
  assert (HB1 : beginCounted AccessInfo_default R = I1).
  { unfold beginCounted, isRead. rewrite HR. reflexivity. }
  assert (HC1 : newConflicts AccessInfo_default (OfGlobal G) R = []).
  { unfold newConflicts, conflictsWithAccess. rewrite HR. reflexivity. }
  rewrite HB1, HC1. cbn [app].
  (* begin_access [modify] *)
  rewrite (transferBeginAccess_eq W _ (OfGlobal G) HResW);
    cbn [Accesses ConflictingAccesses CallsToSwap]; fold K;
    unfold lookupOrDefault; rewrite lookup_insert_eq;
    cbn [default from_option id]; [|left; discriminate].
  assert (HB2 : beginCounted I1 W = I2).
  { unfold beginCounted, isRead. rewrite HW. reflexivity. }
  assert (HC2 : newConflicts I1 (OfGlobal G) W =
                [{| ca_Storage := OfGlobal G; ca_FirstAccess := R;
                    ca_SecondAccess := W |}]).
  { unfold newConflicts, conflictsWithAccess. rewrite HW. reflexivity. }
  rewrite HB2, HC2. cbn [bindR app]. rewrite insert_insert_eq.
  (* end_access of the write *)
  rewrite (transferEndAccess_eq {| getBeginAccess := W |} _ (OfGlobal G) I2 HResW)
    by (cbn [Accesses]; fold K; apply lookup_insert_eq).
  assert (HE1 : endAccess I2 {| getBeginAccess := W |} = I1).
  { unfold endAccess. cbn [getBeginAccess]. rewrite HW. reflexivity. }
  rewrite HE1. cbn [bindR negb hasAccessesInProgress Accesses ConflictingAccesses
                   CallsToSwap I1 Reads NonReads Z.ltb Z.compare orb].
  fold K. fold I1. rewrite insert_insert_eq.
  (* end_access of the read *)
  rewrite (transferEndAccess_eq {| getBeginAccess := R |} _ (OfGlobal G) I1 HResR)
    by (cbn [Accesses]; fold K; apply lookup_insert_eq).
  assert (HE2 : hasAccessesInProgress (endAccess I1 {| getBeginAccess := R |})
                = false).
  { unfold endAccess. cbn [getBeginAccess]. rewrite HR. reflexivity. }
  rewrite HE2. cbn [bindR negb Accesses ConflictingAccesses CallsToSwap].
  fold K. rewrite delete_insert_eq, delete_empty.
  (* return *)
  rewrite bool_decide_eq_true_2 by apply map_size_empty. reflexivity.
Qed.

(** What [diagnoseExclusivityViolation] emits when it emits. *)
Lemma diagnoseExclusivityViolation_Ok (Storage : AccessedStorage)
    (Prior New : BeginAccessInst) (Swaps : list ApplyInst) (Ctx : ASTContext)
    (Ds : list Diagnostic) :
  diagnoseExclusivityViolation Storage Prior New Swaps Ctx = Ok Ds ->
  (isRead Prior && isRead New = false)
  /\ match getStorageDecl Storage with
     | Some VD =>
         exists Fix,
           tryFixItWithCallToCollectionSwapAt Prior New Swaps Ctx = Ok Fix
           /\ Ds = [primaryFor Ctx VD (mainAccess Prior New) Fix;
                    noteFor (noteAccess Prior New)]
     | None =>
         Ds = [primaryUnknownFor Ctx (mainAccess Prior New);
               noteFor (noteAccess Prior New)]
     end.
Proof.
  unfold diagnoseExclusivityViolation, mainAccess, noteAccess, getRequiredAccess,
    isRead.
  intros H. apply bindR_Ok in H as (u & HA & H). apply assertR_Ok in HA.
  apply negb_true_iff in HA. split; [exact HA|]. cbv beta zeta in H.
  destruct (getStorageDecl Storage) as [VD|].
  - destruct (tryFixItWithCallToCollectionSwapAt Prior New Swaps Ctx)
      as [Fix|f]; [|discriminate H].
    exists Fix. split; [reflexivity|]. simpl in H.
    destruct (SILAccessKind_eq (getAccessKind Prior) Read);
      inversion H; reflexivity.
  - simpl in H.
    destruct (SILAccessKind_eq (getAccessKind Prior) Read);
      inversion H; reflexivity.
Qed.

Lemma mainAccess_requires_exclusive (Prior New : BeginAccessInst) :
  isRead Prior && isRead New = false ->
  getRequiredAccess (mainAccess Prior New) = ExclusiveAccess.
Proof.
  unfold mainAccess, getRequiredAccess, isRead.
  destruct (SILAccessKind_eq (getAccessKind Prior) Read) eqn:EP; simpl.
  - intros ->. reflexivity.
  - intros _. rewrite EP. reflexivity.
Qed.

(** ** The swapAt fix-it *)

Lemma getAsCallExpr_isNull (L : SILLocation) :
  isNull L = true -> getAsCallExpr L = None.
Proof. unfold isNull, getAsCallExpr. destruct (loc_Node L); [discriminate|auto]. Qed.

Lemma getAsInOutExpr_isNull (L : SILLocation) (E : Expr) :
  getAsInOutExpr L = Some E -> isNull L = false.
Proof. unfold isNull, getAsInOutExpr. destruct (loc_Node L); [auto|discriminate]. Qed.

Lemma getAsCallExpr_Some (L : SILLocation) (E : Expr) :
  getAsCallExpr L = Some E -> exists i Fn Arg CV, E = CallExpr i Fn Arg CV.
Proof.
  unfold getAsCallExpr. destruct (loc_Node L) as [[[]| |]|]; try discriminate.
  intros [= <-]. eauto.
Qed.

Lemma getAsInOutExpr_Some (L : SILLocation) (E : Expr) :
  getAsInOutExpr L = Some E -> exists i Sub, E = InOutExpr i Sub.
Proof.
  unfold getAsInOutExpr. destruct (loc_Node L) as [[[]| |]|]; try discriminate.
  intros [= <-]. eauto.
Qed.

(** When the loop over the recorded calls does not stop on an assertion,
    it finds the first recorded call with the two arguments. *)
Lemma findSwapCall_Ok (Calls : list ApplyInst) (InOut1 InOut2 : Expr)
    (Ctx : ASTContext) (r : option SourceRange) :
  findSwapCall Calls InOut1 InOut2 Ctx = Ok r ->
  r = recordedSwapCall Calls InOut1 InOut2.
Proof.
  induction Calls as [|AI Calls IH]; simpl; [congruence|].
  destruct (isNull (ai_Loc AI)) eqn:EN.
  { rewrite (getAsCallExpr_isNull _ EN). exact IH. }
  destruct (getAsCallExpr (ai_Loc AI)) as [E|] eqn:EC; [|exact IH].
  destruct (getAsCallExpr_Some _ _ EC) as (i & Fn & Arg & CV & ->).
  destruct (assertR _ _); simpl; [|discriminate].
  destruct Arg as [| | |j Elements| | | |]; try discriminate.
  destruct Elements as [|Arg1 [|Arg2 Elements]]; simpl; try discriminate.
  destruct (Expr_ptr_eq Arg1 InOut1 && Expr_ptr_eq Arg2 InOut2); [congruence|].
  exact IH.
Qed.

Lemma recordedSwapCall_arguments (Calls : list ApplyInst) (InOut1 InOut2 : Expr)
    (CallRange : SourceRange) :
  recordedSwapCall Calls InOut1 InOut2 = Some CallRange ->
  argumentsOfRecordedSwap Calls InOut1 InOut2.
Proof.
  induction Calls as [|AI Calls IH]; simpl; [discriminate|].
  assert (HRest : recordedSwapCall Calls InOut1 InOut2 = Some CallRange ->
                  argumentsOfRecordedSwap (AI :: Calls) InOut1 InOut2).
  { intros H. destruct (IH H) as (AI' & i & Fn & j & Els & CV & A1 & A2 & HIn & HR).
    exists AI', i, Fn, j, Els, CV, A1, A2.
    split; [apply list_elem_of_further, HIn | exact HR]. }
  destruct (getAsCallExpr (ai_Loc AI)) as [E|] eqn:EC; [|exact HRest].
  destruct E as [| | | |i Fn Arg CV| | |]; try exact HRest.
  destruct Arg as [| | |j Elements| | | |]; try exact HRest.
  destruct Elements as [|Arg1 [|Arg2 Elements]]; try exact HRest.
  destruct (Expr_ptr_eq Arg1 InOut1 && Expr_ptr_eq Arg2 InOut2) eqn:EA;
    [|exact HRest].
  intros _. apply andb_true_iff in EA as [EA1 EA2].
  exists AI, i, Fn, j, (Arg1 :: Arg2 :: Elements), CV, Arg1, Arg2.
  repeat split; try assumption. apply list_elem_of_here.
Qed.

Lemma witnessesMutableCollection_Ok (Reqs : list (option Addr))
    (MC : option Addr) (b : bool) :
  witnessesMutableCollection Reqs MC = Ok b ->
  (b = true <-> MC ∈ Reqs /\ MC <> None).
Proof.
  induction Reqs as [|[P|] Reqs IH]; simpl.
  - intros [= <-]. split; [discriminate|]. intros [H _]. inversion H.
  - unfold ptr_eq. case_bool_decide as HP.
    + intros [= <-]. split; [|auto]. intros _. rewrite <- HP.
      split; [apply list_elem_of_here | discriminate].
    + intros H. rewrite (IH H). split.
      * intros [HIn HN]. split; [apply list_elem_of_further, HIn | exact HN].
      * intros [HIn HN]. split; [|exact HN].
        apply elem_of_cons in HIn as [HEq|HIn]; [congruence | exact HIn].
  - discriminate.
Qed.

Lemma isSubscriptOnMutableCollection_Ok (Decl : SubscriptDecl)
    (Ctx : ASTContext) (b : bool) :
  isSubscriptOnMutableCollection Decl Ctx = Ok b ->
  (b = true <-> onMutableCollection Decl Ctx).
Proof.
  unfold isSubscriptOnMutableCollection, onMutableCollection.
  destruct (sd_ProtocolContext Decl) as [P|].
  - intros [= <-]. unfold ptr_eq. apply bool_decide_eq_true.
  - apply witnessesMutableCollection_Ok.
Qed.

Lemma String_eqb_true (a b : string) : String.eqb a b = true <-> a = b.
Proof. apply String.eqb_eq. Qed.

(** The fix-it the code attaches, when it does not stop on an assertion:
    exactly under [fixItConditions]. *)
Lemma tryFixIt_Some_iff (Prior New : BeginAccessInst) (Calls : list ApplyInst)
    (Ctx : ASTContext) (r : option FixIt) :
  tryFixItWithCallToCollectionSwapAt Prior New Calls Ctx = Ok r ->
  forall Fix, r = Some Fix <-> fixItConditions Prior New Calls Ctx Fix.
Proof.
  intros H Fix. split.
  - intros ->. unfold tryFixItWithCallToCollectionSwapAt in H.
    destruct Calls as [|AI0 Calls0] eqn:ECalls; [discriminate H|].
    rewrite <- ECalls in H.
    destruct (negb (SILAccessKind_eq (getAccessKind Prior) Modify)
              || negb (SILAccessKind_eq (getAccessKind New) Modify)) eqn:EK;
      [discriminate H|].
    apply orb_false_iff in EK as [EK1 EK2].
    apply negb_false_iff, SILAccessKind_eq_spec in EK1, EK2.
    destruct (isNull (getLoc Prior) || isNull (getLoc New)); [discriminate H|].
    destruct (getAsInOutExpr (getLoc Prior)) as [IO1|] eqn:E1; [|discriminate H].
    destruct (getAsInOutExpr_Some _ _ E1) as (i1 & Sub1 & ->).
    destruct (getAsInOutExpr (getLoc New)) as [IO2|] eqn:E2; [|discriminate H].
    destruct (getAsInOutExpr_Some _ _ E2) as (i2 & Sub2 & ->).
    destruct (findSwapCall Calls _ _ Ctx) as [Found|f] eqn:EF; [|discriminate H].
    apply findSwapCall_Ok in EF. simpl in H.
    destruct Found as [CallRange|]; [|discriminate H].
    destruct Sub1 as [|j1 Base1 Idx1 Decl1| | | | | |]; try discriminate H.
    destruct Sub2 as [|j2 Base2 Idx2 Decl2| | | | | |]; try discriminate H.
    destruct (negb (sd_self Decl1 =? sd_self Decl2)%N) eqn:ED; [discriminate H|].
    apply negb_false_iff, N.eqb_eq in ED.
    destruct (isSubscriptOnMutableCollection Decl1 Ctx) as [b|f] eqn:EM;
      [|discriminate H].
    simpl in H. destruct b; [|discriminate H].
    apply isSubscriptOnMutableCollection_Ok in EM. apply proj1 in EM.
    specialize (EM eq_refl). simpl in H.
    destruct (negb (String.eqb _ _)) eqn:ET; [discriminate H|].
    apply negb_false_iff, String_eqb_true in ET.
    destruct Idx1 as [| |p1 IndexSub1| | | | |]; try discriminate H.
    destruct Idx2 as [| |p2 IndexSub2| | | | |]; try discriminate H.
    injection H as <-.
    split; [exact EK1|]. split; [exact EK2|].
    exists i1, j1, Base1, p1, IndexSub1, Decl1, i2, j2, Base2, p2, IndexSub2,
      Decl2, CallRange.
    rewrite <- ECalls. repeat split; auto.
  - intros (HK1 & HK2 & i1 & j1 & Base1 & p1 & IndexSub1 & Decl1
            & i2 & j2 & Base2 & p2 & IndexSub2 & Decl2 & CallRange
            & E1 & E2 & ER & ED & EM & ET & ->).
    unfold tryFixItWithCallToCollectionSwapAt in H.
    destruct Calls as [|AI0 Calls0] eqn:ECalls; [discriminate ER|].
    rewrite <- ECalls in *. clear ECalls AI0 Calls0.
    rewrite HK1, HK2 in H. cbn [SILAccessKind_eq negb orb] in H.
    rewrite (getAsInOutExpr_isNull _ _ E1), (getAsInOutExpr_isNull _ _ E2) in H.
    cbn [orb] in H. rewrite E1, E2 in H.
    destruct (findSwapCall Calls _ _ Ctx) as [Found|f] eqn:EF; [|discriminate H].
    apply findSwapCall_Ok in EF. rewrite ER in EF. subst Found.
    cbn [bindR] in H.
    apply N.eqb_eq in ED. rewrite ED in H. cbn [negb] in H.
    destruct (isSubscriptOnMutableCollection Decl1 Ctx) as [b|f] eqn:EMb;
      [|discriminate H].
    apply isSubscriptOnMutableCollection_Ok in EMb. apply proj2 in EMb.
    rewrite (EMb EM) in H. cbn [bindR negb] in H.
    apply String_eqb_true in ET. rewrite ET in H. cbn [negb] in H.
    injection H as <-. reflexivity.
Qed.

Lemma fixItConditions_spec (Prior New : BeginAccessInst) (Calls : list ApplyInst)
    (Ctx : ASTContext) (Fix : FixIt) :
  fixItConditions Prior New Calls Ctx Fix ->
  specFixItPreconditions Prior New Calls Ctx.
Proof.
  intros (HK1 & HK2 & i1 & j1 & Base1 & p1 & IndexSub1 & Decl1
          & i2 & j2 & Base2 & p2 & IndexSub2 & Decl2 & CallRange
          & E1 & E2 & ER & ED & EM & ET & _).
  split; [congruence|]. split; [congruence|].
  exists i1, j1, Base1, (ParenExpr p1 IndexSub1), Decl1,
    i2, j2, Base2, (ParenExpr p2 IndexSub2), Decl2.
  repeat split; try assumption.
  eapply recordedSwapCall_arguments, ER.
Qed.

(** The scenarios of the specification for the fix-it. *)
Example swap_same_collection :
  let Fn := Example.swapFunction Example.access1 Example.access2 Example.swapCall in
  checkStaticExclusivity Fn (Blocks Fn)
  = Ok [primaryFor Example.swapCtx Example.c_decl Example.access1
          (Some {| fix_Range := Example.range 0 18;
                   fix_Text := "c.swapAt(i, j)" |});
        noteFor Example.access2].
Proof. vm_compute. reflexivity. Qed.

Example swap_different_collections :
  let Fn := Example.swapFunction Example.access1 Example.access2d
              (Example.swapCallOf Example.inout1 Example.inout2d) in
  checkStaticExclusivity Fn (Blocks Fn)
  = Ok [primaryFor Example.swapCtx Example.c_decl Example.access1 None;
        noteFor Example.access2d].
Proof. vm_compute. reflexivity. Qed.

(** With well-typed syntax the fix-it and the emission never stop. *)
Lemma findSwapCall_total (Calls : list ApplyInst) (InOut1 InOut2 : Expr)
    (Ctx : ASTContext) :
  Forall (wellFormedSwapCall Ctx) Calls ->
  exists r, findSwapCall Calls InOut1 InOut2 Ctx = Ok r.
Proof.
  induction 1 as [|AI Calls HAI _ IH]; simpl; [eauto|].
  destruct (isNull (ai_Loc AI)); [exact IH|].
  unfold wellFormedSwapCall in HAI.
  destruct (getAsCallExpr (ai_Loc AI)) as [E|] eqn:EC; [|exact IH].
  destruct (getAsCallExpr_Some _ _ EC) as (i & Fn & Arg & CV & ->).
  destruct Arg as [| | |j Elements| | | |]; try contradiction.
  destruct Elements as [|Arg1 [|Arg2 Elements]]; try contradiction.
  rewrite HAI. simpl.
  destruct (Expr_ptr_eq Arg1 InOut1 && Expr_ptr_eq Arg2 InOut2); [eauto|exact IH].
Qed.

Lemma witnessesMutableCollection_total (Reqs : list (option Addr))
    (MC : option Addr) :
  Forall (fun ReqProto => ReqProto <> None) Reqs ->
  exists b, witnessesMutableCollection Reqs MC = Ok b.
Proof.
  induction 1 as [|[P|] Reqs HP _ IH]; simpl; [eauto| |congruence].
  destruct (ptr_eq (Some P) MC); [eauto | exact IH].
Qed.

Lemma tryFixIt_total (Prior New : BeginAccessInst) (Calls : list ApplyInst)
    (Ctx : ASTContext) :
  wellTypedSyntax Ctx Calls Prior ->
  exists r, tryFixItWithCallToCollectionSwapAt Prior New Calls Ctx = Ok r.
Proof.
  intros [HCalls HReq]. unfold tryFixItWithCallToCollectionSwapAt.
  destruct Calls as [|AI0 Calls0] eqn:ECalls; [eauto|]. rewrite <- ECalls in *.
  destruct (_ || _); [eauto|].
  destruct (isNull (getLoc Prior) || isNull (getLoc New)); [eauto|].
  unfold subscriptDeclOf in HReq.
  destruct (getAsInOutExpr (getLoc Prior)) as [IO1|] eqn:E1; [|eauto].
  destruct (getAsInOutExpr_Some _ _ E1) as (i1 & Sub1 & ->).
  destruct (getAsInOutExpr (getLoc New)) as [IO2|] eqn:E2; [|eauto].
  destruct (getAsInOutExpr_Some _ _ E2) as (i2 & Sub2 & ->).
  destruct (findSwapCall_total Calls (InOutExpr i1 Sub1) (InOutExpr i2 Sub2)
              Ctx HCalls) as [Found ->].
  simpl. destruct Found as [CallRange|]; [|eauto].
  destruct Sub1 as [|j1 Base1 Idx1 Decl1| | | | | |]; eauto.
  destruct Sub2 as [|j2 Base2 Idx2 Decl2| | | | | |]; eauto.
  destruct (negb (sd_self Decl1 =? sd_self Decl2)%N); [eauto|].
  assert (HM : exists b, isSubscriptOnMutableCollection Decl1 Ctx = Ok b).
  { unfold isSubscriptOnMutableCollection.
    destruct (sd_ProtocolContext Decl1); [eauto|].
    apply witnessesMutableCollection_total, HReq. reflexivity. }
  destruct HM as [b ->]. simpl. destruct b; simpl; [|eauto].
  destruct (negb (String.eqb _ _)); [eauto|].
  destruct Idx1; eauto. destruct Idx2; eauto.
Qed.

Lemma diagnoseExclusivityViolation_total (Storage : AccessedStorage)
    (Prior New : BeginAccessInst) (Calls : list ApplyInst) (Ctx : ASTContext) :
  isRead Prior && isRead New = false ->
  wellTypedSyntax Ctx Calls Prior ->
  exists Ds, diagnoseExclusivityViolation Storage Prior New Calls Ctx = Ok Ds.
Proof.
  intros HNot HSyn. unfold diagnoseExclusivityViolation.
  unfold isRead in HNot. rewrite HNot. simpl.
  destruct (getStorageDecl Storage) as [VD|]; simpl; [|eauto].
  destruct (tryFixIt_total Prior New Calls Ctx HSyn) as [r ->]. simpl. eauto.
Qed.

Lemma fixItConditions_plainParenIndex (Prior New : BeginAccessInst)
    (Calls : list ApplyInst) (Ctx : ASTContext) (Fix : FixIt) :
  fixItConditions Prior New Calls Ctx Fix ->
  plainParenIndex Prior /\ plainParenIndex New.
Proof.
  intros (_ & _ & i1 & j1 & Base1 & p1 & IndexSub1 & Decl1
          & i2 & j2 & Base2 & p2 & IndexSub2 & Decl2 & CallRange
          & E1 & E2 & _).
  unfold plainParenIndex, subscriptIndex. rewrite E1, E2.
  split; do 2 eexists; reflexivity.
Qed.

(** The fix-it of the primary diagnostic. *)
Lemma diagnoseExclusivityViolation_fixIt (Storage : AccessedStorage)
    (Prior New : BeginAccessInst) (Calls : list ApplyInst) (Ctx : ASTContext)
    (Ds : list Diagnostic) :
  diagnoseExclusivityViolation Storage Prior New Calls Ctx = Ok Ds ->
  exists Main,
    Ds = [Main; noteFor (noteAccess Prior New)]
    /\ diag_Loc Main = loc_SourceLoc (getLoc (mainAccess Prior New))
    /\ forall Fix,
         diag_FixIt Main = Some Fix <->
         getStorageDecl Storage <> None
         /\ fixItConditions Prior New Calls Ctx Fix.
Proof.
  intros H. apply diagnoseExclusivityViolation_Ok in H as [_ H].
  destruct (getStorageDecl Storage) as [VD|].
  - destruct H as (r & HT & ->). eexists. split; [reflexivity|].
    split; [reflexivity|]. intros Fix. simpl.
    rewrite (tryFixIt_Some_iff Prior New Calls Ctx r HT Fix).
    split; [intros HF; split; [discriminate | exact HF] | tauto].
  - subst Ds. eexists. split; [reflexivity|]. split; [reflexivity|].
    intros Fix. simpl. split; [discriminate | intros [HN _]; congruence].
Qed.

(** X20. Whenever a recorded conflict is emitted, the primary diagnostic
    is sited at an access that requires exclusive access (the prior
    access if it is write-like, else the new one) and the second
    diagnostic is the note at the other access.  A recorded conflict is
    emitted when it does not pair two reads and the syntax is well typed,
    and the traversal of a function with nested markers records no
    conflict that pairs two reads.  In particular, a function that
    begins a read of a global [g] and, before ending it, begins a
    write-like access to [g] gets exactly one primary diagnostic, at the
    write and naming [g], with the note at the read. *)
Theorem primary_diagnostic_at_exclusive_access :
  (forall (Storage : AccessedStorage) (Prior New : BeginAccessInst)
          (Swaps : list ApplyInst) (Ctx : ASTContext) (Ds : list Diagnostic),
      diagnoseExclusivityViolation Storage Prior New Swaps Ctx = Ok Ds ->
      exists Main,
        Ds = [Main; noteFor (noteAccess Prior New)]
        /\ getRequiredAccess (mainAccess Prior New) = ExclusiveAccess
        /\ diag_Loc Main = loc_SourceLoc (getLoc (mainAccess Prior New))
        /\ diag_Highlight Main = loc_SourceRange (getLoc (mainAccess Prior New))
        /\ diag_ID Main <> exclusivity_conflicting_access
        /\ (mainAccess Prior New = Prior /\ noteAccess Prior New = New
            \/ mainAccess Prior New = New /\ noteAccess Prior New = Prior))
  /\
  (forall (Storage : AccessedStorage) (Prior New : BeginAccessInst)
          (Swaps : list ApplyInst) (Ctx : ASTContext),
      isRead Prior && isRead New = false ->
      wellTypedSyntax Ctx Swaps Prior ->
      exists Ds, diagnoseExclusivityViolation Storage Prior New Swaps Ctx = Ok Ds)
  /\
  (forall (Fn : SILFunction) (RPO : list SILBasicBlock)
          (Entry : SILBasicBlock) (Rest Rest' : list SILBasicBlock)
          (FnSt : FunctionState),
      Blocks Fn = Entry :: Rest -> RPO = Entry :: Rest' ->
      NoDup (bb_self <$> RPO) ->
      nestedMarkers RPO (bb_self Entry) ->
      traverse Fn RPO = Ok FnSt ->
      Forall notBothReads (fs_ConflictingAccesses FnSt))
  /\
  (forall (Ctx : ASTContext) (G : SILGlobalVariable) (VD : ValueDecl)
          (R W : BeginAccessInst) (pR pW self : Addr),
      gv_Decl G = Some VD ->
      getAccessKind R = Read -> getAccessKind W <> Read ->
      getSource R = GlobalAddr pR G -> getSource W = GlobalAddr pW G ->
      let BB := {| bb_self := self; getPredecessorBlocks := [];
                   Insts := [IBeginAccess R; IBeginAccess W;
                             IEndAccess {| getBeginAccess := W |};
                             IEndAccess {| getBeginAccess := R |};
                             IReturn] |} in
      checkStaticExclusivity {| Blocks := [BB]; getASTContext := Ctx |} [BB]
      = Ok [primaryFor Ctx VD W None; noteFor R]).
Proof.
  split; [|split; [|split]].
  - intros Storage Prior New Swaps Ctx Ds H.
    apply diagnoseExclusivityViolation_Ok in H as [HNot HDs].
    pose proof (mainAccess_requires_exclusive Prior New HNot) as HEx.
    assert (HWhich : mainAccess Prior New = Prior /\ noteAccess Prior New = New
                     \/ mainAccess Prior New = New /\ noteAccess Prior New = Prior).
    { unfold mainAccess, noteAccess. destruct (isRead Prior); auto. }
    destruct (getStorageDecl Storage) as [VD|].
    + destruct HDs as (Fix & _ & ->). eexists. split; [reflexivity|].
      repeat split; try assumption. simpl.
      destruct (isSwiftVersion3 Ctx); discriminate.
    + subst Ds. eexists. split; [reflexivity|].
      repeat split; try assumption. simpl.
      destruct (isSwiftVersion3 Ctx); discriminate.
  - apply diagnoseExclusivityViolation_total.
  - intros Fn RPO Entry Rest Rest' FnSt HFn HRPO HND HWF HT.
    pose proof (traverse_nested Fn RPO Entry Rest Rest' HFn HRPO HND HWF) as HN.
    rewrite HT in HN. exact HN.
  - intros Ctx G VD R W pR pW self HVD HR HW HSR HSW BB.
    unfold checkStaticExclusivity, traverse. cbn [Blocks getASTContext visitBlocks].
    unfold visitBlock. cbn [BlockOutAccesses bb_self BB getPredecessorBlocks Insts
                            fs_ConflictingAccesses fs_CallsToSwap].
    rewrite !lookup_singleton_eq. cbn [predecessorState default from_option id].
    change {| Accesses := ∅; ConflictingAccesses := []; CallsToSwap := [] |}
      with initialState.
    rewrite (transferInsts_read_then_write Ctx G R W pR pW HR HW HSR HSW).
    cbn [bindR ConflictingAccesses CallsToSwap Accesses fs_ConflictingAccesses
         fs_CallsToSwap emitViolations ca_Storage ca_FirstAccess ca_SecondAccess].
    unfold diagnoseExclusivityViolation, getRequiredAccess.
    apply SILAccessKind_eq_spec in HR. apply SILAccessKind_eq_false in HW.
    rewrite HR, HW. cbn [andb negb assertR bindR getStorageDecl].
    rewrite HVD. cbn [tryFixItWithCallToCollectionSwapAt bindR app].
    reflexivity.
Qed.

Lemma oneBlock_paths (B : SILBasicBlock) (P : list SILBasicBlock) :
  getPredecessorBlocks B = [] ->
  cfgPath [B] (bb_self B) P -> P = [B].
Proof.
  intros HP0. induction 1 as [B0 HB HE|B' B0 P HP IH HB' HEdge].
  - apply list_elem_of_singleton in HB. subst B0. reflexivity.
  - apply list_elem_of_singleton in HB'. subst B'.
    rewrite HP0 in HEdge. inversion HEdge.
Qed.

(** C5. The walker records a conflict between two reads, which the
    pass cannot diagnose at an access that requires exclusive access.
    The function begins a read of the global [g], begins a write to [g],
    ends the read, and begins and ends a second read before it ends the
    write and returns.  Its access markers are balanced, though not
    nested.  When the first read ends, the record of [g] keeps it as
    [FirstAccess] although it is no longer in progress; the second read
    conflicts with the write, and is recorded against the first read.
    Neither access of that record requires exclusive access, and the
    pass stops at the assertion that a conflict does not pair two
    reads. *)
Theorem two_reads_recorded_as_conflict :
  wellFormedMarkers [Example.overlapBlock] 1%N
  /\ ~ nestedMarkers [Example.overlapBlock] 1%N
  /\ (exists St,
        transferInsts Example.ctx
          [IBeginAccess Example.readG; IBeginAccess Example.writeG;
           Example.endOf Example.readG] initialState = Ok St
        /\ Accesses St !! storageKey (OfGlobal Example.g)
           = Some {| Reads := 0; NonReads := 1;
                     FirstAccess := Some Example.readG |})
  /\ (exists FnSt,
        traverse Example.readEndedInsideWrite [Example.overlapBlock] = Ok FnSt
        /\ fs_ConflictingAccesses FnSt
           = [ {| ca_Storage := OfGlobal Example.g;
                  ca_FirstAccess := Example.readG;
                  ca_SecondAccess := Example.writeG |};
               {| ca_Storage := OfGlobal Example.g;
                  ca_FirstAccess := Example.readG;
                  ca_SecondAccess := Example.readAgainG |} ])
  /\ getRequiredAccess Example.readG = SharedAccess
  /\ getRequiredAccess Example.readAgainG = SharedAccess
  /\ getRequiredAccess (mainAccess Example.readG Example.readAgainG) = SharedAccess
  /\ checkStaticExclusivity Example.readEndedInsideWrite [Example.overlapBlock]
     = Abort (AssertionFailure "Can't have a conflict if both accesses are reads.").
Proof.
  assert (HPath : cfgPath [Example.overlapBlock] 1%N [Example.overlapBlock]).
  { apply cfgPath_entry; [apply list_elem_of_here | reflexivity]. }
  split; [|split; [|split; [|split]]].
  - intros P HP.
    apply (oneBlock_paths Example.overlapBlock P eq_refl) in HP. subst P.
    exists []. unfold pathInsts, Example.endOf. simpl.
    apply balanced_begin; [reflexivity|].
    apply balanced_begin; [reflexivity|].
    apply (balanced_end [Example.writeG] [] {| getBeginAccess := Example.readG |}).
    apply balanced_begin; [reflexivity|].
    apply (balanced_end [] [Example.writeG]
             {| getBeginAccess := Example.readAgainG |}).
    apply (balanced_end [] [] {| getBeginAccess := Example.writeG |}).
    apply balanced_return. apply balanced_nil.
  - intros HN. destruct (HN _ HPath) as [Open H].
    unfold pathInsts, Example.endOf in H. simpl in H.
    inversion H as [|? ? ? ? _ H1| | | |]; subst.
    inversion H1 as [|? ? ? ? _ H2| | | |]; subst.
    inversion H2 as [| |? EAI ? ? _ HE HEAI| | |]. subst EAI.
    discriminate HE.
  - destruct (transferInsts Example.ctx _ initialState) as [St|f] eqn:HT;
      [|vm_compute in HT; discriminate HT].
    exists St. split; [reflexivity|].
    vm_compute in HT. injection HT as <-. reflexivity.
  - destruct (traverse Example.readEndedInsideWrite [Example.overlapBlock])
      as [FnSt|f] eqn:HT; [|vm_compute in HT; discriminate HT].
    exists FnSt. split; [reflexivity|].
    vm_compute in HT. injection HT as <-. reflexivity.
  - repeat split; vm_compute; reflexivity.
Qed.

Lemma Example_specFixItPreconditions (Source : SILValue) :
  specFixItPreconditions (Example.modifyAt 31%N Source Example.inout1 5%N)
                         (Example.modifyAt 32%N Source Example.inout2 12%N)
                         [Example.applyAt Example.swapCall] Example.swapCtx.
Proof.
  split; [discriminate|]. split; [discriminate|].
  do 10 eexists. split; [reflexivity|]. split; [reflexivity|].
  split; [reflexivity|]. split.
  { split; [|discriminate]. simpl. apply list_elem_of_further, list_elem_of_here. }
  split; [reflexivity|].
  exists (Example.applyAt Example.swapCall). do 7 eexists.
  split; [apply list_elem_of_here|]. split; [reflexivity|].
  split; [reflexivity|]. split; [reflexivity|]. split; reflexivity.
Qed.

(** The claim C6 as stated fails: in [swap(&c[i], &c[j])] with [c]
    reached through an addressor every listed precondition holds, but the
    storage has no declaration to name, and the diagnostic for storage
    without a declaration carries no fix-it. *)
Lemma no_fixIt_without_declaration :
  ~ fixItIffSpecPreconditions (OfValue Example.c_addressor)
      Example.access1addressor Example.access2addressor
      [Example.applyAt Example.swapCall] Example.swapCtx.
Proof.
  intros H.
  specialize (H (primaryUnknownFor Example.swapCtx Example.access1addressor)
                (noteFor Example.access2addressor) eq_refl).
  destruct (proj2 H (Example_specFixItPreconditions Example.c_addressor))
    as [Fix HFix].
  discriminate HFix.
Qed.

(** C6, amended. When a conflict is emitted, the primary diagnostic and
    the note are emitted whether or not a fix-it is attached, and a
    conflict that does not pair two reads is emitted whenever the syntax
    is well typed: a failed condition suppresses only the fix-it.  A fix-it
    is attached iff the storage has a declaration to name, both accesses
    are [modify] accesses, both are inout expressions around subscript
    expressions with the same subscript declaration, which is declared
    in or witnesses the mutable collection protocol, the base expressions
    have the same text, both index expressions are single parenthesised
    expressions, and the two inout expressions are the first and second
    argument of a recorded call to swap.  The fix-it replaces the range
    of that call by [<base>.swapAt(<index1>, <index2>)].  In particular
    an attached fix-it implies all preconditions the specification
    lists. *)
Theorem swapAt_fixIt_conditions :
  (forall (Storage : AccessedStorage) (Prior New : BeginAccessInst)
          (Calls : list ApplyInst) (Ctx : ASTContext) (Ds : list Diagnostic),
      diagnoseExclusivityViolation Storage Prior New Calls Ctx = Ok Ds ->
      exists Main,
        Ds = [Main; noteFor (noteAccess Prior New)]
        /\ diag_Loc Main = loc_SourceLoc (getLoc (mainAccess Prior New))
        /\ (forall Fix,
              diag_FixIt Main = Some Fix <->
              getStorageDecl Storage <> None
              /\ fixItConditions Prior New Calls Ctx Fix)
        /\ (forall Fix,
              diag_FixIt Main = Some Fix ->
              specFixItPreconditions Prior New Calls Ctx
              /\ exists BaseText Index1Text Index2Text,
                   fix_Text Fix = swapAtText BaseText Index1Text Index2Text))
  /\
  (forall (Storage : AccessedStorage) (Prior New : BeginAccessInst)
          (Calls : list ApplyInst) (Ctx : ASTContext),
      isRead Prior && isRead New = false ->
      wellTypedSyntax Ctx Calls Prior ->
      exists Main,
        diagnoseExclusivityViolation Storage Prior New Calls Ctx
        = Ok [Main; noteFor (noteAccess Prior New)]).
Proof.
  split.
  - intros Storage Prior New Calls Ctx Ds H.
    destruct (diagnoseExclusivityViolation_fixIt Storage Prior New Calls Ctx Ds H)
      as (Main & HDs & HLoc & HFix).
    exists Main. split; [exact HDs|]. split; [exact HLoc|]. split; [exact HFix|].
    intros Fix HF. apply HFix in HF as [_ HC].
    split; [eapply fixItConditions_spec, HC|].
    destruct HC as (_ & _ & i1 & j1 & Base1 & p1 & IndexSub1 & Decl1
                    & i2 & j2 & Base2 & p2 & IndexSub2 & Decl2 & CallRange
                    & _ & _ & _ & _ & _ & _ & ->).
    simpl. eauto.
  - intros Storage Prior New Calls Ctx HNot HSyn.
    destruct (diagnoseExclusivityViolation_total Storage Prior New Calls Ctx
                HNot HSyn) as [Ds HDs].
    destruct (diagnoseExclusivityViolation_fixIt Storage Prior New Calls Ctx Ds HDs)
      as (Main & -> & _).
    exists Main. exact HDs.
Qed.

Lemma swapAt_fixIt_conditions_witness :
  (exists Main,
    diagnoseExclusivityViolation (OfValue Example.c_box)
      Example.access1 Example.access2
      [Example.applyAt Example.swapCall] Example.swapCtx
    = Ok [Main; noteFor Example.access2]
    /\ exists Fix, diag_FixIt Main = Some Fix
                   /\ specFixItPreconditions Example.access1 Example.access2
                        [Example.applyAt Example.swapCall] Example.swapCtx)
  /\ (exists Main,
        diagnoseExclusivityViolation (OfValue Example.c_box)
          Example.access1 Example.access2
          [Example.applyAt Example.swapCall] Example.swapCtx
        = Ok [Main; noteFor (noteAccess Example.access1 Example.access2)]).
Proof.
  split.
  - destruct (proj1 swapAt_fixIt_conditions (OfValue Example.c_box)
                Example.access1 Example.access2
                [Example.applyAt Example.swapCall] Example.swapCtx
                _ eq_refl) as (Main & HDs & _ & _ & HSpec).
    exists Main. injection HDs as <-. split; [reflexivity|].
    eexists. split; [reflexivity|]. apply (HSpec _ eq_refl).
  - apply (proj2 swapAt_fixIt_conditions).
    + reflexivity.
    + split.
      * constructor; [reflexivity | constructor].
      * intros Decl H. injection H as <-.
        repeat constructor; discriminate.
Defined.

(** C10. Beyond the preconditions the specification lists, the fix-it
    needs the index expression of each subscript to be a single
    parenthesised expression: an attached fix-it implies it, and a
    conflict whose subscript index has another shape gets its diagnostic
    without a fix-it even when every listed precondition holds. *)
Theorem swapAt_fixIt_needs_paren_index :
  (forall (Prior New : BeginAccessInst) (Calls : list ApplyInst)
          (Ctx : ASTContext) (Fix : FixIt),
      tryFixItWithCallToCollectionSwapAt Prior New Calls Ctx = Ok (Some Fix) ->
      plainParenIndex Prior /\ plainParenIndex New)
  /\
  (forall (Storage : AccessedStorage) (Prior New : BeginAccessInst)
          (Calls : list ApplyInst) (Ctx : ASTContext) (Ds : list Diagnostic),
      diagnoseExclusivityViolation Storage Prior New Calls Ctx = Ok Ds ->
      specFixItPreconditions Prior New Calls Ctx ->
      ~ (plainParenIndex Prior /\ plainParenIndex New) ->
      exists Main,
        Ds = [Main; noteFor (noteAccess Prior New)] /\ diag_FixIt Main = None).
Proof.
  split.
  - intros Prior New Calls Ctx Fix H.
    apply (fixItConditions_plainParenIndex Prior New Calls Ctx Fix).
    apply (tryFixIt_Some_iff Prior New Calls Ctx (Some Fix) H). reflexivity.
  - intros Storage Prior New Calls Ctx Ds H _ HNot.
    destruct (diagnoseExclusivityViolation_fixIt Storage Prior New Calls Ctx Ds H)
      as (Main & HDs & _ & HFix).
    exists Main. split; [exact HDs|].
    destruct (diag_FixIt Main) as [Fix|] eqn:EF; [|reflexivity].
    exfalso. apply HNot.
    apply (fixItConditions_plainParenIndex Prior New Calls Ctx Fix).
    apply HFix. reflexivity.
Qed.

Lemma Example_pair_specFixItPreconditions :
  specFixItPreconditions Example.access1pair Example.access2
    [Example.applyAt (Example.swapCallOf Example.inout1pair Example.inout2)]
    Example.swapCtx.
Proof.
  split; [discriminate|]. split; [discriminate|].
  do 10 eexists. split; [reflexivity|]. split; [reflexivity|].
  split; [reflexivity|]. split.
  { split; [|discriminate]. simpl. apply list_elem_of_further, list_elem_of_here. }
  split; [reflexivity|].
  eexists. do 7 eexists.
  split; [apply list_elem_of_here|]. split; [reflexivity|].
  split; [reflexivity|]. split; [reflexivity|]. split; reflexivity.
Qed.

Lemma Example_pair_not_paren :
  ~ (plainParenIndex Example.access1pair /\ plainParenIndex Example.access2).
Proof. intros [(p & Sub & H) _]. discriminate H. Qed.

Lemma swapAt_fixIt_needs_paren_index_witness :
  exists Main,
    diagnoseExclusivityViolation (OfValue Example.c_box)
      Example.access1pair Example.access2
      [Example.applyAt (Example.swapCallOf Example.inout1pair Example.inout2)]
      Example.swapCtx
    = Ok [Main; noteFor Example.access2]
    /\ diag_FixIt Main = None.
Proof.
  destruct (proj2 swapAt_fixIt_needs_paren_index (OfValue Example.c_box)
              Example.access1pair Example.access2
              [Example.applyAt (Example.swapCallOf Example.inout1pair Example.inout2)]
              Example.swapCtx _ eq_refl
              Example_pair_specFixItPreconditions Example_pair_not_paren)
    as (Main & HDs & HNone).
  exists Main. injection HDs as <-. split; reflexivity.
Defined.

(** ** The theorems at concrete inputs *)

Lemma conflictsWithAccess_spec_witness :
  (conflictsWithAccess {| Reads := 2; NonReads := 0;
                          FirstAccess := Some Example.readG |} Read = true
   <-> 0 < 0)
  /\ exists St',
       transferInsts Example.ctx
         [IBeginAccess Example.readG; IBeginAccess Example.readG';
          Example.endOf Example.readG'; Example.endOf Example.readG]
         initialState = Ok St'
       /\ ConflictingAccesses St' = [].
Proof.
  destruct conflictsWithAccess_spec as [HTest HRun].
  split.
  - apply (HTest {| Reads := 2; NonReads := 0;
                    FirstAccess := Some Example.readG |} Read).
  - destruct (transferInsts Example.ctx
                [IBeginAccess Example.readG; IBeginAccess Example.readG';
                 Example.endOf Example.readG'; Example.endOf Example.readG]
                initialState) as [St'|f] eqn:HT;
      [|vm_compute in HT; discriminate HT].
    exists St'. split; [reflexivity|].
    apply (HRun Example.ctx
             [IBeginAccess Example.readG; IBeginAccess Example.readG';
              Example.endOf Example.readG'; Example.endOf Example.readG]
             initialState St'); [| |exact HT].
    + repeat (apply Forall_cons; split; [reflexivity|]). apply Forall_nil. exact I.
    + intros K Info HK. simpl in HK. rewrite lookup_empty in HK. discriminate HK.
Defined.

Lemma isEqual_no_false_merge_witness :
  isEqual (OfValue Example.c_box) (OfGlobal Example.g) = false
  /\ isEqual (OfValue Example.c_box) (OfValue Example.c_addressor) = false
  /\ sameStorage (OfGlobal Example.g) (OfGlobal Example.g).
Proof.
  split; [|split].
  - apply (proj1 (isEqual_no_false_merge (OfValue Example.c_box)
                                         (OfGlobal Example.g))).
    discriminate.
  - apply (proj1 (proj2 (isEqual_no_false_merge
                           (OfValue Example.c_box)
                           (OfValue Example.c_addressor)))
             Example.c_box Example.c_addressor eq_refl eq_refl).
    discriminate.
  - apply (proj2 (proj2 (proj2 (isEqual_no_false_merge
                                  (OfGlobal Example.g) (OfGlobal Example.g))))).
    reflexivity.
Defined.

Lemma findAccessedStorage_faults_outside_allow_list_witness :
  Example.enumPayload ∈ producerChain Example.payloadField
  /\ isRecognizedProducer Example.enumPayload = false
  /\ findAccessedStorage Example.payloadField = Abort unexpected_access_source.
Proof.
  assert (HIn : Example.enumPayload ∈ producerChain Example.payloadField).
  { simpl. apply list_elem_of_further, list_elem_of_here. }
  split; [exact HIn|]. split; [reflexivity|].
  apply (proj1 (findAccessedStorage_faults_outside_allow_list
                  Example.payloadField Example.enumPayload HIn eq_refl)).
Defined.

Lemma primary_diagnostic_at_exclusive_access_witness :
  checkStaticExclusivity
    {| Blocks := [ {| bb_self := 1%N; getPredecessorBlocks := [];
                      Insts := [IBeginAccess Example.readG;
                                IBeginAccess Example.writeG;
                                IEndAccess {| getBeginAccess := Example.writeG |};
                                IEndAccess {| getBeginAccess := Example.readG |};
                                IReturn] |} ];
       getASTContext := Example.ctx |}
    [ {| bb_self := 1%N; getPredecessorBlocks := [];
         Insts := [IBeginAccess Example.readG;
                   IBeginAccess Example.writeG;
                   IEndAccess {| getBeginAccess := Example.writeG |};
                   IEndAccess {| getBeginAccess := Example.readG |};
                   IReturn] |} ]
  = Ok [primaryFor Example.ctx Example.g_decl Example.writeG None;
        noteFor Example.readG]
  /\ (exists Ds,
        diagnoseExclusivityViolation (OfGlobal Example.g)
          Example.readG Example.writeG [] Example.ctx = Ok Ds)
  /\ (exists FnSt,
        traverse Example.readThenWrite Example.rpo = Ok FnSt
        /\ Forall notBothReads (fs_ConflictingAccesses FnSt)).
Proof.
  split; [|split].
  - apply (proj2 (proj2 (proj2 primary_diagnostic_at_exclusive_access))
                 Example.ctx Example.g
                 Example.g_decl Example.readG Example.writeG 10%N 11%N 1%N).
    + reflexivity.
    + reflexivity.
    + discriminate.
    + reflexivity.
    + reflexivity.
  - apply (proj1 (proj2 primary_diagnostic_at_exclusive_access)).
    + reflexivity.
    + split; [constructor|]. intros Decl H. discriminate H.
  - destruct (traverse Example.readThenWrite Example.rpo) as [FnSt|f] eqn:HT.
    + exists FnSt. split; [reflexivity|].
      apply (proj1 (proj2 (proj2 primary_diagnostic_at_exclusive_access))
               Example.readThenWrite Example.rpo Example.entryBlock
               [Example.exitBlock] [Example.exitBlock] FnSt).
      * reflexivity.
      * reflexivity.
      * apply Example_NoDup.
      * apply Example_nestedMarkers.
      * exact HT.
    + vm_compute in HT. discriminate HT.
Defined.

(** * Further properties *)

(** ** The walker over a whole function *)

Lemma transfer_conflicts (Ctx : ASTContext) (Ins : SILInstruction)
    (St St' : WalkState) :
  transfer Ctx Ins St = Ok St' ->
  ConflictingAccesses St' = ConflictingAccesses St ++ conflictsOfStep Ins (Accesses St).
Proof.
  destruct Ins as [BAI|EAI|AI| |]; simpl; intros H.
  - apply transferBeginAccess_Ok_inv in H as (Storage & HS & ->).
    rewrite HS. reflexivity.
  - unfold transferEndAccess in H. apply bindR_Ok in H as (S & _ & H).
    cbv beta in H. destruct (Accesses St !! storageKey S); [|discriminate H].
    injection H as <-. simpl. rewrite app_nil_r. reflexivity.
  - injection H as <-. simpl. rewrite app_nil_r. reflexivity.
  - destruct (bool_decide _); [|discriminate H]. injection H as <-.
    rewrite app_nil_r. reflexivity.
  - injection H as <-. rewrite app_nil_r. reflexivity.
Qed.

Lemma conflictsOfStep_cases (Ins : SILInstruction) (M : StorageMap) :
  conflictsOfStep Ins M = []
  \/ exists BAI Storage F,
       Ins = IBeginAccess BAI
       /\ findAccessedStorage (getSource BAI) = Ok Storage
       /\ FirstAccess (lookupOrDefault M (storageKey Storage)) = Some F
       /\ conflictsWithAccess (lookupOrDefault M (storageKey Storage))
                              (getAccessKind BAI) = true
       /\ alreadyHadConflict (lookupOrDefault M (storageKey Storage)) = false
       /\ conflictsOfStep Ins M
          = [{| ca_Storage := Storage; ca_FirstAccess := F; ca_SecondAccess := BAI |}].
Proof.
  destruct Ins as [BAI|EAI|AI| |]; simpl; auto.
  destruct (findAccessedStorage (getSource BAI)) as [Storage|f] eqn:HS; auto.
  unfold newConflicts.
  destruct (conflictsWithAccess _ _) eqn:EC; simpl; auto.
  destruct (alreadyHadConflict _) eqn:EA; simpl; auto.
  destruct (FirstAccess _) as [F|] eqn:EF; auto.
  right. exists BAI, Storage, F. auto 10.
Qed.

Lemma transfer_calls (Ctx : ASTContext) (Ins : SILInstruction)
    (St St' : WalkState) :
  transfer Ctx Ins St = Ok St' ->
  CallsToSwap St' =
  CallsToSwap St
  ++ filter (fun AI => isCallToStandardLibrarySwap AI Ctx = true) (appliesOf [Ins]).
Proof.
  destruct Ins as [BAI|EAI|AI| |]; simpl; intros H.
  - apply transferBeginAccess_Ok_inv in H as (Storage & HS & ->).
    simpl. rewrite app_nil_r. reflexivity.
  - unfold transferEndAccess in H. apply bindR_Ok in H as (S & _ & H).
    cbv beta in H. destruct (Accesses St !! storageKey S); [|discriminate H].
    injection H as <-. simpl. rewrite app_nil_r. reflexivity.
  - injection H as <-. simpl. unfold appliesOf. simpl.
    rewrite filter_cons, filter_nil.
    destruct (isCallToStandardLibrarySwap AI Ctx) eqn:E.
    + destruct (decide _); [reflexivity | congruence].
    + destruct (decide _); [congruence | rewrite app_nil_r; reflexivity].
  - destruct (bool_decide _); [|discriminate H]. injection H as <-.
    rewrite app_nil_r. reflexivity.
  - injection H as <-. rewrite app_nil_r. reflexivity.
Qed.

Lemma appliesOf_app (Is1 Is2 : list SILInstruction) :
  appliesOf (Is1 ++ Is2) = appliesOf Is1 ++ appliesOf Is2.
Proof. apply omap_app. Qed.

Lemma beginAccessesOf_app (Is1 Is2 : list SILInstruction) :
  beginAccessesOf (Is1 ++ Is2) = beginAccessesOf Is1 ++ beginAccessesOf Is2.
Proof. apply omap_app. Qed.

Lemma functionInsts_cons (BB : SILBasicBlock) (RPO : list SILBasicBlock) :
  functionInsts (BB :: RPO) = Insts BB ++ functionInsts RPO.
Proof. reflexivity. Qed.

Lemma transferInsts_calls (Ctx : ASTContext) (Is : list SILInstruction) :
  forall St St',
    transferInsts Ctx Is St = Ok St' ->
    CallsToSwap St' =
    CallsToSwap St
    ++ filter (fun AI => isCallToStandardLibrarySwap AI Ctx = true) (appliesOf Is).
Proof.
  induction Is as [|Ins Is IH]; intros St St' H; simpl in H.
  - injection H as <-. simpl. rewrite app_nil_r. reflexivity.
  - apply bindR_Ok in H as (St1 & H1 & H).
    rewrite (IH _ _ H), (transfer_calls _ _ _ _ H1), <- app_assoc, <- filter_app.
    rewrite <- appliesOf_app. reflexivity.
Qed.

Lemma visitBlock_Ok_inv (Ctx : ASTContext) (BB : SILBasicBlock)
    (FnSt FnSt' : FunctionState) :
  visitBlock Ctx BB FnSt = Ok FnSt' ->
  exists M0 St',
    ((exists p, p ∈ getPredecessorBlocks BB
                /\ BlockOutAccesses FnSt !! p = Some (Some M0))
     \/ BlockOutAccesses FnSt !! bb_self BB = Some (Some M0))
    /\ transferInsts Ctx (Insts BB)
         {| Accesses := M0;
            ConflictingAccesses := fs_ConflictingAccesses FnSt;
            CallsToSwap := fs_CallsToSwap FnSt |} = Ok St'
    /\ fs_ConflictingAccesses FnSt' = ConflictingAccesses St'
    /\ fs_CallsToSwap FnSt' = CallsToSwap St'
    /\ BlockOutAccesses FnSt' !! bb_self BB = Some (Some (Accesses St'))
    /\ forall a, a <> bb_self BB ->
                 BlockOutAccesses FnSt' !! a = BlockOutAccesses FnSt !! a.
Proof.
  unfold visitBlock. intros H.
  set (Out := match BlockOutAccesses FnSt !! bb_self BB with
              | Some _ => BlockOutAccesses FnSt
              | None => <[bb_self BB := None]> (BlockOutAccesses FnSt)
              end) in *.
  assert (HOut : forall a M, Out !! a = Some (Some M) ->
                             BlockOutAccesses FnSt !! a = Some (Some M)).
  { intros a M. unfold Out.
    destruct (BlockOutAccesses FnSt !! bb_self BB); [auto|].
    intros Ha. apply lookup_insert_Some in Ha as [[_ Ha]|[_ Ha]];
      [discriminate | exact Ha]. }
  assert (HOut' : forall a, a <> bb_self BB ->
                            Out !! a = BlockOutAccesses FnSt !! a).
  { intros a Hne. unfold Out.
    destruct (BlockOutAccesses FnSt !! bb_self BB); [reflexivity|].
    apply lookup_insert_ne. congruence. }
  destruct (predecessorState Out _ _) as [M0|] eqn:EP; [|discriminate H].
  apply bindR_Ok in H as (St' & HT & H). injection H as <-.
  exists M0, St'. split; [|split; [exact HT|]].
  - apply predecessorState_Some in EP as [(p & HIn & Hp)|Hd].
    + left. exists p. split; [exact HIn | apply HOut, Hp].
    + right. apply HOut.
      destruct (Out !! bb_self BB) as [o|]; simpl in Hd; [|discriminate].
      congruence.
  - simpl. split; [reflexivity|]. split; [reflexivity|]. split.
    + apply lookup_insert_eq.
    + intros a Hne. rewrite lookup_insert_ne by congruence. apply HOut', Hne.
Qed.

Lemma visitBlocks_calls (Ctx : ASTContext) (RPO : list SILBasicBlock) :
  forall FnSt FnSt',
    visitBlocks Ctx RPO FnSt = Ok FnSt' ->
    fs_CallsToSwap FnSt' =
    fs_CallsToSwap FnSt
    ++ filter (fun AI => isCallToStandardLibrarySwap AI Ctx = true)
              (appliesOf (functionInsts RPO)).
Proof.
  induction RPO as [|BB RPO IH]; intros FnSt FnSt' H; simpl in H.
  - injection H as <-. simpl. rewrite app_nil_r. reflexivity.
  - apply bindR_Ok in H as (FnSt1 & H1 & H).
    apply visitBlock_Ok_inv in H1 as (M0 & St' & _ & HT & _ & HC & _ & _).
    apply transferInsts_calls in HT. simpl in HT.
    rewrite (IH _ _ H), HC, HT, <- app_assoc, <- filter_app, <- appliesOf_app.
    reflexivity.
Qed.

Section WalkInvariant.

Variable InvM : StorageMap -> Prop.
Variable Q : list SILInstruction -> list ConflictingAccess -> Prop.
Variable U : SILInstruction -> Prop.

Hypothesis InvM_empty : InvM ∅.
Hypothesis Q_nil : Q [] [].
Hypothesis Q_app :
  forall Is1 Is2 L1 L2, Q Is1 L1 -> Q Is2 L2 -> Q (Is1 ++ Is2) (L1 ++ L2).
Hypothesis transfer_step :
  forall Ctx Ins St St',
    U Ins -> InvM (Accesses St) -> transfer Ctx Ins St = Ok St' ->
    InvM (Accesses St') /\ Q [Ins] (conflictsOfStep Ins (Accesses St)).

Lemma transferInsts_walk (Ctx : ASTContext) (Is : list SILInstruction) :
  forall St St',
    Forall U Is -> InvM (Accesses St) -> transferInsts Ctx Is St = Ok St' ->
    InvM (Accesses St')
    /\ exists L, ConflictingAccesses St' = ConflictingAccesses St ++ L /\ Q Is L.
Proof.
  induction Is as [|Ins Is IH]; intros St St' HU HM H; simpl in H.
  - injection H as <-. split; [exact HM|]. exists []. rewrite app_nil_r. auto.
  - apply bindR_Ok in H as (St1 & H1 & H).
    inversion HU as [|? ? HU1 HU2]; subst.
    destruct (transfer_step Ctx Ins St St1 HU1 HM H1) as [HM1 HQ1].
    destruct (IH St1 St' HU2 HM1 H) as (HM' & L & HL & HQ).
    split; [exact HM'|].
    exists (conflictsOfStep Ins (Accesses St) ++ L). split.
    + rewrite HL, (transfer_conflicts _ _ _ _ H1), app_assoc. reflexivity.
    + exact (Q_app [Ins] Is _ _ HQ1 HQ).
Qed.

Lemma visitBlocks_walk (Ctx : ASTContext) (RPO : list SILBasicBlock) :
  forall FnSt FnSt',
    Forall U (functionInsts RPO) ->
    (forall a M, BlockOutAccesses FnSt !! a = Some (Some M) -> InvM M) ->
    visitBlocks Ctx RPO FnSt = Ok FnSt' ->
    (forall a M, BlockOutAccesses FnSt' !! a = Some (Some M) -> InvM M)
    /\ exists L, fs_ConflictingAccesses FnSt' = fs_ConflictingAccesses FnSt ++ L
                 /\ Q (functionInsts RPO) L.
Proof.
  induction RPO as [|BB RPO IH]; intros FnSt FnSt' HU HOut H; simpl in H.
  - injection H as <-. split; [exact HOut|]. exists []. rewrite app_nil_r. auto.
  - apply bindR_Ok in H as (FnSt1 & H1 & H).
    rewrite functionInsts_cons in HU. apply Forall_app in HU as [HU1 HU2].
    apply visitBlock_Ok_inv in H1 as (M0 & St' & HM0 & HT & HC & _ & HSelf & HOther).
    assert (HInv0 : InvM M0).
    { destruct HM0 as [(p & _ & Ha)|Ha]; exact (HOut _ M0 Ha). }
    destruct (transferInsts_walk Ctx (Insts BB)
                {| Accesses := M0;
                   ConflictingAccesses := fs_ConflictingAccesses FnSt;
                   CallsToSwap := fs_CallsToSwap FnSt |} St' HU1 HInv0 HT)
      as (HM' & L1 & HL1 & HQ1). simpl in HL1.
    destruct (IH FnSt1 FnSt' HU2) as (HOut' & L2 & HL2 & HQ2); [|exact H|].
    { intros a M Ha. destruct (decide (a = bb_self BB)) as [->|Hne].
      - rewrite HSelf in Ha. injection Ha as <-. exact HM'.
      - rewrite (HOther a Hne) in Ha. exact (HOut a M Ha). }
    split; [exact HOut'|]. exists (L1 ++ L2). split.
    + rewrite HL2, HC, HL1, app_assoc. reflexivity.
    + rewrite functionInsts_cons. exact (Q_app _ _ _ _ HQ1 HQ2).
Qed.

Lemma traverse_walk (Fn : SILFunction) (RPO : list SILBasicBlock)
    (FnSt : FunctionState) :
  Blocks Fn <> [] ->
  Forall U (functionInsts RPO) ->
  traverse Fn RPO = Ok FnSt ->
  (forall a M, BlockOutAccesses FnSt !! a = Some (Some M) -> InvM M)
  /\ Q (functionInsts RPO) (fs_ConflictingAccesses FnSt).
Proof.
  unfold traverse. intros HFn HU H.
  destruct (Blocks Fn) as [|Entry Rest]; [congruence|].
  assert (HInit : forall a M,
    ({[bb_self Entry := Some ∅]} : gmap Addr (option StorageMap)) !! a
    = Some (Some M) -> InvM M).
  { intros a M Ha. apply lookup_singleton_Some in Ha as [_ Ha].
    injection Ha as <-. exact InvM_empty. }
  destruct (visitBlocks_walk _ RPO
              {| BlockOutAccesses := {[bb_self Entry := Some ∅]};
                 fs_ConflictingAccesses := [];
                 fs_CallsToSwap := [] |} FnSt HU HInit H)
    as (HOut & L & HL & HQ).
  split; [exact HOut|]. simpl in HL. rewrite HL. exact HQ.
Qed.

End WalkInvariant.

(** ** The diagnostics follow the begin_access instructions *)

Lemma emitViolations_Ok (L : list ConflictingAccess) (Swaps : list ApplyInst)
    (Ctx : ASTContext) :
  forall Ds,
    emitViolations L Swaps Ctx = Ok Ds ->
    exists Pairs,
      Forall2 (fun c Pair =>
                 diagnoseExclusivityViolation (ca_Storage c) (ca_FirstAccess c)
                   (ca_SecondAccess c) Swaps Ctx = Ok Pair) L Pairs
      /\ Ds = concat Pairs.
Proof.
  induction L as [|c L IH]; intros Ds H; simpl in H.
  - injection H as <-. exists []. split; [constructor | reflexivity].
  - apply bindR_Ok in H as (Pair & HP & H). cbv beta in H.
    apply bindR_Ok in H as (Rest & HR & H). injection H as <-.
    destruct (IH Rest HR) as (Pairs & HF & ->).
    exists (Pair :: Pairs). split; [constructor; assumption | reflexivity].
Qed.

Lemma diagnoseExclusivityViolation_pair (Storage : AccessedStorage)
    (Prior New : BeginAccessInst) (Swaps : list ApplyInst) (Ctx : ASTContext)
    (Pair : list Diagnostic) :
  diagnoseExclusivityViolation Storage Prior New Swaps Ctx = Ok Pair ->
  diagnosticsOfConflict
    {| ca_Storage := Storage; ca_FirstAccess := Prior; ca_SecondAccess := New |}
    Pair.
Proof.
  intros H. apply diagnoseExclusivityViolation_Ok in H as [_ H].
  unfold diagnosticsOfConflict. simpl.
  destruct (getStorageDecl Storage) as [VD|].
  - destruct H as (Fix & _ & ->). eexists. split; [reflexivity|].
    split; [reflexivity|]. simpl. destruct (isSwiftVersion3 Ctx); discriminate.
  - subst Pair. eexists. split; [reflexivity|].
    split; [reflexivity|]. simpl. destruct (isSwiftVersion3 Ctx); discriminate.
Qed.

Lemma checkStaticExclusivity_Ok_inv (Fn : SILFunction)
    (RPO : list SILBasicBlock) (Ds : list Diagnostic) :
  checkStaticExclusivity Fn RPO = Ok Ds ->
  exists FnSt,
    traverse Fn RPO = Ok FnSt
    /\ emitViolations (fs_ConflictingAccesses FnSt) (fs_CallsToSwap FnSt)
                      (getASTContext Fn) = Ok Ds
    /\ (Blocks Fn = [] -> fs_ConflictingAccesses FnSt = []
                          /\ fs_CallsToSwap FnSt = []).
Proof.
  unfold checkStaticExclusivity, traverse.
  destruct (Blocks Fn) as [|Entry Rest].
  - intros [= <-]. eexists. split; [reflexivity|]. simpl. auto.
  - intros H. apply bindR_Ok in H as (FnSt & HT & H).
    exists FnSt. split; [exact HT|]. split; [exact H | discriminate].
Qed.

Lemma concat_pairs_length {A B : Type} (R : A -> list B -> Prop)
    (L : list A) (Pairs : list (list B)) :
  Forall2 R L Pairs ->
  (forall a P, R a P -> length P = 2%nat) ->
  length (concat Pairs) = (2 * length L)%nat.
Proof.
  intros HF HR. induction HF as [|a P L Pairs Ha HF IH]; [reflexivity|].
  simpl. rewrite length_app, IH, (HR a P Ha). lia.
Qed.

Lemma traverse_second_accesses (Fn : SILFunction) (RPO : list SILBasicBlock)
    (FnSt : FunctionState) :
  traverse Fn RPO = Ok FnSt ->
  sublist (ca_SecondAccess <$> fs_ConflictingAccesses FnSt)
          (beginAccessesOf (functionInsts RPO)).
Proof.
  intros H. destruct (Blocks Fn) as [|Entry Rest] eqn:EB.
  { unfold traverse in H. rewrite EB in H. injection H as <-.
    apply sublist_nil_l. }
  refine (proj2 (traverse_walk (fun _ => True)
            (fun Is L => sublist (ca_SecondAccess <$> L) (beginAccessesOf Is))
            (fun _ => True) I _ _ _ Fn RPO FnSt _ _ H)).
  - apply sublist_nil_l.
  - intros Is1 Is2 L1 L2 H1 H2. rewrite fmap_app, beginAccessesOf_app.
    apply sublist_app; assumption.
  - intros Ctx Ins St St' _ _ HT. split; [exact I|].
    destruct (conflictsOfStep_cases Ins (Accesses St))
      as [->|(BAI & S & F & -> & _ & _ & _ & _ & ->)].
    + apply sublist_nil_l.
    + simpl. reflexivity.
  - congruence.
  - apply Forall_forall. auto.
Qed.

(** X1. The diagnostics of a function come in pairs, one pair for each
    recorded conflict and in the order the conflicts were recorded: a
    primary diagnostic at the access that requires exclusivity and the
    note at the other access.  Each begin_access is the new access of at
    most one conflict, and the conflicts follow the order in which the
    walker meets the begin_access instructions; so the pass emits at most
    two diagnostics for each begin_access of the visited blocks. *)
Theorem diagnostics_follow_begin_accesses :
  forall (Fn : SILFunction) (RPO : list SILBasicBlock) (Ds : list Diagnostic),
    checkStaticExclusivity Fn RPO = Ok Ds ->
    exists (FnSt : FunctionState) (Pairs : list (list Diagnostic)),
      traverse Fn RPO = Ok FnSt
      /\ sublist (ca_SecondAccess <$> fs_ConflictingAccesses FnSt)
                 (beginAccessesOf (functionInsts RPO))
      /\ Forall2 diagnosticsOfConflict (fs_ConflictingAccesses FnSt) Pairs
      /\ Ds = concat Pairs
      /\ (length Ds <= 2 * length (beginAccessesOf (functionInsts RPO)))%nat.
Proof.
  intros Fn RPO Ds H.
  apply checkStaticExclusivity_Ok_inv in H as (FnSt & HT & HE & _).
  apply emitViolations_Ok in HE as (Pairs & HF & ->).
  pose proof (traverse_second_accesses Fn RPO FnSt HT) as HSub.
  assert (HF' : Forall2 diagnosticsOfConflict (fs_ConflictingAccesses FnSt) Pairs).
  { eapply Forall2_impl; [exact HF|]. intros [S F N] Pair HP.
    apply diagnoseExclusivityViolation_pair in HP. exact HP. }
  exists FnSt, Pairs. repeat split; try assumption.
  rewrite (concat_pairs_length _ _ _ HF').
  - apply sublist_length in HSub. rewrite length_fmap in HSub. lia.
  - intros c P (Main & -> & _). reflexivity.
Qed.

(** ** The accesses of a recorded conflict *)

Lemma lookupOrDefault_FirstAccess (M : StorageMap) (K : StorageKey)
    (F : BeginAccessInst) :
  FirstAccess (lookupOrDefault M K) = Some F ->
  exists Info, M !! K = Some Info /\ FirstAccess Info = Some F.
Proof.
  unfold lookupOrDefault. destruct (M !! K) as [Info|]; simpl; [eauto|discriminate].
Qed.

Lemma transferEndAccess_Ok_inv (EAI : EndAccessInst) (St St' : WalkState) :
  transferEndAccess EAI St = Ok St' ->
  exists Storage Info,
    findAccessedStorage (EndAccessInst_getSource EAI) = Ok Storage
    /\ Accesses St !! storageKey Storage = Some Info
    /\ St' = {| Accesses :=
                  if negb (hasAccessesInProgress (endAccess Info EAI))
                  then delete (storageKey Storage) (Accesses St)
                  else <[storageKey Storage := endAccess Info EAI]> (Accesses St);
                ConflictingAccesses := ConflictingAccesses St;
                CallsToSwap := CallsToSwap St |}.
Proof.
  unfold transferEndAccess. intros H.
  apply bindR_Ok in H as (Storage & HS & H). cbv beta in H.
  destruct (Accesses St !! storageKey Storage) as [Info|] eqn:EK; [|discriminate H].
  injection H as <-. exists Storage, Info. auto.
Qed.

Lemma endAccess_FirstAccess (Info : AccessInfo) (EAI : EndAccessInst)
    (F : BeginAccessInst) :
  FirstAccess (endAccess Info EAI) = Some F -> FirstAccess Info = Some F.
Proof.
  unfold endAccess. simpl. destruct (_ && _); [discriminate | auto].
Qed.

(** The storage map after an instruction other than a marker. *)
Lemma transfer_other_Accesses (Ctx : ASTContext) (Ins : SILInstruction)
    (St St' : WalkState) :
  (forall BAI, Ins <> IBeginAccess BAI) -> (forall EAI, Ins <> IEndAccess EAI) ->
  transfer Ctx Ins St = Ok St' -> Accesses St' = Accesses St.
Proof.
  intros HB HE. destruct Ins as [BAI|EAI|AI| |]; simpl; intros H.
  - destruct (HB BAI eq_refl).
  - destruct (HE EAI eq_refl).
  - injection H as <-. reflexivity.
  - destruct (bool_decide _); [|discriminate H]. injection H as <-. reflexivity.
  - injection H as <-. reflexivity.
Qed.

(** X2. The two accesses of every recorded conflict are begin_access
    instructions of the visited blocks that resolve to equal storage
    identities, and the storage recorded with the conflict is the one the
    new access resolves to. *)
Theorem conflicting_accesses_share_storage :
  forall (Fn : SILFunction) (RPO : list SILBasicBlock) (FnSt : FunctionState)
         (c : ConflictingAccess),
    traverse Fn RPO = Ok FnSt ->
    c ∈ fs_ConflictingAccesses FnSt ->
    IBeginAccess (ca_FirstAccess c) ∈ functionInsts RPO
    /\ IBeginAccess (ca_SecondAccess c) ∈ functionInsts RPO
    /\ findAccessedStorage (getSource (ca_SecondAccess c)) = Ok (ca_Storage c)
    /\ exists S1,
         findAccessedStorage (getSource (ca_FirstAccess c)) = Ok S1
         /\ isEqual S1 (ca_Storage c) = true.
Proof.
  intros Fn RPO FnSt c HT Hc.
  destruct (Blocks Fn) as [|Entry Rest] eqn:EB.
  { unfold traverse in HT. rewrite EB in HT. injection HT as <-. inversion Hc. }
  set (good := fun c : ConflictingAccess =>
         IBeginAccess (ca_FirstAccess c) ∈ functionInsts RPO
         /\ IBeginAccess (ca_SecondAccess c) ∈ functionInsts RPO
         /\ findAccessedStorage (getSource (ca_SecondAccess c)) = Ok (ca_Storage c)
         /\ keyOf (ca_FirstAccess c) = Some (storageKey (ca_Storage c))).
  assert (HG : Forall good (fs_ConflictingAccesses FnSt)).
  { refine (proj2 (traverse_walk
              (fun M => forall K Info B,
                   M !! K = Some Info -> FirstAccess Info = Some B ->
                   keyOf B = Some K /\ IBeginAccess B ∈ functionInsts RPO)
              (fun _ L => Forall good L)
              (fun Ins => Ins ∈ functionInsts RPO) _ _ _ _ Fn RPO FnSt _ _ HT)).
    - intros K Info B HK. rewrite lookup_empty in HK. discriminate HK.
    - constructor.
    - intros Is1 Is2 L1 L2 H1 H2. apply Forall_app. auto.
    - intros Ctx Ins St St' HU HM HStep. split.
      + destruct Ins as [BAI|EAI|AI| |].
        * simpl in HStep.
          apply transferBeginAccess_Ok_inv in HStep as (Storage & HS & ->).
          simpl. intros K Info B HK HF.
          destruct (decide (storageKey Storage = K)) as [<-|Hne].
          -- rewrite lookup_insert_eq in HK. injection HK as <-. simpl in HF.
             unfold lookupOrDefault in HF.
             destruct (Accesses St !! storageKey Storage) as [Info0|] eqn:E0;
               simpl in HF.
             ++ destruct (FirstAccess Info0) as [F0|] eqn:EF0; simpl in HF;
                  injection HF as <-.
                ** exact (HM _ _ _ E0 EF0).
                ** split; [apply keyOf_Ok, HS | exact HU].
             ++ injection HF as <-. split; [apply keyOf_Ok, HS | exact HU].
          -- rewrite lookup_insert_ne in HK by done. exact (HM _ _ _ HK HF).
        * simpl in HStep.
          apply transferEndAccess_Ok_inv in HStep as (Storage & Info0 & HS & E0 & ->).
          simpl. intros K Info B HK HF.
          destruct (negb (hasAccessesInProgress (endAccess Info0 EAI))).
          -- apply lookup_delete_Some in HK as [_ HK]. exact (HM _ _ _ HK HF).
          -- destruct (decide (storageKey Storage = K)) as [<-|Hne].
             ++ rewrite lookup_insert_eq in HK. injection HK as <-.
                apply endAccess_FirstAccess in HF. exact (HM _ _ _ E0 HF).
             ++ rewrite lookup_insert_ne in HK by done. exact (HM _ _ _ HK HF).
        * rewrite (transfer_other_Accesses Ctx (IApply AI) St St'
                     ltac:(discriminate) ltac:(discriminate) HStep). exact HM.
        * rewrite (transfer_other_Accesses Ctx IReturn St St'
                     ltac:(discriminate) ltac:(discriminate) HStep). exact HM.
        * rewrite (transfer_other_Accesses Ctx IOther St St'
                     ltac:(discriminate) ltac:(discriminate) HStep). exact HM.
      + destruct (conflictsOfStep_cases Ins (Accesses St))
          as [->|(BAI & S & F & -> & HS & HF & _ & _ & ->)]; [constructor|].
        apply lookupOrDefault_FirstAccess in HF as (Info & HK & HF).
        destruct (HM _ _ _ HK HF) as [HKey HIn].
        constructor; [|constructor]. unfold good. simpl. auto.
    - congruence.
    - apply Forall_forall. auto. }
  rewrite Forall_forall in HG. destruct (HG c Hc) as (H1 & H2 & H3 & H4).
  split; [exact H1|]. split; [exact H2|]. split; [exact H3|].
  unfold keyOf in H4.
  destruct (findAccessedStorage (getSource (ca_FirstAccess c))) as [S1|f];
    [|discriminate H4].
  exists S1. split; [reflexivity|]. apply isEqual_storageKey. congruence.
Qed.

(** ** Storage that is only read *)

Lemma isRead_true (BAI : BeginAccessInst) :
  isRead BAI = true <-> getAccessKind BAI = Read.
Proof. unfold isRead. apply SILAccessKind_eq_spec. Qed.

Lemma traverse_readsOnly (Fn : SILFunction) (RPO : list SILBasicBlock)
    (FnSt : FunctionState) (K : StorageKey) :
  Forall (readsOnly K) (functionInsts RPO) ->
  traverse Fn RPO = Ok FnSt ->
  Forall (fun c => storageKey (ca_Storage c) <> K) (fs_ConflictingAccesses FnSt).
Proof.
  intros HR HT.
  destruct (Blocks Fn) as [|Entry Rest] eqn:EB.
  { unfold traverse in HT. rewrite EB in HT. injection HT as <-. constructor. }
  refine (proj2 (traverse_walk
            (fun M => forall Info, M !! K = Some Info -> NonReads Info = 0)
            (fun _ L => Forall (fun c => storageKey (ca_Storage c) <> K) L)
            (readsOnly K) _ _ _ _ Fn RPO FnSt _ HR HT)).
  - intros Info HK. rewrite lookup_empty in HK. discriminate HK.
  - constructor.
  - intros Is1 Is2 L1 L2 H1 H2. apply Forall_app. auto.
  - intros Ctx Ins St St' HU HM HStep.
    assert (HD : NonReads (lookupOrDefault (Accesses St) K) = 0).
    { unfold lookupOrDefault. destruct (Accesses St !! K) as [Info|];
        simpl; [exact (HM Info eq_refl) | reflexivity]. }
    split.
    + destruct Ins as [BAI|EAI|AI| |].
      * simpl in HStep.
        apply transferBeginAccess_Ok_inv in HStep as (Storage & HS & ->).
        simpl. intros Info HK.
        destruct (decide (storageKey Storage = K)) as [HKe|Hne].
        -- rewrite HKe in HK. rewrite lookup_insert_eq in HK. injection HK as <-.
           unfold beginCounted. simpl.
           rewrite (HU (eq_trans (keyOf_Ok BAI Storage HS) (f_equal Some HKe))).
           exact HD.
        -- rewrite lookup_insert_ne in HK by done. exact (HM Info HK).
      * simpl in HStep.
        apply transferEndAccess_Ok_inv in HStep as (Storage & Info0 & HS & E0 & ->).
        simpl. intros Info HK.
        destruct (negb (hasAccessesInProgress (endAccess Info0 EAI))).
        -- apply lookup_delete_Some in HK as [_ HK]. exact (HM Info HK).
        -- destruct (decide (storageKey Storage = K)) as [HKe|Hne].
           ++ rewrite HKe in HK, E0. rewrite lookup_insert_eq in HK.
              injection HK as <-. unfold endAccess. simpl.
              assert (HRd : isRead (getBeginAccess EAI) = true).
              { apply HU. rewrite <- HKe. apply keyOf_Ok, HS. }
              unfold isRead in HRd. rewrite HRd. exact (HM Info0 E0).
           ++ rewrite lookup_insert_ne in HK by done. exact (HM Info HK).
      * rewrite (transfer_other_Accesses Ctx (IApply AI) St St'
                   ltac:(discriminate) ltac:(discriminate) HStep). exact HM.
      * rewrite (transfer_other_Accesses Ctx IReturn St St'
                   ltac:(discriminate) ltac:(discriminate) HStep). exact HM.
      * rewrite (transfer_other_Accesses Ctx IOther St St'
                   ltac:(discriminate) ltac:(discriminate) HStep). exact HM.
    + destruct (conflictsOfStep_cases Ins (Accesses St))
        as [->|(BAI & S & F & -> & HS & _ & HC & _ & ->)]; [constructor|].
      constructor; [|constructor]. simpl. intros HKe.
      assert (HRd : isRead BAI = true).
      { apply HU. rewrite <- HKe. apply keyOf_Ok, HS. }
      apply isRead_true in HRd. rewrite HRd, HKe in HC.
      rewrite conflictsWithAccess_Read, HD in HC. discriminate HC.
  - congruence.
Qed.

(** X3. A storage location on which the function only begins and ends
    reads is never the storage of a recorded conflict, whatever happens
    on other storage; a function all of whose access markers are reads
    gets no diagnostic. *)
Theorem storage_only_read_is_never_reported :
  (forall (Fn : SILFunction) (RPO : list SILBasicBlock) (FnSt : FunctionState)
          (K : StorageKey),
      Forall (readsOnly K) (functionInsts RPO) ->
      traverse Fn RPO = Ok FnSt ->
      Forall (fun c => storageKey (ca_Storage c) <> K)
             (fs_ConflictingAccesses FnSt))
  /\
  (forall (Fn : SILFunction) (RPO : list SILBasicBlock) (Ds : list Diagnostic),
      Forall readOnly (functionInsts RPO) ->
      checkStaticExclusivity Fn RPO = Ok Ds ->
      Ds = []).
Proof.
  split; [apply traverse_readsOnly|].
  intros Fn RPO Ds HR H.
  apply checkStaticExclusivity_Ok_inv in H as (FnSt & HT & HE & _).
  destruct (fs_ConflictingAccesses FnSt) as [|c L] eqn:EL.
  { simpl in HE. congruence. }
  exfalso.
  assert (HK : Forall (readsOnly (storageKey (ca_Storage c))) (functionInsts RPO)).
  { eapply Forall_impl; [exact HR|]. intros [BAI|EAI|AI| |]; simpl; auto.
    - intros Hk _. apply isRead_true, Hk.
    - intros Hk _. apply isRead_true, Hk. }
  pose proof (traverse_readsOnly Fn RPO FnSt _ HK HT) as HF.
  rewrite EL in HF. inversion HF as [|? ? Hc _]. apply Hc. reflexivity.
Qed.

(** ** The recorded calls to swap *)

Lemma elem_of_appliesOf (AI : ApplyInst) (Is : list SILInstruction) :
  AI ∈ appliesOf Is <-> IApply AI ∈ Is.
Proof.
  unfold appliesOf. rewrite list_elem_of_omap. split.
  - intros ([BAI|EAI|AI'| |] & HIn & HS); try discriminate HS.
    injection HS as <-. exact HIn.
  - intros HIn. exists (IApply AI). auto.
Qed.

Lemma isCallToStandardLibrarySwap_true (AI : ApplyInst) (Ctx : ASTContext) :
  isCallToStandardLibrarySwap AI Ctx = true <->
  exists SF FD,
    getReferencedFunction AI = Some SF /\ hasLocation SF = true
    /\ getAsFuncDecl (getLocation SF) = Some FD /\ getSwap Ctx = Some FD.
Proof.
  unfold isCallToStandardLibrarySwap, ptr_eq. split.
  - destruct (getReferencedFunction AI) as [SF|]; [|discriminate].
    destruct (hasLocation SF) eqn:EL; simpl; [|discriminate].
    destruct (getAsFuncDecl (getLocation SF)) as [FD|] eqn:EFD; [|discriminate].
    intros H. apply bool_decide_eq_true in H. exists SF, FD. auto.
  - intros (SF & FD & -> & -> & -> & ->). simpl.
    apply bool_decide_eq_true. reflexivity.
Qed.

Lemma traverse_calls (Fn : SILFunction) (RPO : list SILBasicBlock)
    (FnSt : FunctionState) :
  Blocks Fn <> [] -> traverse Fn RPO = Ok FnSt ->
  fs_CallsToSwap FnSt
  = filter (fun AI => isCallToStandardLibrarySwap AI (getASTContext Fn) = true)
           (appliesOf (functionInsts RPO)).
Proof.
  unfold traverse. intros HFn H.
  destruct (Blocks Fn) as [|Entry Rest]; [congruence|].
  apply visitBlocks_calls in H. exact H.
Qed.

(** X4. The calls the walker records for the fix-it are exactly the apply
    instructions of the visited blocks, in visiting order, whose
    referenced function has a location that is the declaration of the
    library swap; an apply without referenced function, without location
    or of another declaration is not recorded, and nothing is recorded
    when the library has no swap. *)
Theorem calls_to_swap_recorded_in_order :
  forall (Fn : SILFunction) (RPO : list SILBasicBlock) (FnSt : FunctionState),
    Blocks Fn <> [] ->
    traverse Fn RPO = Ok FnSt ->
    fs_CallsToSwap FnSt
    = filter (fun AI => isCallToStandardLibrarySwap AI (getASTContext Fn) = true)
             (appliesOf (functionInsts RPO))
    /\ (forall AI,
          AI ∈ fs_CallsToSwap FnSt <->
          IApply AI ∈ functionInsts RPO
          /\ exists SF FD,
               getReferencedFunction AI = Some SF /\ hasLocation SF = true
               /\ getAsFuncDecl (getLocation SF) = Some FD
               /\ getSwap (getASTContext Fn) = Some FD)
    /\ (getSwap (getASTContext Fn) = None -> fs_CallsToSwap FnSt = []).
Proof.
  intros Fn RPO FnSt HFn HT.
  pose proof (traverse_calls Fn RPO FnSt HFn HT) as HC.
  assert (HIff : forall AI,
    AI ∈ fs_CallsToSwap FnSt <->
    IApply AI ∈ functionInsts RPO
    /\ exists SF FD,
         getReferencedFunction AI = Some SF /\ hasLocation SF = true
         /\ getAsFuncDecl (getLocation SF) = Some FD
         /\ getSwap (getASTContext Fn) = Some FD).
  { intros AI. rewrite HC, list_elem_of_filter, elem_of_appliesOf,
      isCallToStandardLibrarySwap_true. tauto. }
  split; [exact HC|]. split; [exact HIff|].
  intros HNone. destruct (fs_CallsToSwap FnSt) as [|AI L] eqn:EL; [reflexivity|].
  exfalso. destruct (proj1 (HIff AI) (list_elem_of_here _ _))
    as (_ & SF & FD & _ & _ & _ & HSw). congruence.
Qed.

(** ** Where a fix-it comes from *)

Lemma elem_of_concat {A : Type} (x : A) (ls : list (list A)) :
  x ∈ concat ls -> exists l, x ∈ l /\ l ∈ ls.
Proof.
  induction ls as [|l ls IH]; simpl; intros H; [inversion H|].
  apply elem_of_app in H as [H|H].
  - exists l. split; [exact H | apply list_elem_of_here].
  - destruct (IH H) as (l' & Hx & Hl). exists l'.
    split; [exact Hx | apply list_elem_of_further, Hl].
Qed.

Lemma recordedSwapCall_range (Calls : list ApplyInst) (InOut1 InOut2 : Expr)
    (CallRange : SourceRange) :
  recordedSwapCall Calls InOut1 InOut2 = Some CallRange ->
  exists AI i Callee Arg CalledValue,
    AI ∈ Calls
    /\ getAsCallExpr (ai_Loc AI) = Some (CallExpr i Callee Arg CalledValue)
    /\ CallRange = e_SourceRange i.
Proof.
  induction Calls as [|AI Calls IH]; simpl; [discriminate|].
  assert (HRest : recordedSwapCall Calls InOut1 InOut2 = Some CallRange ->
    exists AI' i Callee Arg CalledValue,
      AI' ∈ AI :: Calls
      /\ getAsCallExpr (ai_Loc AI') = Some (CallExpr i Callee Arg CalledValue)
      /\ CallRange = e_SourceRange i).
  { intros H. destruct (IH H) as (AI' & i & F & A & C & HIn & HR).
    exists AI', i, F, A, C. split; [apply list_elem_of_further, HIn | exact HR]. }
  destruct (getAsCallExpr (ai_Loc AI)) as [E|] eqn:EC; [|exact HRest].
  destruct E as [| | | |i Fn Arg CV| | |]; try exact HRest.
  destruct Arg as [| | |j Elements| | | |]; try exact HRest.
  destruct Elements as [|Arg1 [|Arg2 Elements]]; try exact HRest.
  destruct (Expr_ptr_eq Arg1 InOut1 && Expr_ptr_eq Arg2 InOut2); [|exact HRest].
  intros [= <-]. exists AI, i, Fn, (TupleExpr j (Arg1 :: Arg2 :: Elements)), CV.
  split; [apply list_elem_of_here | auto].
Qed.

(** X5. A fix-it attached to a diagnostic of the function replaces the
    source range of the call expression of an apply instruction of the
    visited blocks that calls the library swap, by a text of the form
    [<base>.swapAt(<index1>, <index2>)]; a function without such an apply
    gets no fix-it. *)
Theorem fixIt_replaces_a_recorded_swap_call :
  forall (Fn : SILFunction) (RPO : list SILBasicBlock) (Ds : list Diagnostic)
         (D : Diagnostic) (Fix : FixIt),
    checkStaticExclusivity Fn RPO = Ok Ds ->
    D ∈ Ds ->
    diag_FixIt D = Some Fix ->
    exists AI i Callee Arg CalledValue,
      IApply AI ∈ functionInsts RPO
      /\ isCallToStandardLibrarySwap AI (getASTContext Fn) = true
      /\ getAsCallExpr (ai_Loc AI) = Some (CallExpr i Callee Arg CalledValue)
      /\ fix_Range Fix = e_SourceRange i
      /\ exists BaseText Index1Text Index2Text,
           fix_Text Fix = swapAtText BaseText Index1Text Index2Text.
Proof.
  intros Fn RPO Ds D Fix H HD HFix.
  apply checkStaticExclusivity_Ok_inv in H as (FnSt & HT & HE & HEmpty).
  destruct (Blocks Fn) as [|Entry Rest] eqn:EB.
  { destruct (HEmpty eq_refl) as [HC _]. rewrite HC in HE. simpl in HE.
    injection HE as <-. inversion HD. }
  pose proof (traverse_calls Fn RPO FnSt ltac:(congruence) HT) as HCalls.
  apply emitViolations_Ok in HE as (Pairs & HF & ->).
  apply elem_of_concat in HD as (Pair & HDP & HPair).
  apply list_elem_of_lookup in HPair as [n Hn].
  destruct (Forall2_lookup_r _ _ _ n Pair HF Hn) as (c & _ & Hc).
  destruct (diagnoseExclusivityViolation_fixIt _ _ _ _ _ _ Hc)
    as (Main & -> & _ & HFI).
  apply elem_of_cons in HDP as [->|HDP].
  2:{ apply list_elem_of_singleton in HDP. subst D. discriminate HFix. }
  apply HFI in HFix as [_ HCond].
  destruct HCond as (_ & _ & i1 & j1 & Base1 & p1 & IndexSub1 & Decl1
                     & i2 & j2 & Base2 & p2 & IndexSub2 & Decl2 & CallRange
                     & _ & _ & HRec & _ & _ & _ & ->).
  apply recordedSwapCall_range in HRec as (AI & i & Callee & Arg & CV & HIn & HCE & ->).
  rewrite HCalls in HIn. apply list_elem_of_filter in HIn as [HSwap HIn].
  apply elem_of_appliesOf in HIn.
  exists AI, i, Callee, Arg, CV. simpl. eauto 10.
Qed.

(** ** An access begun and ended *)

Lemma udec_uinc (n : Z) : is_unsigned n -> udec (uinc n) = n.
Proof.
  unfold is_unsigned, udec, uinc. intros Hn.
  rewrite Zminus_mod_idemp_l. replace (n + 1 - 1) with n by lia.
  apply Z.mod_small. exact Hn.
Qed.

Lemma endAccess_beginCounted (Info : AccessInfo) (BAI : BeginAccessInst) :
  recordInProgress Info ->
  endAccess (beginCounted Info BAI) {| getBeginAccess := BAI |} = Info.
Proof.
  intros (HF & HP & HR & HN). destruct Info as [r n [F|]]; [|simpl in HF; congruence].
  unfold endAccess, beginCounted. cbn [getBeginAccess Reads NonReads FirstAccess].
  fold (isRead BAI). simpl in HP, HR, HN.
  unfold hasAccessesInProgress in HP. simpl in HP.
  apply orb_true_iff in HP. rewrite !Z.ltb_lt in HP.
  destruct (isRead BAI); rewrite udec_uinc by assumption; f_equal;
    unfold is_unsigned in *;
    destruct (Z.eqb_spec r 0); destruct (Z.eqb_spec n 0); simpl; try reflexivity; lia.
Qed.

Lemma endAccess_beginCounted_default (BAI : BeginAccessInst) :
  endAccess (beginCounted AccessInfo_default BAI) {| getBeginAccess := BAI |}
  = AccessInfo_default.
Proof.
  unfold endAccess, beginCounted. cbn [getBeginAccess Reads NonReads FirstAccess].
  fold (isRead BAI). destruct (isRead BAI); reflexivity.
Qed.

(** [begin_access] on a state whose record of the location is in
    progress or absent, then [end_access] of it in any state with the
    same storage map. *)
Lemma transfer_begin_end (Ctx : ASTContext) (BAI : BeginAccessInst)
    (St : WalkState) (Storage : AccessedStorage) :
  findAccessedStorage (getSource BAI) = Ok Storage ->
  (forall Info, Accesses St !! storageKey Storage = Some Info ->
                recordInProgress Info) ->
  exists St1,
    transfer Ctx (IBeginAccess BAI) St = Ok St1
    /\ ConflictingAccesses St1
       = ConflictingAccesses St ++ conflictsOfStep (IBeginAccess BAI) (Accesses St)
    /\ CallsToSwap St1 = CallsToSwap St
    /\ Accesses St1
       = <[storageKey Storage :=
             beginCounted (lookupOrDefault (Accesses St) (storageKey Storage)) BAI]>
           (Accesses St)
    /\ forall St2,
         Accesses St2 = Accesses St1 ->
         transfer Ctx (IEndAccess {| getBeginAccess := BAI |}) St2
         = Ok {| Accesses := Accesses St;
                 ConflictingAccesses := ConflictingAccesses St2;
                 CallsToSwap := CallsToSwap St2 |}.
Proof.
  intros HS HRec. set (K := storageKey Storage) in *.
  assert (HB : FirstAccess (lookupOrDefault (Accesses St) K) <> None
               \/ Reads (lookupOrDefault (Accesses St) K) = 0
                  /\ NonReads (lookupOrDefault (Accesses St) K) = 0).
  { unfold lookupOrDefault. destruct (Accesses St !! K) as [Info|] eqn:EK; simpl.
    - left. exact (proj1 (HRec Info eq_refl)).
    - right. auto. }
  eexists. split; [exact (transferBeginAccess_eq BAI St Storage HS HB)|].
  cbn [ConflictingAccesses CallsToSwap Accesses]. simpl conflictsOfStep.
  rewrite HS. fold K. split; [reflexivity|]. split; [reflexivity|].
  split; [reflexivity|].
  intros St2 HEq. cbn [transfer].
  rewrite (transferEndAccess_eq {| getBeginAccess := BAI |} St2 Storage
             (beginCounted (lookupOrDefault (Accesses St) K) BAI) HS)
    by (rewrite HEq; fold K; apply lookup_insert_eq).
  f_equal. rewrite HEq. fold K. unfold lookupOrDefault.
  destruct (Accesses St !! K) as [Info|] eqn:EK; cbn [default from_option id].
  - rewrite (endAccess_beginCounted Info BAI (HRec Info eq_refl)).
    rewrite (proj1 (proj2 (HRec Info eq_refl))). cbn [negb].
    rewrite insert_insert_eq, insert_id by exact EK. reflexivity.
  - rewrite endAccess_beginCounted_default. cbn [negb hasAccessesInProgress].
    simpl. rewrite delete_insert_eq, delete_id by exact EK. reflexivity.
Qed.

(** X11. An access that is begun and ended at once leaves the map of
    the accesses in progress as it was, when the record of its location
    is absent or in progress: the [end_access] undoes the counting of the
    [begin_access], clears [FirstAccess] again if it was set by it, and
    erases a record that was created by it. *)
Theorem begin_then_end_restores_the_map :
  forall (Ctx : ASTContext) (BAI : BeginAccessInst) (St : WalkState)
         (Storage : AccessedStorage),
    findAccessedStorage (getSource BAI) = Ok Storage ->
    (forall Info, Accesses St !! storageKey Storage = Some Info ->
                  recordInProgress Info) ->
    transferInsts Ctx
      [IBeginAccess BAI; IEndAccess {| getBeginAccess := BAI |}] St
    = Ok {| Accesses := Accesses St;
            ConflictingAccesses :=
              ConflictingAccesses St
              ++ conflictsOfStep (IBeginAccess BAI) (Accesses St);
            CallsToSwap := CallsToSwap St |}.
Proof.
  intros Ctx BAI St Storage HS HRec.
  destruct (transfer_begin_end Ctx BAI St Storage HS HRec)
    as (St1 & HT1 & HC1 & HS1 & _ & HEnd).
  cbn [transferInsts]. rewrite HT1. cbn [bindR].
  rewrite (HEnd St1 eq_refl). cbn [bindR]. rewrite HC1, HS1. reflexivity.
Qed.

(** ** Two overlapping accesses *)

Lemma beginCounted_default_inProgress (BAI : BeginAccessInst) :
  recordInProgress (beginCounted AccessInfo_default BAI).
Proof.
  unfold recordInProgress, beginCounted, hasAccessesInProgress, is_unsigned.
  cbn [FirstAccess Reads NonReads AccessInfo_default].
  destruct (isRead BAI); repeat split; try discriminate; try reflexivity.
Qed.

Lemma newConflicts_after_first (P N : BeginAccessInst) (SN : AccessedStorage) :
  newConflicts (beginCounted AccessInfo_default P) SN N
  = if negb (isRead P && isRead N)
    then [{| ca_Storage := SN; ca_FirstAccess := P; ca_SecondAccess := N |}]
    else [].
Proof.
  unfold newConflicts, beginCounted, conflictsWithAccess, alreadyHadConflict.
  cbn [FirstAccess Reads NonReads AccessInfo_default default from_option id].
  fold (isRead N). destruct (isRead P), (isRead N); reflexivity.
Qed.

Lemma emitViolations_one (c : ConflictingAccess) (Swaps : list ApplyInst)
    (Ctx : ASTContext) :
  emitViolations [c] Swaps Ctx
  = diagnoseExclusivityViolation (ca_Storage c) (ca_FirstAccess c)
      (ca_SecondAccess c) Swaps Ctx.
Proof.
  simpl. destruct (diagnoseExclusivityViolation _ _ _ _ _) as [Ds|f]; simpl;
    [rewrite app_nil_r|]; reflexivity.
Qed.

Lemma transferInsts_overlapping (Ctx : ASTContext) (P N : BeginAccessInst)
    (SP SN : AccessedStorage) :
  findAccessedStorage (getSource P) = Ok SP ->
  findAccessedStorage (getSource N) = Ok SN ->
  transferInsts Ctx
    [IBeginAccess P; IBeginAccess N;
     IEndAccess {| getBeginAccess := N |}; IEndAccess {| getBeginAccess := P |};
     IReturn] initialState
  = Ok {| Accesses := ∅;
          ConflictingAccesses :=
            if isEqual SP SN && negb (isRead P && isRead N)
            then [{| ca_Storage := SN; ca_FirstAccess := P; ca_SecondAccess := N |}]
            else [];
          CallsToSwap := [] |}.
Proof.
  intros HP HN.
  destruct (transfer_begin_end Ctx P initialState SP HP)
    as (St1 & HT1 & HC1 & HS1 & HM1 & HEndP).
  { intros Info HK. simpl in HK. rewrite lookup_empty in HK. discriminate HK. }
  simpl in HM1, HC1, HS1. rewrite HP in HC1. simpl in HC1.
  unfold lookupOrDefault in HM1, HC1. rewrite lookup_empty in HM1, HC1.
  cbn [default from_option id] in HM1, HC1.
  assert (HC1' : ConflictingAccesses St1 = []).
  { rewrite HC1. unfold newConflicts.
    rewrite conflictsWithAccess_fresh by reflexivity. reflexivity. }
  destruct (transfer_begin_end Ctx N St1 SN HN) as (St2 & HT2 & HC2 & HS2 & HM2 & HEndN).
  { intros Info HK. rewrite HM1 in HK.
    apply lookup_insert_Some in HK as [[_ <-]|[_ HK]].
    - apply beginCounted_default_inProgress.
    - rewrite lookup_empty in HK. discriminate HK. }
  cbn [transferInsts]. rewrite HT1. cbn [bindR]. rewrite HT2. cbn [bindR].
  rewrite (HEndN St2 eq_refl). cbn [bindR].
  rewrite (HEndP {| Accesses := Accesses St1;
                    ConflictingAccesses := ConflictingAccesses St2;
                    CallsToSwap := CallsToSwap St2 |} eq_refl).
  cbn [bindR Accesses ConflictingAccesses CallsToSwap].
  cbn [transfer Accesses]. cbn [initialState Accesses].
  rewrite bool_decide_eq_true_2 by apply map_size_empty. cbn [bindR].
  f_equal. f_equal; [|rewrite HS2, HS1; reflexivity].
  rewrite HC2, HC1'. cbn [app conflictsOfStep]. rewrite HN, HM1.
  unfold lookupOrDefault.
  destruct (isEqual SP SN) eqn:EQ.
  - apply isEqual_storageKey in EQ. rewrite <- EQ, lookup_insert_eq.
    cbn [default from_option id andb]. apply newConflicts_after_first.
  - apply isEqual_false_iff in EQ. rewrite lookup_insert_ne by exact EQ.
    rewrite lookup_empty. cbn [default from_option id andb].
    unfold newConflicts. rewrite conflictsWithAccess_fresh by reflexivity.
    reflexivity.
Qed.

(** X6. A function that begins an access [P] and, while [P] is in
    progress, begins and ends an access [N]: the pass reports the pair
    iff the two accesses resolve to equal storage identities and are not
    both reads, with [P] as the prior and [N] as the new access and the
    storage [N] resolves to; otherwise it emits nothing. *)
Theorem overlapping_accesses_conflict_iff :
  forall (Ctx : ASTContext) (P N : BeginAccessInst) (SP SN : AccessedStorage)
         (self : Addr),
    findAccessedStorage (getSource P) = Ok SP ->
    findAccessedStorage (getSource N) = Ok SN ->
    checkStaticExclusivity
      {| Blocks := [overlappingAccesses self P N]; getASTContext := Ctx |}
      [overlappingAccesses self P N]
    = if isEqual SP SN && negb (isRead P && isRead N)
      then diagnoseExclusivityViolation SN P N [] Ctx
      else Ok [].
Proof.
  intros Ctx P N SP SN self HP HN.
  unfold checkStaticExclusivity, traverse.
  cbn [Blocks getASTContext visitBlocks].
  unfold visitBlock.
  cbn [BlockOutAccesses bb_self overlappingAccesses getPredecessorBlocks Insts
       fs_ConflictingAccesses fs_CallsToSwap].
  rewrite !lookup_singleton_eq. cbn [predecessorState default from_option id].
  change {| Accesses := ∅; ConflictingAccesses := []; CallsToSwap := [] |}
    with initialState.
  rewrite (transferInsts_overlapping Ctx P N SP SN HP HN).
  cbn [bindR ConflictingAccesses CallsToSwap Accesses fs_ConflictingAccesses
       fs_CallsToSwap].
  destruct (isEqual SP SN && negb (isRead P && isRead N)).
  - apply emitViolations_one.
  - reflexivity.
Qed.

(** ** The walker along paths, with the instructions gone through *)

Lemma walkedTrace_prefix (RPO : list SILBasicBlock) (Entry : Addr)
    (T1 T2 : list SILInstruction) :
  walkedTrace RPO Entry (T1 ++ T2) -> walkedTrace RPO Entry T1.
Proof.
  intros (P & Post & HP & HE). exists P, (T2 ++ Post).
  split; [exact HP | rewrite HE, app_assoc; reflexivity].
Qed.

Lemma transferInsts_conflicts_grow (Ctx : ASTContext) (Is : list SILInstruction) :
  forall St St',
    transferInsts Ctx Is St = Ok St' ->
    exists L, ConflictingAccesses St' = ConflictingAccesses St ++ L.
Proof.
  induction Is as [|Ins Is IH]; intros St St' H; simpl in H.
  - injection H as <-. exists []. rewrite app_nil_r. reflexivity.
  - apply bindR_Ok in H as (St1 & H1 & H).
    destruct (IH _ _ H) as [L HL]. rewrite HL, (transfer_conflicts _ _ _ _ H1).
    eexists. rewrite <- app_assoc. reflexivity.
Qed.

Section TraceInvariant.

Variable RPO : list SILBasicBlock.
Variable Entry : Addr.
Variable Inv : list SILInstruction -> StorageMap -> list ConflictingAccess -> Prop.
Variable Good : list ConflictingAccess -> Prop.

Hypothesis Inv_init : Inv [] ∅ [].
Hypothesis Good_init : Good [].
Hypothesis Inv_mono : forall T M L L', Inv T M L -> Inv T M (L ++ L').
Hypothesis Inv_step :
  forall Ctx T Ins St St',
    walkedTrace RPO Entry (T ++ [Ins]) ->
    Inv T (Accesses St) (ConflictingAccesses St) ->
    Good (ConflictingAccesses St) ->
    transfer Ctx Ins St = Ok St' ->
    Inv (T ++ [Ins]) (Accesses St') (ConflictingAccesses St')
    /\ Good (ConflictingAccesses St').

Let outInv (Out : gmap Addr (option StorageMap)) (Visited : list SILBasicBlock)
    (L : list ConflictingAccess) : Prop :=
  (forall a, is_Some (Out !! a) -> a ∈ bb_self <$> Visited)
  /\ (forall B, B ∈ Visited -> exists M, Out !! bb_self B = Some (Some M))
  /\ (forall a M, Out !! a = Some (Some M) ->
        exists B P, bb_self B = a /\ cfgPath RPO Entry (B :: P)
                    /\ Inv (pathInsts (B :: P)) M L).

Lemma transferInsts_trace (Ctx : ASTContext) (Is : list SILInstruction) :
  forall T St St',
    walkedTrace RPO Entry (T ++ Is) ->
    Inv T (Accesses St) (ConflictingAccesses St) ->
    Good (ConflictingAccesses St) ->
    transferInsts Ctx Is St = Ok St' ->
    Inv (T ++ Is) (Accesses St') (ConflictingAccesses St')
    /\ Good (ConflictingAccesses St').
Proof.
  induction Is as [|Ins Is IH]; intros T St St' HW HI HG H; simpl in H.
  - injection H as <-. rewrite app_nil_r. auto.
  - apply bindR_Ok in H as (St1 & H1 & H).
    replace (T ++ Ins :: Is) with ((T ++ [Ins]) ++ Is) in *
      by (rewrite <- app_assoc; reflexivity).
    destruct (Inv_step Ctx T Ins St St1 (walkedTrace_prefix _ _ _ _ HW) HI HG H1)
      as [HI1 HG1].
    exact (IH _ _ _ HW HI1 HG1 H).
Qed.

Lemma visitBlock_trace_entry (Ctx : ASTContext) (E : SILBasicBlock)
    (FnSt' : FunctionState) :
  E ∈ RPO -> bb_self E = Entry ->
  visitBlock Ctx E {| BlockOutAccesses := {[Entry := Some ∅]};
                      fs_ConflictingAccesses := [];
                      fs_CallsToSwap := [] |} = Ok FnSt' ->
  outInv (BlockOutAccesses FnSt') [E] (fs_ConflictingAccesses FnSt')
  /\ Good (fs_ConflictingAccesses FnSt').
Proof.
  intros HE HSelf H.
  apply visitBlock_Ok_inv in H as (M0 & St' & HM0 & HT & HC & _ & HOutSelf & HOther).
  cbn [BlockOutAccesses fs_ConflictingAccesses fs_CallsToSwap] in *.
  assert (HM0' : M0 = ∅).
  { destruct HM0 as [(p & _ & Hp)|Hp];
      apply lookup_singleton_Some in Hp as [_ Hp]; congruence. }
  subst M0.
  assert (HPath : cfgPath RPO Entry [E]) by (constructor; assumption).
  assert (HW : walkedTrace RPO Entry ([] ++ Insts E)).
  { exists [E], []. split; [exact HPath|].
    rewrite pathInsts_cons, app_nil_r. reflexivity. }
  destruct (transferInsts_trace Ctx (Insts E) []
              {| Accesses := ∅; ConflictingAccesses := []; CallsToSwap := [] |}
              St' HW Inv_init Good_init HT)
    as [HI HG].
  rewrite HC. split; [|exact HG]. split; [|split].
  - intros a [x Hx]. destruct (decide (a = bb_self E)) as [->|Hne].
    + apply list_elem_of_singleton. reflexivity.
    + rewrite (HOther a Hne) in Hx.
      apply lookup_singleton_Some in Hx as [Hx _]. congruence.
  - intros B HB. apply list_elem_of_singleton in HB. subst B. eauto.
  - intros a M Ha. destruct (decide (a = bb_self E)) as [->|Hne].
    + rewrite HOutSelf in Ha. injection Ha as <-.
      exists E, []. split; [reflexivity|]. split; [exact HPath|].
      rewrite pathInsts_cons. exact HI.
    + rewrite (HOther a Hne) in Ha.
      apply lookup_singleton_Some in Ha as [Ha _]. congruence.
Qed.

Lemma visitBlock_trace (Ctx : ASTContext) (Visited : list SILBasicBlock)
    (BB : SILBasicBlock) (Rest : list SILBasicBlock) (FnSt FnSt' : FunctionState) :
  RPO = Visited ++ BB :: Rest ->
  NoDup (bb_self <$> RPO) ->
  outInv (BlockOutAccesses FnSt) Visited (fs_ConflictingAccesses FnSt) ->
  Good (fs_ConflictingAccesses FnSt) ->
  visitBlock Ctx BB FnSt = Ok FnSt' ->
  outInv (BlockOutAccesses FnSt') (Visited ++ [BB]) (fs_ConflictingAccesses FnSt')
  /\ Good (fs_ConflictingAccesses FnSt').
Proof.
  intros HRPO HND (HDom & HAll & HPaths) HG H.
  assert (HBB : BB ∈ RPO).
  { rewrite HRPO. apply elem_of_app. right. apply list_elem_of_here. }
  assert (HFresh : bb_self BB ∉ bb_self <$> Visited).
  { rewrite HRPO, fmap_app, fmap_cons in HND.
    apply NoDup_app in HND as (_ & HND & _).
    intros HIn. apply (HND _ HIn). apply list_elem_of_here. }
  assert (HNone : BlockOutAccesses FnSt !! bb_self BB = None).
  { destruct (BlockOutAccesses FnSt !! bb_self BB) eqn:EL; [|reflexivity].
    exfalso. apply HFresh, HDom. eauto. }
  apply visitBlock_Ok_inv in H as (M0 & St' & HM0 & HT & HC & _ & HOutSelf & HOther).
  destruct HM0 as [(p & Hp & HM0)|HM0]; [|congruence].
  destruct (HPaths p M0 HM0) as (B & P & HBp & HPath & HI0).
  assert (HPath' : cfgPath RPO Entry (BB :: B :: P)).
  { constructor; [exact HPath | exact HBB | rewrite HBp; exact Hp]. }
  assert (HW : walkedTrace RPO Entry (pathInsts (B :: P) ++ Insts BB)).
  { exists (BB :: B :: P), []. split; [exact HPath'|].
    rewrite (pathInsts_cons BB), app_nil_r. reflexivity. }
  destruct (transferInsts_trace Ctx (Insts BB) (pathInsts (B :: P))
              {| Accesses := M0;
                 ConflictingAccesses := fs_ConflictingAccesses FnSt;
                 CallsToSwap := fs_CallsToSwap FnSt |} St' HW HI0 HG HT)
    as [HI HG'].
  destruct (transferInsts_conflicts_grow _ _ _ _ HT) as [L HL]. simpl in HL.
  rewrite HC. split; [|exact HG']. split; [|split].
  - intros a [x Hx]. rewrite fmap_app. apply elem_of_app.
    destruct (decide (a = bb_self BB)) as [->|Hne].
    + right. apply list_elem_of_singleton. reflexivity.
    + left. apply HDom. rewrite (HOther a Hne) in Hx. eauto.
  - intros B' HB'. apply elem_of_app in HB' as [HB'|HB'].
    + destruct (HAll B' HB') as [M HM]. exists M.
      rewrite HOther; [exact HM|].
      intros Heq. apply HFresh. rewrite <- Heq. apply list_elem_of_fmap. eauto.
    + apply list_elem_of_singleton in HB'. subst B'. eauto.
  - intros a M Ha. destruct (decide (a = bb_self BB)) as [->|Hne].
    + rewrite HOutSelf in Ha. injection Ha as <-.
      exists BB, (B :: P). split; [reflexivity|]. split; [exact HPath'|].
      rewrite (pathInsts_cons BB). exact HI.
    + rewrite (HOther a Hne) in Ha.
      destruct (HPaths a M Ha) as (B' & P' & HB' & HP' & HI').
      exists B', P'. split; [exact HB'|]. split; [exact HP'|].
      rewrite HL. apply Inv_mono, HI'.
Qed.

Lemma visitBlocks_trace (Ctx : ASTContext) (Rest : list SILBasicBlock) :
  NoDup (bb_self <$> RPO) ->
  forall (Visited : list SILBasicBlock) (FnSt FnSt' : FunctionState),
    RPO = Visited ++ Rest ->
    outInv (BlockOutAccesses FnSt) Visited (fs_ConflictingAccesses FnSt) ->
    Good (fs_ConflictingAccesses FnSt) ->
    visitBlocks Ctx Rest FnSt = Ok FnSt' ->
    outInv (BlockOutAccesses FnSt') RPO (fs_ConflictingAccesses FnSt')
    /\ Good (fs_ConflictingAccesses FnSt').
Proof.
  intros HND.
  induction Rest as [|BB Rest IH]; intros Visited FnSt FnSt' HRPO HInv HG H;
    simpl in H.
  - injection H as <-. rewrite app_nil_r in HRPO. subst Visited. auto.
  - apply bindR_Ok in H as (FnSt1 & H1 & H).
    destruct (visitBlock_trace Ctx Visited BB Rest FnSt FnSt1 HRPO HND HInv HG H1)
      as [HInv1 HG1].
    apply (IH (Visited ++ [BB]) FnSt1 FnSt'); try assumption.
    rewrite <- app_assoc. exact HRPO.
Qed.

(** The traversal that runs to its end leaves, for every block, an out
    state that [Inv] relates to the instructions along a path from the
    entry to the end of the block and to the recorded conflicts; the
    conflicts are [Good]. *)
Lemma traverse_trace (Fn : SILFunction) (E : SILBasicBlock)
    (Rest Rest' : list SILBasicBlock) (FnSt : FunctionState) :
  Blocks Fn = E :: Rest -> RPO = E :: Rest' -> bb_self E = Entry ->
  NoDup (bb_self <$> RPO) ->
  traverse Fn RPO = Ok FnSt ->
  (forall B, B ∈ RPO ->
     exists M P, BlockOutAccesses FnSt !! bb_self B = Some (Some M)
                 /\ cfgPath RPO Entry (B :: P)
                 /\ Inv (pathInsts (B :: P)) M (fs_ConflictingAccesses FnSt))
  /\ Good (fs_ConflictingAccesses FnSt).
Proof.
  intros HFn HRPO HSelf HND H. unfold traverse in H. rewrite HFn, HSelf in H.
  assert (HE : E ∈ RPO) by (rewrite HRPO; apply list_elem_of_here).
  remember (visitBlocks (getASTContext Fn) RPO _) as R eqn:ER.
  rewrite HRPO in ER. cbn [visitBlocks] in ER. subst R.
  apply bindR_Ok in H as (FnSt1 & H1 & H).
  destruct (visitBlock_trace_entry _ E FnSt1 HE HSelf H1) as [HInv1 HG1].
  destruct (visitBlocks_trace (getASTContext Fn) Rest' HND [E] FnSt1 FnSt
              HRPO HInv1 HG1 H) as [(HDom & HAll & HPaths) HG].
  split; [|exact HG].
  intros B HB. destruct (HAll B HB) as [M HM].
  destruct (HPaths _ M HM) as (B' & P & HB' & HPath & HI).
  assert (HIn' : B' ∈ RPO).
  { inversion HPath; assumption. }
  assert (B' = B).
  { apply list_elem_of_lookup in HIn' as [i Hi].
    apply list_elem_of_lookup in HB as [j Hj].
    assert (i = j).
    { apply (NoDup_lookup (bb_self <$> RPO) i j (bb_self B) HND);
        rewrite list_lookup_fmap; [rewrite Hi|rewrite Hj]; simpl; congruence. }
    congruence. }
  subst B'. eauto.
Qed.

End TraceInvariant.

(** ** Reported conflicts are genuine *)

Lemma nested_functional (Is : list SILInstruction) :
  forall Open O1 O2, nested Open Is O1 -> nested Open Is O2 -> O1 = O2.
Proof.
  induction Is as [|Ins Is IH]; intros Open O1 O2 H1 H2.
  - apply nested_nil_inv in H1, H2. congruence.
  - inversion H1; subst; inversion H2; subst; eauto.
Qed.

Lemma transferInsts_single (Ctx : ASTContext) (Ins : SILInstruction)
    (St St' : WalkState) :
  transfer Ctx Ins St = Ok St' -> transferInsts Ctx [Ins] St = Ok St'.
Proof. intros H. simpl. rewrite H. reflexivity. Qed.

Lemma walkedTrace_nested (RPO : list SILBasicBlock) (Entry : Addr)
    (T : list SILInstruction) :
  nestedMarkers RPO Entry -> walkedTrace RPO Entry T ->
  exists Open, nested [] T Open.
Proof.
  intros HWF (P & Post & HP & HE). destruct (HWF P HP) as [Open HN].
  rewrite HE in HN. apply nested_app_inv in HN as (Open1 & HN & _). eauto.
Qed.

Lemma walkedTrace_balanced (RPO : list SILBasicBlock) (Entry : Addr)
    (T : list SILInstruction) :
  wellFormedMarkers RPO Entry -> walkedTrace RPO Entry T ->
  exists Open, balanced [] T Open.
Proof.
  intros HWF (P & Post & HP & HE). destruct (HWF P HP) as [Open HN].
  rewrite HE in HN. apply balanced_app_inv in HN as (Open1 & HN & _). eauto.
Qed.

(** X7. On a function whose access markers are nested along every path,
    every conflict the walker records is genuine: on some path from the
    entry the new access begins while the prior access is still in
    progress, both resolve to the storage recorded with the conflict, and
    they are not both reads. *)
Theorem reported_conflicts_are_genuine :
  forall (Fn : SILFunction) (RPO : list SILBasicBlock) (Entry : SILBasicBlock)
         (Rest Rest' : list SILBasicBlock) (FnSt : FunctionState),
    Blocks Fn = Entry :: Rest -> RPO = Entry :: Rest' ->
    NoDup (bb_self <$> RPO) ->
    nestedMarkers RPO (bb_self Entry) ->
    traverse Fn RPO = Ok FnSt ->
    Forall (genuineConflict RPO (bb_self Entry)) (fs_ConflictingAccesses FnSt).
Proof.
  intros Fn RPO Entry Rest Rest' FnSt HFn HRPO HND HWF HT.
  refine (proj2 (traverse_trace RPO (bb_self Entry)
            (fun T M _ => forall Open, nested [] T Open -> abstractsNested Open M)
            (Forall (genuineConflict RPO (bb_self Entry)))
            _ _ _ _ Fn Entry Rest Rest' FnSt HFn HRPO eq_refl HND HT)).
  - intros Open HN. apply nested_nil_inv in HN. subst Open.
    apply abstractsNested_nil.
  - constructor.
  - auto.
  - intros Ctx T Ins St St' HW HI HG HStep.
    destruct (walkedTrace_nested _ _ _ HWF HW) as [Open1 HN1].
    destruct (nested_app_inv _ _ _ _ HN1) as (Open0 & HN0 & HNI).
    pose proof (HI Open0 HN0) as HA.
    assert (HNB : Forall notBothReads (ConflictingAccesses St)).
    { eapply Forall_impl; [exact HG|]. intros c (_ & _ & _ & Hc). exact Hc. }
    pose proof (transferInsts_nested Ctx [Ins] Open0 Open1 HNI St HA HNB) as HTN.
    rewrite (transferInsts_single _ _ _ _ HStep) in HTN.
    destruct HTN as [HA1 HNB1]. split.
    + intros Open HN.
      rewrite (nested_functional _ _ _ _ HN HN1). exact HA1.
    + rewrite (transfer_conflicts _ _ _ _ HStep) in HNB1 |- *.
      apply Forall_app. split; [exact HG|].
      apply Forall_app in HNB1 as [_ HNB1].
      destruct (conflictsOfStep_cases Ins (Accesses St))
        as [->|(BAI & S & F & -> & HS & HF & _ & _ & HEq)]; [constructor|].
      rewrite HEq in HNB1 |- *. constructor; [|constructor].
      inversion HNB1 as [|? ? Hnb _]; subst.
      apply lookupOrDefault_FirstAccess in HF as (Info & HK & HF).
      rewrite (proj2 HA _ _ HK) in HF.
      apply last_filter_elem in HF as [HIn HKF].
      unfold genuineConflict. cbn [ca_Storage ca_FirstAccess ca_SecondAccess].
      split; [|split; [exact HKF|split; [apply keyOf_Ok, HS | exact Hnb]]].
      destruct HW as (P & Post & HP & HE). exists P. split; [exact HP|].
      exists T, Post, Open0. rewrite HE, <- app_assoc. auto.
Qed.

(** ** Conflicting overlaps are reported *)

Lemma balanced_begin_inv (Open Open' : list BeginAccessInst)
    (BAI : BeginAccessInst) :
  balanced Open [IBeginAccess BAI] Open' ->
  Open' = BAI :: Open /\ Z.of_nat (length Open) + 1 < UINT_MOD.
Proof.
  inversion 1 as [|? ? ? ? HLen HB| | | |]; subst.
  apply balanced_nil_inv in HB. auto.
Qed.

Lemma balanced_end_inv (Open Open' : list BeginAccessInst)
    (EAI : EndAccessInst) :
  balanced Open [IEndAccess EAI] Open' ->
  exists O1 O2, Open = O1 ++ getBeginAccess EAI :: O2 /\ Open' = O1 ++ O2.
Proof.
  inversion 1 as [| |O1 O2 ? ? ? HB| | |]; subst.
  apply balanced_nil_inv in HB. eauto.
Qed.

Lemma abstracts_counters (Open : list BeginAccessInst) (M : StorageMap)
    (K : StorageKey) :
  abstracts Open M ->
  Reads (lookupOrDefault M K) = countOpen K true Open
  /\ NonReads (lookupOrDefault M K) = countOpen K false Open
  /\ countOpen K true Open + countOpen K false Open < UINT_MOD
  /\ (0 < countOpen K true Open + countOpen K false Open ->
      exists Info, M !! K = Some Info /\ FirstAccess Info <> None).
Proof.
  intros [HLen HA]. specialize (HA K).
  pose proof (countOpen_both_le K Open) as HLe.
  unfold lookupOrDefault. destruct (M !! K) as [Info|]; simpl.
  - destruct HA as (HR & HN & HF & HP). repeat split; try assumption; [lia|].
    intros _. eauto.
  - destruct HA as [HR HN]. rewrite HR, HN. repeat split; try lia.
Qed.

Lemma alreadyHadConflict_mono (I1 I2 : AccessInfo) :
  Reads I1 <= Reads I2 -> NonReads I1 <= NonReads I2 ->
  alreadyHadConflict I1 = true -> alreadyHadConflict I2 = true.
Proof.
  unfold alreadyHadConflict. intros HR HN.
  rewrite !orb_true_iff, !andb_true_iff, !Z.ltb_lt. lia.
Qed.

Lemma elem_of_app_l {A : Type} (x : A) (l1 l2 : list A) :
  (exists c, c ∈ l1 /\ c = x) -> x ∈ l1 ++ l2.
Proof. intros (c & Hc & <-). apply elem_of_app. auto. Qed.

Lemma reported_mono (L L' : list ConflictingAccess) (K : StorageKey) :
  (exists c, c ∈ L /\ storageKey (ca_Storage c) = K) ->
  exists c, c ∈ L ++ L' /\ storageKey (ca_Storage c) = K.
Proof.
  intros (c & Hc & HK). exists c. split; [apply elem_of_app; auto | exact HK].
Qed.

(** A [begin_access] that conflicts with the accesses in progress is
    reported at once or its location already had a conflict. *)
Lemma begin_conflict_reported (BAI : BeginAccessInst) (M : StorageMap)
    (L : list ConflictingAccess) (Storage : AccessedStorage) :
  findAccessedStorage (getSource BAI) = Ok Storage ->
  hadConflictReported M L ->
  conflictsWithAccess (lookupOrDefault M (storageKey Storage))
                      (getAccessKind BAI) = true ->
  FirstAccess (lookupOrDefault M (storageKey Storage)) <> None ->
  exists c, c ∈ L ++ conflictsOfStep (IBeginAccess BAI) M
            /\ storageKey (ca_Storage c) = storageKey Storage.
Proof.
  intros HS HH HC HF. cbn [conflictsOfStep]. rewrite HS. unfold newConflicts.
  rewrite HC. cbn [andb].
  destruct (alreadyHadConflict (lookupOrDefault M (storageKey Storage))) eqn:EA.
  - apply reported_mono. unfold lookupOrDefault in EA.
    destruct (M !! storageKey Storage) as [Info|] eqn:EK; simpl in EA;
      [|discriminate EA].
    exact (HH _ Info EK EA).
  - cbn [negb]. destruct (FirstAccess _) as [F|]; [|congruence].
    eexists. split; [apply elem_of_app; right; apply list_elem_of_here|].
    reflexivity.
Qed.

Lemma overlaps_step (RPO : list SILBasicBlock) (Entry : Addr) (Ctx : ASTContext)
    (T : list SILInstruction) (Ins : SILInstruction) (St St' : WalkState) :
  wellFormedMarkers RPO Entry ->
  walkedTrace RPO Entry (T ++ [Ins]) ->
  (forall Open, balanced [] T Open -> abstracts Open (Accesses St)) ->
  hadConflictReported (Accesses St) (ConflictingAccesses St) ->
  overlapsReported T (ConflictingAccesses St) ->
  transfer Ctx Ins St = Ok St' ->
  (forall Open, balanced [] (T ++ [Ins]) Open -> abstracts Open (Accesses St'))
  /\ hadConflictReported (Accesses St') (ConflictingAccesses St')
  /\ overlapsReported (T ++ [Ins]) (ConflictingAccesses St').
Proof.
  intros HWF HW HI HH HO HStep.
  destruct (walkedTrace_balanced _ _ _ HWF HW) as [Open1 HB1].
  destruct (balanced_app_inv _ _ _ _ HB1) as (Open0 & HB0 & HBI).
  pose proof (HI Open0 HB0) as HA0.
  rewrite (transfer_conflicts _ _ _ _ HStep).
  split; [|split].
  - intros Open HB. apply balanced_app_inv in HB as (O0 & HBa & HBb).
    pose proof (transferInsts_abstracts Ctx [Ins] O0 Open HBb St (HI O0 HBa)) as HT.
    rewrite (transferInsts_single _ _ _ _ HStep) in HT. exact HT.
  - intros K Info' HK' HAHC.
    destruct Ins as [BAI|EAI|AI| |].
    + simpl in HStep.
      apply transferBeginAccess_Ok_inv in HStep as (S & HS & ->).
      simpl in HK'. destruct (decide (storageKey S = K)) as [HKe|Hne].
      2:{ rewrite lookup_insert_ne in HK' by exact Hne.
          apply reported_mono. exact (HH K Info' HK' HAHC). }
      rewrite HKe in HK'. rewrite lookup_insert_eq in HK'. injection HK' as <-.
      apply balanced_begin_inv in HBI as [_ HLen].
      destruct (abstracts_counters Open0 (Accesses St) K HA0)
        as (HR & HN & HSum & HEx).
      pose proof (countOpen_nonneg K true Open0) as H0r.
      pose proof (countOpen_nonneg K false Open0) as H0n.
      pose proof (countOpen_both_le K Open0) as HLe.
      rewrite <- HKe. apply (begin_conflict_reported BAI _ _ S HS HH);
        rewrite HKe.
      * revert HAHC. unfold alreadyHadConflict, conflictsWithAccess, beginCounted.
        cbn [Reads NonReads]. fold (isRead BAI). rewrite HR, HN.
        destruct (isRead BAI); rewrite ?uinc_small by lia;
          rewrite !orb_true_iff, ?andb_true_iff, !Z.ltb_lt; lia.
      * assert (HPos : 0 < countOpen K true Open0 + countOpen K false Open0).
        { revert HAHC. unfold alreadyHadConflict, beginCounted.
          cbn [Reads NonReads]. rewrite HR, HN.
          destruct (isRead BAI); rewrite ?uinc_small by lia;
            rewrite !orb_true_iff, ?andb_true_iff, !Z.ltb_lt; lia. }
        destruct (HEx HPos) as (Info0 & HK0 & HF0).
        unfold lookupOrDefault. rewrite HK0. exact HF0.
    + simpl in HStep.
      apply transferEndAccess_Ok_inv in HStep as (S & Info & HS & E0 & ->).
      simpl in HK'. cbn [conflictsOfStep]. rewrite app_nil_r.
      destruct (decide (storageKey S = K)) as [HKe|Hne].
      2:{ apply (HH K Info'); [|exact HAHC].
          destruct (negb _); [rewrite lookup_delete_ne in HK' by exact Hne
                             | rewrite lookup_insert_ne in HK' by exact Hne];
            exact HK'. }
      rewrite HKe in HK', E0.
      destruct (negb _).
      { rewrite lookup_delete_eq in HK'. discriminate HK'. }
      rewrite lookup_insert_eq in HK'. injection HK' as <-.
      apply (HH K Info E0).
      apply balanced_end_inv in HBI as (O1 & O2 & HOpen & _).
      set (b := getBeginAccess EAI) in *.
      assert (HKb : keyOf b = Some K).
      { rewrite <- HKe. apply keyOf_Ok. exact HS. }
      assert (HInb : b ∈ Open0).
      { rewrite HOpen. apply elem_of_app. right. apply list_elem_of_here. }
      destruct (abstracts_counters Open0 (Accesses St) K HA0)
        as (HR & HN & HSum & _).
      unfold lookupOrDefault in HR, HN. rewrite E0 in HR, HN. simpl in HR, HN.
      pose proof (countOpen_nonneg K true Open0) as H0r.
      pose proof (countOpen_nonneg K false Open0) as H0n.
      pose proof (countOpen_elem K (isRead b) b Open0 HInb HKb eq_refl) as HPos.
      apply (alreadyHadConflict_mono (endAccess Info EAI) Info); [| |exact HAHC];
        unfold endAccess; cbn [Reads NonReads]; fold b; fold (isRead b);
        destruct (isRead b); try lia; rewrite udec_pos; lia.
    + rewrite (transfer_other_Accesses Ctx (IApply AI) St St'
                 ltac:(discriminate) ltac:(discriminate) HStep) in HK'.
      apply reported_mono. exact (HH K Info' HK' HAHC).
    + rewrite (transfer_other_Accesses Ctx IReturn St St'
                 ltac:(discriminate) ltac:(discriminate) HStep) in HK'.
      apply reported_mono. exact (HH K Info' HK' HAHC).
    + rewrite (transfer_other_Accesses Ctx IOther St St'
                 ltac:(discriminate) ltac:(discriminate) HStep) in HK'.
      apply reported_mono. exact (HH K Info' HK' HAHC).
  - intros F N K (Pre & Post & Open & HE & HB & HIn) HKF HKN HRW.
    destruct Post as [|x Post _] using rev_ind.
    + apply app_inj_tail in HE as [<- ->].
      simpl in HStep.
      pose proof HStep as HStep'.
      apply transferBeginAccess_Ok_inv in HStep' as (S & HS & _).
      assert (HKe : storageKey S = K).
      { pose proof (keyOf_Ok N S HS) as HK'. congruence. }
      pose proof (HI Open HB) as HA.
      destruct (abstracts_counters Open (Accesses St) K HA)
        as (HR & HN & HSum & HEx).
      pose proof (countOpen_nonneg K true Open) as H0r.
      pose proof (countOpen_nonneg K false Open) as H0n.
      pose proof (countOpen_elem K (isRead F) F Open HIn HKF eq_refl) as HPos.
      rewrite <- HKe. apply (begin_conflict_reported N _ _ S HS HH);
        rewrite HKe.
      * unfold conflictsWithAccess. fold (isRead N). rewrite HR, HN.
        destruct (isRead N), (isRead F); try discriminate HRW;
          rewrite ?orb_true_iff, !Z.ltb_lt; lia.
      * destruct HEx as (Info0 & HK0 & HF0); [destruct (isRead F); lia|].
        unfold lookupOrDefault. rewrite HK0. exact HF0.
    + rewrite app_comm_cons, app_assoc in HE.
      apply app_inj_tail in HE as [-> _].
      apply reported_mono. apply (HO F N K); try assumption.
      exists Pre, Post, Open. auto.
Qed.

(** X8. On a function with well-formed access markers, the traversal
    that runs to its end reaches every block along a path from the entry
    on which every conflicting overlap is reported: whenever an access
    begins while an access to the same storage is in progress, and they
    are not both reads, some conflict on that storage is recorded. *)
Theorem conflicting_overlaps_are_reported :
  forall (Fn : SILFunction) (RPO : list SILBasicBlock) (Entry : SILBasicBlock)
         (Rest Rest' : list SILBasicBlock) (FnSt : FunctionState),
    Blocks Fn = Entry :: Rest -> RPO = Entry :: Rest' ->
    NoDup (bb_self <$> RPO) ->
    wellFormedMarkers RPO (bb_self Entry) ->
    traverse Fn RPO = Ok FnSt ->
    forall B, B ∈ RPO ->
      exists P, cfgPath RPO (bb_self Entry) (B :: P)
                /\ overlapsReported (pathInsts (B :: P))
                                    (fs_ConflictingAccesses FnSt).
Proof.
  intros Fn RPO Entry Rest Rest' FnSt HFn HRPO HND HWF HT B HB.
  destruct (traverse_trace RPO (bb_self Entry)
              (fun T M L =>
                 (forall Open, balanced [] T Open -> abstracts Open M)
                 /\ hadConflictReported M L /\ overlapsReported T L)
              (fun _ => True))
    with (Fn := Fn) (E := Entry) (Rest := Rest) (Rest' := Rest') (FnSt := FnSt)
    as [HAll _]; try assumption; try reflexivity.
  - split; [|split].
    + intros Open HN. apply balanced_nil_inv in HN. subst Open. apply abstracts_nil.
    + intros K Info HK. rewrite lookup_empty in HK. discriminate HK.
    + intros F N K (Pre & Post & Open & HE & _). destruct Pre; discriminate HE.
  - intros T M L L' (H1 & H2 & H3). split; [exact H1|]. split.
    + intros K Info HK HA. apply reported_mono. exact (H2 K Info HK HA).
    + intros F N K HOv HKF HKN HRW. apply reported_mono.
      exact (H3 F N K HOv HKF HKN HRW).
  - intros Ctx T Ins St St' HW (H1 & H2 & H3) _ HStep. split; [|exact I].
    exact (overlaps_step RPO (bb_self Entry) Ctx T Ins St St' HWF HW H1 H2 H3 HStep).
  - destruct (HAll B HB) as (M & P & _ & HP & _ & _ & HO). eauto.
Qed.

(** ** The resolver and the root of an address *)

Lemma findAccessedStorage_rootOf (V : SILValue) :
  findAccessedStorage V = findAccessedStorage (rootOf V).
Proof.
  induction V as [p G|p Op IH n F|p d|p d|p K|p K Op IH]; try reflexivity.
  simpl. destruct (isLookThrough K) eqn:EK; [exact IH|].
  simpl. rewrite EK. reflexivity.
Qed.

Lemma rootOf_not_lookThrough (V : SILValue) :
  forall p K Op, rootOf V = Inst1 p K Op -> isLookThrough K = false.
Proof.
  induction V as [p G|p Op IH n F|p d|p d|p K|p K Op IH]; simpl;
    intros q K' Op' H; try discriminate H.
  destruct (isLookThrough K) eqn:EK; [eauto|]. injection H as <- <- <-. exact EK.
Qed.

Lemma rootOf_idempotent (V : SILValue) : rootOf (rootOf V) = rootOf V.
Proof.
  destruct (rootOf V) as [p G|p Op n F|p d|p d|p K|p K Op] eqn:ER; try reflexivity.
  simpl. rewrite (rootOf_not_lookThrough V p K Op ER). reflexivity.
Qed.

Lemma findAccessedStorage_root_Ok (V : SILValue) :
  (exists S, findAccessedStorage V = Ok S) <-> isRecognizedRoot (rootOf V) = true.
Proof.
  rewrite findAccessedStorage_rootOf.
  destruct (rootOf V) as [p G|p Op n F|p d|p d|p K|p K Op] eqn:ER; simpl;
    try (split; [reflexivity | eauto]).
  - destruct K; simpl; split; intros H; try discriminate H; eauto;
      destruct H as [S H]; discriminate H.
  - rewrite (rootOf_not_lookThrough V p K Op ER).
    destruct (isBaseProducer K); split; intros H; try discriminate H; eauto.
    destruct H as [S H]; discriminate H.
Qed.

(** X9. The storage an address resolves to depends on the root of its
    producer chain only: projections of subobjects, casts and copies on
    the way are ignored, so two addresses derived from one base resolve
    alike.  The resolver succeeds iff the root is a recognised producer,
    and a storage identified by a value is identified by the root, which
    resolves to itself. *)
Theorem findAccessedStorage_depends_on_root :
  forall V : SILValue,
    findAccessedStorage V = findAccessedStorage (rootOf V)
    /\ rootOf (rootOf V) = rootOf V
    /\ ((exists S, findAccessedStorage V = Ok S)
        <-> isRecognizedRoot (rootOf V) = true)
    /\ (forall B, findAccessedStorage V = Ok (OfValue B) ->
                  B = rootOf V /\ findAccessedStorage B = Ok (OfValue B))
    /\ (forall p K, isLookThrough K = true ->
                    findAccessedStorage (Inst1 p K V) = findAccessedStorage V)
    /\ (forall V', rootOf V' = rootOf V ->
                   findAccessedStorage V' = findAccessedStorage V).
Proof.
  intros V. split; [apply findAccessedStorage_rootOf|].
  split; [apply rootOf_idempotent|].
  split; [apply findAccessedStorage_root_Ok|].
  split; [|split].
  - intros B H. rewrite findAccessedStorage_rootOf in H.
    assert (HB : B = rootOf V).
    { destruct (rootOf V) as [p G|p Op n F|p d|p d|p K|p K Op] eqn:ER;
        simpl in H; try discriminate H; try (injection H as <-; reflexivity).
      - destruct (isLookThrough K); [discriminate H|].
        destruct (isBaseProducer K); [|discriminate H].
        injection H as <-. reflexivity.
      - rewrite (rootOf_not_lookThrough V p K Op ER) in H.
        destruct (isBaseProducer K); [|discriminate H].
        injection H as <-. reflexivity. }
    split; [exact HB|]. rewrite <- HB in H. exact H.
  - intros p K HK. simpl. rewrite HK. reflexivity.
  - intros V' HR.
    rewrite (findAccessedStorage_rootOf V'), HR. symmetry.
    apply findAccessedStorage_rootOf.
Qed.

(** ** Class properties *)

Lemma findUnderlyingObject_not_borrow (V : SILValue) :
  isBeginBorrow (findUnderlyingObject V) = false.
Proof.
  induction V as [p G|p Op IH n F|p d|p d|p K|p K Op IH]; try reflexivity.
  destruct K; try reflexivity. exact IH.
Qed.

Lemma findUnderlyingObject_fixed (V : SILValue) :
  isBeginBorrow V = false -> findUnderlyingObject V = V.
Proof.
  destruct V as [p G|p Op n F|p d|p d|p K|p K Op]; try reflexivity.
  destruct K; try reflexivity. discriminate.
Qed.

(** X10. A [ref_element_addr] always resolves, to the class property
    given by the object its operand denotes once every [begin_borrow] is
    looked through and by the number of the field.  Two such addresses
    have equal storage identities iff the underlying objects are the same
    value and the field numbers agree; the borrows, the instructions
    themselves and the field declarations play no role. *)
Theorem class_property_identity :
  (forall p1 Op1 n1 F1 p2 Op2 n2 F2,
      exists S1 S2,
        findAccessedStorage (RefElementAddr p1 Op1 n1 F1) = Ok S1
        /\ findAccessedStorage (RefElementAddr p2 Op2 n2 F2) = Ok S2
        /\ getKind S1 = ClassProperty
        /\ getStorageDecl S1 = F1
        /\ (isEqual S1 S2 = true <->
            addrOf (findUnderlyingObject Op1) = addrOf (findUnderlyingObject Op2)
            /\ n1 = n2))
  /\ (forall q V,
        findUnderlyingObject (Inst1 q ValueKind.BeginBorrowInst V)
        = findUnderlyingObject V)
  /\ (forall V,
        isBeginBorrow (findUnderlyingObject V) = false
        /\ findUnderlyingObject (findUnderlyingObject V) = findUnderlyingObject V
        /\ (isBeginBorrow V = false -> findUnderlyingObject V = V)).
Proof.
  split; [|split].
  - intros p1 Op1 n1 F1 p2 Op2 n2 F2. eexists. eexists.
    split; [reflexivity|]. split; [reflexivity|].
    split; [reflexivity|]. split; [reflexivity|].
    rewrite isEqual_storageKey. simpl. split.
    + intros [= H1 H2]. auto.
    + intros [-> ->]. reflexivity.
  - reflexivity.
  - intros V. split; [apply findUnderlyingObject_not_borrow|]. split.
    + apply findUnderlyingObject_fixed, findUnderlyingObject_not_borrow.
    + apply findUnderlyingObject_fixed.
Qed.

(** ** The declaration a diagnostic names *)

Lemma getStorageDecl_root (V : SILValue) (S : AccessedStorage) :
  findAccessedStorage V = Ok S -> getStorageDecl S = declOfRoot V.
Proof.
  rewrite findAccessedStorage_rootOf. unfold declOfRoot.
  destruct (rootOf V) as [p G|p Op n F|p d|p d|p K|p K Op] eqn:ER; simpl;
    try (intros [= <-]; reflexivity).
  - destruct (isLookThrough K); [discriminate|].
    destruct (isBaseProducer K); [|discriminate]. intros [= <-]. reflexivity.
  - rewrite (rootOf_not_lookThrough V p K Op ER).
    destruct (isBaseProducer K); [|discriminate]. intros [= <-]. reflexivity.
Qed.

(** X13. The primary diagnostic of a conflict names a declaration iff
    the root of the new access's address has one: the declaration of the
    global, of the class field, of the box or of the function argument.
    A conflict on storage rooted at an [alloc_stack], at an enclosing
    [begin_access] or at a [pointer_to_address] is reported with the
    diagnostic for an unknown declaration, and without fix-it. *)
Theorem diagnostic_names_declaration_of_root :
  forall (Storage : AccessedStorage) (Prior New : BeginAccessInst)
         (Calls : list ApplyInst) (Ctx : ASTContext) (Ds : list Diagnostic),
    findAccessedStorage (getSource New) = Ok Storage ->
    diagnoseExclusivityViolation Storage Prior New Calls Ctx = Ok Ds ->
    getStorageDecl Storage = declOfRoot (getSource New)
    /\ match declOfRoot (getSource New) with
       | Some VD =>
           exists Fix,
             Ds = [primaryFor Ctx VD (mainAccess Prior New) Fix;
                   noteFor (noteAccess Prior New)]
       | None =>
           Ds = [primaryUnknownFor Ctx (mainAccess Prior New);
                 noteFor (noteAccess Prior New)]
       end
    /\ (forall p K Op,
          (rootOf (getSource New) = Inst0 p K
           \/ rootOf (getSource New) = Inst1 p K Op) ->
          Ds = [primaryUnknownFor Ctx (mainAccess Prior New);
                noteFor (noteAccess Prior New)]
          /\ forall D, D ∈ Ds -> diag_FixIt D = None).
Proof.
  intros Storage Prior New Calls Ctx Ds HS HD.
  pose proof (getStorageDecl_root _ _ HS) as HDecl.
  apply diagnoseExclusivityViolation_Ok in HD as [_ HD]. rewrite HDecl in HD.
  split; [exact HDecl|]. split.
  - destruct (declOfRoot (getSource New)) as [VD|]; [|exact HD].
    destruct HD as (Fix & _ & ->). eauto.
  - intros p K Op HRoot.
    assert (HNone : declOfRoot (getSource New) = None).
    { unfold declOfRoot. destruct HRoot as [-> | ->]; reflexivity. }
    rewrite HNone in HD. subst Ds. split; [reflexivity|].
    intros D HIn. apply elem_of_cons in HIn as [->|HIn]; [reflexivity|].
    apply list_elem_of_singleton in HIn. subst D. reflexivity.
Qed.

(** ** The storage map counts the accesses in progress *)

(** X12. On a function with well-formed access markers, the out state of
    every block that has one counts the accesses in progress at the end
    of a path from the entry to the end of the block: a storage location
    has a record iff an access to it is in progress, and the counters of
    the record are the numbers of reads and of write-like accesses in
    progress; no record without an access in progress is kept. *)
Theorem storage_map_counts_accesses_in_progress :
  forall (Fn : SILFunction) (RPO : list SILBasicBlock) (Entry : SILBasicBlock)
         (Rest Rest' : list SILBasicBlock) (FnSt : FunctionState)
         (a : Addr) (M : StorageMap),
    Blocks Fn = Entry :: Rest -> RPO = Entry :: Rest' ->
    NoDup (bb_self <$> RPO) ->
    wellFormedMarkers RPO (bb_self Entry) ->
    traverse Fn RPO = Ok FnSt ->
    BlockOutAccesses FnSt !! a = Some (Some M) ->
    exists B P Open,
      bb_self B = a /\ cfgPath RPO (bb_self Entry) (B :: P)
      /\ balanced [] (pathInsts (B :: P)) Open
      /\ forall K,
           match M !! K with
           | None => forall b, b ∈ Open -> keyOf b <> Some K
           | Some Info =>
               Reads Info = countOpen K true Open
               /\ NonReads Info = countOpen K false Open
               /\ hasAccessesInProgress Info = true
               /\ exists b, b ∈ Open /\ keyOf b = Some K
           end.
Proof.
  intros Fn RPO Entry Rest Rest' FnSt a M HFn HRPO HND HWF HT Ha.
  pose proof (traverse_invariant Fn RPO Entry Rest Rest' HFn HRPO HND HWF) as HI.
  rewrite HT in HI. destruct HI as (_ & _ & HPaths).
  destruct (HPaths a M Ha) as (B & P & HB & HPath & HAbs).
  destruct (HWF _ HPath) as [Open HBal].
  exists B, P, Open. split; [exact HB|]. split; [exact HPath|].
  split; [exact HBal|]. intros K.
  destruct (HAbs Open HBal) as [_ HA]. specialize (HA K).
  pose proof (countOpen_nonneg K true Open) as H0r.
  pose proof (countOpen_nonneg K false Open) as H0n.
  destruct (M !! K) as [Info|].
  - destruct HA as (HR & HN & _ & HPos).
    split; [exact HR|]. split; [exact HN|]. split.
    + unfold hasAccessesInProgress. rewrite HR, HN.
      apply orb_true_iff. rewrite !Z.ltb_lt. lia.
    + rewrite <- countOpen_filter in HPos.
      destruct (filter (fun b => keyOf b = Some K) Open) as [|b l] eqn:EF;
        [simpl in HPos; lia|].
      assert (Hb : b ∈ filter (fun b => keyOf b = Some K) Open)
        by (rewrite EF; apply list_elem_of_here).
      apply list_elem_of_filter in Hb. exists b. tauto.
  - destruct HA as [HR HN]. intros b Hb Hk.
    pose proof (countOpen_elem K (isRead b) b Open Hb Hk eq_refl) as HPos.
    destruct (isRead b); lia.
Qed.

(** ** Hashing of storage identities *)

(** X14. Storage identities that compare equal have the same hash value,
    as a hashed map requires of its keys, provided the library's hash of
    a projection respects the equality of projections. *)
Theorem equal_storage_has_equal_hash :
  forall (H : HashFunctions) (LHS RHS : AccessedStorage),
    hashRespectsProjections H ->
    isEqual LHS RHS = true ->
    getHashValue H LHS = getHashValue H RHS.
Proof.
  intros H LHS RHS HP HE.
  destruct LHS as [V1|G1|[O1 P1]], RHS as [V2|G2|[O2 P2]];
    unfold isEqual in HE; simpl in HE; try discriminate HE.
  - unfold SILValue_eq in HE. apply N.eqb_eq in HE. simpl. congruence.
  - apply N.eqb_eq in HE. simpl. congruence.
  - unfold ObjectProjection_eq, SILValue_eq in HE. simpl in HE.
    apply andb_true_iff in HE as [HO HPr]. apply N.eqb_eq in HO.
    simpl. rewrite HO. apply HP, HPr.
Qed.

(** ** The migrator *)

Lemma back_Ok {E : Migrator.Externals} (States : list (Migrator.MigrationState E))
    (State : Migrator.MigrationState E) :
  Migrator.back E States = Ok State -> last States = Some State.
Proof.
  unfold Migrator.back. destruct (last States); [congruence | discriminate].
Qed.

Lemma back_snoc {E : Migrator.Externals} (States : list (Migrator.MigrationState E))
    (State : Migrator.MigrationState E) :
  Migrator.back E (States ++ [State]) = Ok State.
Proof. unfold Migrator.back. rewrite last_snoc. reflexivity. Qed.

Lemma performAFixItMigration_inv (E : Migrator.Externals)
    (V : Migrator.Version) (M M' : Migrator.Migrator E)
    (W W' : Migrator.World E) (r : option (Migrator.CompilerInstance E)) :
  Migrator.performAFixItMigration E V M W = Ok (r, M', W') ->
  Migrator.StartInstance E M' = Migrator.StartInstance E M
  /\ Migrator.StartInvocation E M' = Migrator.StartInvocation E M
  /\ match r with
     | None => Migrator.States E M' = Migrator.States E M
     | Some _ =>
         exists State,
           Migrator.States E M' = Migrator.States E M ++ [State]
           /\ isFixitState E State
     end.
Proof.
  unfold Migrator.performAFixItMigration. intros H.
  apply bindR_Ok in H as (InputState & _ & H). cbv beta in H.
  apply bindR_Ok in H as (Name & _ & H). cbv beta zeta in H.
  destruct (Migrator.setup E _ W) as [[Instance|] W1].
  - apply bindR_Ok in H as (Name' & _ & H). cbv beta in H.
    destruct (Migrator.performSema E Instance _ Name' W1) as [[Num Printed] W2].
    destruct (if (0 <? Num)%N then _ else _) as [ResultBufferID W3].
    injection H as <- <- <-. simpl. split; [reflexivity|]. split; [reflexivity|].
    eexists. split; [reflexivity|]. eexists. eexists. reflexivity.
  - injection H as <- <- <-. auto.
Qed.

Lemma repeatFixitMigrations_loop_inv (E : Migrator.Externals)
    (V : Migrator.Version) (Left : nat) :
  forall (M M' : Migrator.Migrator E) (W W' : Migrator.World E)
         (r : option (Migrator.CompilerInstance E)),
    Migrator.repeatFixitMigrations_loop E Left V M W = Ok (r, M', W') ->
    Migrator.StartInstance E M' = Migrator.StartInstance E M
    /\ Migrator.StartInvocation E M' = Migrator.StartInvocation E M
    /\ exists New,
         Migrator.States E M' = Migrator.States E M ++ New
         /\ (length New <= Left)%nat
         /\ Forall (isFixitState E) New
         /\ match r with
            | None => Forall (changesOccurred E) New
            | Some _ =>
                exists Prev Last,
                  New = Prev ++ [Last]
                  /\ Forall (changesOccurred E) Prev
                  /\ Migrator.noChangesOccurred E Last = true
            end.
Proof.
  induction Left as [|Left IH]; intros M M' W W' r H; simpl in H.
  - injection H as <- <- <-. split; [reflexivity|]. split; [reflexivity|].
    exists []. rewrite app_nil_r. repeat split; constructor.
  - apply bindR_Ok in H as ([[ThisInstance M1] W1] & HP & H). cbv beta in H.
    apply performAFixItMigration_inv in HP as (HI1 & HV1 & HS1).
    destruct ThisInstance as [Instance|].
    + destruct HS1 as (State & HS1 & HFix).
      apply bindR_Ok in H as (Back & HB & H). cbv beta in H.
      rewrite HS1, back_snoc in HB. injection HB as <-.
      destruct (Migrator.noChangesOccurred E State) eqn:EN.
      * injection H as <- <- <-. split; [exact HI1|]. split; [exact HV1|].
        exists [State]. split; [exact HS1|]. split; [simpl; lia|].
        split; [constructor; [exact HFix | constructor]|].
        exists [], State. split; [reflexivity|]. split; [constructor | exact EN].
      * destruct (IH _ _ _ _ _ H) as (HI2 & HV2 & New & HS2 & HLen & HAll & HR).
        split; [congruence|]. split; [congruence|].
        exists (State :: New). split; [rewrite HS2, HS1, <- app_assoc; reflexivity|].
        split; [simpl; lia|]. split; [constructor; assumption|].
        destruct r as [I|].
        -- destruct HR as (Prev & Last & -> & HPrev & HLast).
           exists (State :: Prev), Last. split; [reflexivity|].
           split; [constructor; assumption | exact HLast].
        -- constructor; assumption.
    + injection H as <- <- <-. split; [exact HI1|]. split; [exact HV1|].
      exists []. rewrite app_nil_r. split; [exact HS1|]. split; [simpl; lia|].
      split; constructor.
Qed.

(** X15. [repeatFixitMigrations] returns a compiler instance only when
    its last fix-it pass left the text unchanged: it pushes one state for
    each pass that was set up, at most [Iterations] of them, every pass
    but the last one changed the text, and the result is an instance iff
    the last pass changed nothing.  It returns no instance when a pass
    cannot be set up, when the passes run out before the text is stable,
    and when [Iterations] is zero. *)
Theorem repeatFixitMigrations_stops_at_fixed_point :
  forall (E : Migrator.Externals) (Iterations : N) (V : Migrator.Version)
         (M M' : Migrator.Migrator E) (W W' : Migrator.World E)
         (r : option (Migrator.CompilerInstance E)),
    Migrator.repeatFixitMigrations E Iterations V M W = Ok (r, M', W') ->
    Migrator.StartInstance E M' = Migrator.StartInstance E M
    /\ Migrator.StartInvocation E M' = Migrator.StartInvocation E M
    /\ (exists New,
          Migrator.States E M' = Migrator.States E M ++ New
          /\ (N.of_nat (length New) <= Iterations)%N
          /\ Forall (isFixitState E) New
          /\ match r with
             | None => Forall (changesOccurred E) New
             | Some _ =>
                 exists Prev Last,
                   New = Prev ++ [Last]
                   /\ Forall (changesOccurred E) Prev
                   /\ Migrator.noChangesOccurred E Last = true
             end)
    /\ (Iterations = 0%N -> r = None /\ M' = M /\ W' = W).
Proof.
  intros E Iterations V M M' W W' r H. unfold Migrator.repeatFixitMigrations in H.
  destruct (repeatFixitMigrations_loop_inv E V _ _ _ _ _ _ H)
    as (HI & HV & New & HS & HLen & HAll & HR).
  split; [exact HI|]. split; [exact HV|]. split.
  - exists New. split; [exact HS|]. split; [lia|]. auto.
  - intros ->. simpl in H. injection H as <- <- <-. auto.
Qed.

Lemma performSyntacticPasses_inv (E : Migrator.Externals)
    (M M' : Migrator.Migrator E) (W W' : Migrator.World E) (Failed : bool) :
  Migrator.performSyntacticPasses E M W = Ok (Failed, M', W') ->
  Failed = false
  /\ Migrator.StartInstance E M' = Migrator.StartInstance E M
  /\ Migrator.StartInvocation E M' = Migrator.StartInvocation E M
  /\ exists Last ResultBuffer,
       last (Migrator.States E M) = Some Last
       /\ Migrator.States E M'
          = Migrator.States E M
            ++ [Migrator.MigrationState_make E Migrator.Syntactic
                  (Migrator.getInputBufferID E Last) ResultBuffer].
Proof.
  unfold Migrator.performSyntacticPasses. intros H.
  apply bindR_Ok in H as (InputState & HB & H). cbv beta zeta in H.
  destruct (Migrator.getPrimarySourceFile E _ W) as [File|]; [|discriminate H].
  destruct (Migrator.getBufferID E File) as [BufferID|]; [|discriminate H].
  destruct (Migrator.addMemBufferCopy E _ W) as [ResultBuffer W1].
  rewrite HB in H. simpl in H. injection H as <- <- <-.
  apply back_Ok in HB. simpl. eauto 10.
Qed.

Lemma migrateAndEmit_inv (E : Migrator.Externals) (M : Migrator.Migrator E)
    (W W' : Migrator.World E) (b : bool) :
  Migrator.migrateAndEmit E M W = Ok (b, W') ->
  exists M3 W3 W4 b1 b2,
    Migrator.StartInvocation E M3 = Migrator.StartInvocation E M
    /\ Migrator.StartInstance E M3 = Migrator.StartInstance E M
    /\ Migrator.emitMigratedFile E M3 W3 = Ok (b1, W4)
    /\ Migrator.dumpStates E M3 W4 = (b2, W')
    /\ b = b1 || b2.
Proof.
  unfold Migrator.migrateAndEmit. intros H.
  apply bindR_Ok in H as ([[Failed M1] W1] & HP & H). cbv beta in H.
  apply performSyntacticPasses_inv in HP as (-> & HI1 & HV1 & _).
  apply bindR_Ok in H as ([M2 W2] & H2 & H). cbv beta zeta in H.
  assert (HM2 : Migrator.StartInvocation E M2 = Migrator.StartInvocation E M
                /\ Migrator.StartInstance E M2 = Migrator.StartInstance E M).
  { destruct (Migrator.EnableMigratorFixits _).
    - apply bindR_Ok in H2 as ([[r M2'] W2'] & HR & H2). injection H2 as <- <-.
      unfold Migrator.repeatFixitMigrations in HR.
      apply repeatFixitMigrations_loop_inv in HR as (HI & HV & _).
      split; congruence.
    - injection H2 as <- <-. auto. }
  apply bindR_Ok in H as ([b1 W3] & HE & H). cbv beta in H.
  destruct (Migrator.dumpStates E M2 W3) as [b2 W4] eqn:ED.
  injection H as <- <-. exists M2, W2, W3, b1, b2.
  destruct HM2 as [HV HI]. repeat split; assumption || reflexivity.
Qed.

(** X16. [updateCodeAndEmitRemap] gives up, with result true, before any
    syntactic pass when the start instance had errors and two fix-it
    passes do not end in an instance with a syntax tree free of errors.
    Otherwise it writes the migrated file and then dumps the states,
    also when the write has failed, and its result is true iff one of
    the two failed: neither the remap nor the fix-it passes after the
    syntactic passes can make it fail. *)
Theorem updateCodeAndEmitRemap_result :
  forall (E : Migrator.Externals) (Instance : Migrator.CompilerInstance E)
         (Invocation : Migrator.CompilerInvocation) (W W' : Migrator.World E)
         (b : bool),
    Migrator.updateCodeAndEmitRemap E Instance Invocation W = Ok (b, W') ->
    exists M1 W1,
      Migrator.Migrator_new E Instance Invocation W = Ok (M1, W1)
      /\ ((b = true
           /\ Migrator.hadError E Instance W1 = true
           /\ exists r M2,
                Migrator.repeatFixitMigrations E 2
                  (Migrator.EffectiveLanguageVersion
                     (Migrator.getLangOptions Invocation)) M1 W1
                = Ok (r, M2, W')
                /\ forall Pre, r = Some Pre ->
                     Migrator.hasASTContext E Pre W' = false
                     \/ Migrator.hadError E Pre W' = true)
          \/
          ((Migrator.hadError E Instance W1 = true ->
            exists Pre M2 W2,
              Migrator.repeatFixitMigrations E 2
                (Migrator.EffectiveLanguageVersion
                   (Migrator.getLangOptions Invocation)) M1 W1
              = Ok (Some Pre, M2, W2)
              /\ Migrator.hasASTContext E Pre W2 = true
              /\ Migrator.hadError E Pre W2 = false)
           /\ exists M3 W3 W4 b1 b2,
                Migrator.StartInvocation E M3 = Invocation
                /\ Migrator.emitMigratedFile E M3 W3 = Ok (b1, W4)
                /\ Migrator.dumpStates E M3 W4 = (b2, W')
                /\ b = b1 || b2)).
Proof.
  intros E Instance Invocation W W' b H.
  unfold Migrator.updateCodeAndEmitRemap in H.
  apply bindR_Ok in H as ([M1 W1] & HN & H). cbv beta in H.
  exists M1, W1. split; [exact HN|].
  assert (HInv : Migrator.StartInvocation E M1 = Invocation).
  { unfold Migrator.Migrator_new in HN.
    apply bindR_Ok in HN as (Name & _ & HN). cbv beta in HN.
    destruct (Migrator.getFile E Name W); [|discriminate HN].
    destruct (Migrator.addNewSourceBuffer E _ W). injection HN as <- _.
    reflexivity. }
  destruct (Migrator.hadError E Instance W1) eqn:EH.
  - apply bindR_Ok in H as ([[r M2] W2] & HR & H). cbv beta in H.
    destruct r as [Pre|].
    + destruct (negb (Migrator.hasASTContext E Pre W2)
                || Migrator.hadError E Pre W2) eqn:EC.
      * injection H as <- <-. left. split; [reflexivity|]. split; [reflexivity|].
        exists (Some Pre), M2. split; [exact HR|]. intros Pre' [= <-].
        apply orb_true_iff in EC as [EC|EC]; [left|right; exact EC].
        apply negb_true_iff, EC.
      * apply orb_false_iff in EC as [EC1 EC2]. apply negb_false_iff in EC1.
        right. split; [intros _; eauto 10|].
        apply migrateAndEmit_inv in H
          as (M3 & W3 & W4 & b1 & b2 & HV & _ & HE & HD & Hb).
        simpl in HV. exists M3, W3, W4, b1, b2.
        unfold Migrator.repeatFixitMigrations in HR.
        apply repeatFixitMigrations_loop_inv in HR as (_ & HV2 & _).
        repeat split; try assumption. congruence.
    + injection H as <- <-. left. split; [reflexivity|]. split; [reflexivity|].
      exists None, M2. split; [exact HR|]. discriminate.
  - right. split; [discriminate|].
    apply migrateAndEmit_inv in H
      as (M3 & W3 & W4 & b1 & b2 & HV & _ & HE & HD & Hb).
    exists M3, W3, W4, b1, b2. repeat split; try assumption. congruence.
Qed.

Lemma dumpStates_loop_spec (E : Migrator.Externals)
    (Rest : list (Migrator.MigrationState E)) (OutDir : string) :
  forall (i : N) (Failed : bool) (W : Migrator.World E),
    Migrator.dumpStates_loop E Rest i OutDir Failed W
    = (Failed || existsb id (printResults E Rest i OutDir W),
       snd (Migrator.dumpStates_loop E Rest i OutDir false W)).
Proof.
  induction Rest as [|State Rest IH]; intros i Failed W; simpl.
  - rewrite orb_false_r. reflexivity.
  - destruct (Migrator.print E State i OutDir W) as [PrintFailed W1]. simpl.
    rewrite (IH _ (Failed || PrintFailed)), (IH _ PrintFailed). simpl.
    rewrite orb_assoc. reflexivity.
Qed.

Lemma printResults_length (E : Migrator.Externals)
    (Rest : list (Migrator.MigrationState E)) (OutDir : string) :
  forall (i : N) (W : Migrator.World E),
    length (printResults E Rest i OutDir W) = length Rest.
Proof.
  induction Rest as [|State Rest IH]; intros i W; simpl; [reflexivity|].
  destruct (Migrator.print E State i OutDir W) as [PrintFailed W1]. simpl.
  rewrite IH. reflexivity.
Qed.

(** X17. [dumpStates] prints nothing and succeeds when no directory is
    given.  Otherwise it prints every state once, in order and with its
    index, also after a print has failed: the prints do not depend on
    the failures before them, and the result is true iff some print
    failed. *)
Theorem dumpStates_prints_every_state :
  forall (E : Migrator.Externals) (M : Migrator.Migrator E)
         (W : Migrator.World E),
    let OutDir := Migrator.DumpMigrationStatesDir
                    (Migrator.getMigratorOptions (Migrator.StartInvocation E M)) in
    (OutDir = EmptyString -> Migrator.dumpStates E M W = (false, W))
    /\ (OutDir <> EmptyString ->
        fst (Migrator.dumpStates E M W)
        = existsb id (printResults E (Migrator.States E M) 0%N OutDir W)
        /\ length (printResults E (Migrator.States E M) 0%N OutDir W)
           = length (Migrator.States E M))
    /\ (forall Rest i Failed W0,
          Migrator.dumpStates_loop E Rest i OutDir Failed W0
          = (Failed || existsb id (printResults E Rest i OutDir W0),
             snd (Migrator.dumpStates_loop E Rest i OutDir false W0))).
Proof.
  intros E M W OutDir. split; [|split].
  - intros HE. unfold Migrator.dumpStates. fold OutDir. rewrite HE. reflexivity.
  - intros HNE. unfold Migrator.dumpStates. fold OutDir.
    destruct (String.eqb_spec OutDir EmptyString) as [HE|_]; [contradiction|].
    rewrite dumpStates_loop_spec. split; [reflexivity|].
    apply printResults_length.
  - intros Rest i Failed W0. apply dumpStates_loop_spec.
Qed.

Lemma migrateAndEmit_states (E : Migrator.Externals) (M : Migrator.Migrator E)
    (W W' : Migrator.World E) (b : bool) :
  Migrator.migrateAndEmit E M W = Ok (b, W') ->
  exists Before ResultBuffer Post W3 W4 b1 b2,
    let M3 :=
      {| Migrator.StartInstance := Migrator.StartInstance E M;
         Migrator.StartInvocation := Migrator.StartInvocation E M;
         Migrator.States :=
           Migrator.States E M
           ++ [Migrator.MigrationState_make E Migrator.Syntactic
                 (Migrator.getInputBufferID E Before) ResultBuffer]
           ++ Post |} in
    last (Migrator.States E M) = Some Before
    /\ Forall (isFixitState E) Post
    /\ (N.of_nat (length Post) <= Migrator.MaxCompilerFixitPassIterations E)%N
    /\ (Migrator.EnableMigratorFixits
          (Migrator.getMigratorOptions (Migrator.StartInvocation E M)) = false ->
        Post = [])
    /\ (forall Prev Last, Post = Prev ++ [Last] -> Forall (changesOccurred E) Prev)
    /\ Migrator.emitMigratedFile E M3 W3 = Ok (b1, W4)
    /\ Migrator.dumpStates E M3 W4 = (b2, W')
    /\ b = b1 || b2.
Proof.
  unfold Migrator.migrateAndEmit. intros H.
  apply bindR_Ok in H as ([[Failed M1] W1] & HP & H). cbv beta in H.
  apply performSyntacticPasses_inv in HP
    as (-> & HI1 & HV1 & Before & ResultBuffer & HLast & HS1).
  apply bindR_Ok in H as ([M2 W2] & H2 & H). cbv beta zeta in H.
  assert (HM2 : exists Post,
             M2 = {| Migrator.StartInstance := Migrator.StartInstance E M;
                     Migrator.StartInvocation := Migrator.StartInvocation E M;
                     Migrator.States := Migrator.States E M1 ++ Post |}
             /\ Forall (isFixitState E) Post
             /\ (N.of_nat (length Post) <= Migrator.MaxCompilerFixitPassIterations E)%N
             /\ (Migrator.EnableMigratorFixits
                   (Migrator.getMigratorOptions (Migrator.StartInvocation E M))
                 = false -> Post = [])
             /\ (forall Prev Last, Post = Prev ++ [Last] ->
                   Forall (changesOccurred E) Prev)).
  { rewrite HV1 in H2. destruct (Migrator.EnableMigratorFixits _).
    - apply bindR_Ok in H2 as ([[r M2'] W2'] & HR & H2). injection H2 as <- <-.
      unfold Migrator.repeatFixitMigrations in HR.
      apply repeatFixitMigrations_loop_inv in HR
        as (HI & HV & Post & HS & HLen & HAll & HR).
      exists Post. split.
      { destruct M2' as [I2 V2 S2]. simpl in *. congruence. }
      split; [exact HAll|]. split; [lia|]. split; [discriminate|].
      intros Prev Last ->. destruct r as [Inst|].
      + destruct HR as (Prev' & Last' & HEq & HPrev & _).
        apply app_inj_tail in HEq as [-> _]. exact HPrev.
      + apply Forall_app in HR as [HR _]. exact HR.
    - injection H2 as <- <-. exists []. rewrite app_nil_r.
      split; [destruct M1; simpl in *; congruence|].
      split; [constructor|]. split; [simpl; lia|]. split; [reflexivity|].
      intros Prev Last HEq. destruct Prev; discriminate HEq. }
  destruct HM2 as (Post & -> & HAll & HLen & HOff & HCh).
  apply bindR_Ok in H as ([b1 W3] & HE & H). cbv beta in H.
  destruct (Migrator.dumpStates E _ W3) as [b2 W4] eqn:ED.
  injection H as <- <-. rewrite HS1, <- app_assoc in HE, ED.
  exists Before, ResultBuffer, Post, W2, W3, b1, b2. cbv zeta.
  repeat split; assumption.
Qed.

(** X19. When [updateCodeAndEmitRemap] returns false, the states it has
    written the migrated file from and dumped are, in this order: the
    start state of the input file; the states of the fix-it passes
    before the syntactic passes, none when the start instance had no
    error and otherwise one or two, the last of which left the text
    unchanged; one state of the syntactic passes, whose input buffer is
    the input buffer of the state before it; and the states of at most
    [MaxCompilerFixitPassIterations] fix-it passes, none when the
    migrator's fix-its are not enabled, each of which but the last
    changed the text.  The syntactic passes ran on the start instance
    when it had no error and on the instance of the last fix-it pass
    before them otherwise. *)
Theorem updateCodeAndEmitRemap_states :
  forall (E : Migrator.Externals) (Instance : Migrator.CompilerInstance E)
         (Invocation : Migrator.CompilerInvocation) (W W' : Migrator.World E),
    Migrator.updateCodeAndEmitRemap E Instance Invocation W = Ok (false, W') ->
    exists StartBufferID W1 Inst Pre Before ResultBuffer Post W3 W4,
      let Start := Migrator.MigrationState_start E StartBufferID in
      let M3 :=
        {| Migrator.StartInstance := Inst;
           Migrator.StartInvocation := Invocation;
           Migrator.States :=
             (Start :: Pre)
             ++ [Migrator.MigrationState_make E Migrator.Syntactic
                   (Migrator.getInputBufferID E Before) ResultBuffer]
             ++ Post |} in
      Migrator.Migrator_new E Instance Invocation W
      = Ok ({| Migrator.StartInstance := Instance;
               Migrator.StartInvocation := Invocation;
               Migrator.States := [Start] |}, W1)
      /\ last (Start :: Pre) = Some Before
      /\ Forall (isFixitState E) Pre
      /\ (length Pre <= 2)%nat
      /\ (if Migrator.hadError E Instance W1
          then Pre <> [] /\ Migrator.noChangesOccurred E Before = true
               /\ (forall Prev, Pre = Prev ++ [Before] ->
                     Forall (changesOccurred E) Prev)
               /\ exists M2 W2,
                    Migrator.repeatFixitMigrations E 2
                      (Migrator.EffectiveLanguageVersion
                         (Migrator.getLangOptions Invocation))
                      {| Migrator.StartInstance := Instance;
                         Migrator.StartInvocation := Invocation;
                         Migrator.States := [Start] |} W1
                    = Ok (Some Inst, M2, W2)
          else Pre = [] /\ Inst = Instance)
      /\ Forall (isFixitState E) Post
      /\ (N.of_nat (length Post) <= Migrator.MaxCompilerFixitPassIterations E)%N
      /\ (Migrator.EnableMigratorFixits (Migrator.getMigratorOptions Invocation)
          = false -> Post = [])
      /\ (forall Prev Last, Post = Prev ++ [Last] -> Forall (changesOccurred E) Prev)
      /\ Migrator.emitMigratedFile E M3 W3 = Ok (false, W4)
      /\ Migrator.dumpStates E M3 W4 = (false, W').
Proof.
  intros E Instance Invocation W W' H.
  unfold Migrator.updateCodeAndEmitRemap in H.
  apply bindR_Ok in H as ([M1 W1] & HN & H). cbv beta in H.
  assert (HM1 : exists StartBufferID,
             M1 = {| Migrator.StartInstance := Instance;
                     Migrator.StartInvocation := Invocation;
                     Migrator.States :=
                       [Migrator.MigrationState_start E StartBufferID] |}).
  { unfold Migrator.Migrator_new in HN.
    apply bindR_Ok in HN as (Name & _ & HN). cbv beta in HN.
    destruct (Migrator.getFile E Name W); [|discriminate HN].
    destruct (Migrator.addNewSourceBuffer E _ W) as [ID W0].
    injection HN as <- _. eauto. }
  destruct HM1 as (StartBufferID & ->). exists StartBufferID, W1.
  destruct (Migrator.hadError E Instance W1) eqn:EH.
  - apply bindR_Ok in H as ([[r M2] W2] & HR & H). cbv beta in H.
    destruct r as [Pre0|]; [|discriminate H].
    destruct (negb _ || _); [discriminate H|].
    pose proof HR as HR0. unfold Migrator.repeatFixitMigrations in HR.
    apply repeatFixitMigrations_loop_inv in HR
      as (_ & HV & Pre & HS & HLen & HAll & Prev & Last & -> & HPrev & HLast).
    simpl in HV, HS.
    apply migrateAndEmit_states in H
      as (Before & ResultBuffer & Post & W3 & W4 & b1 & b2 & HB & HPA & HPL
          & HOff & HCh & HE & HD & Hb).
    simpl in HB, HOff, HE, HD. rewrite HS in HB, HE, HD. rewrite HV in HOff, HE, HD.
    symmetry in Hb. apply orb_false_iff in Hb as [-> ->].
    assert (Before = Last) as ->.
    { change (?x :: Prev ++ [Last]) with ((x :: Prev) ++ [Last]) in HB.
      rewrite last_snoc in HB. congruence. }
    exists Pre0, (Prev ++ [Last]), Last, ResultBuffer, Post, W3, W4. cbv zeta.
    split; [exact HN|]. split.
    { change (?x :: Prev ++ [Last]) with ((x :: Prev) ++ [Last]).
      apply last_snoc. }
    split; [exact HAll|]. split; [simpl in HLen; lia|]. split.
    { split; [destruct Prev; discriminate|]. split; [exact HLast|].
      split; [|eauto].
      intros Prev' HEq. apply app_inj_tail in HEq as [<- _]. exact HPrev. }
    repeat split; assumption.
  - apply migrateAndEmit_states in H
      as (Before & ResultBuffer & Post & W3 & W4 & b1 & b2 & HB & HPA & HPL
          & HOff & HCh & HE & HD & Hb).
    simpl in HB, HOff, HE, HD.
    symmetry in Hb. apply orb_false_iff in Hb as [-> ->].
    exists Instance, [], Before, ResultBuffer, Post, W3, W4. cbv zeta.
    split; [exact HN|]. split; [exact HB|]. split; [constructor|].
    split; [simpl; lia|]. split; [auto|]. repeat split; assumption.
Qed.

(** ** The language mode *)

Lemma findSwapCall_mode (b : bool) (Calls : list ApplyInst)
    (InOut1 InOut2 : Expr) (Ctx : ASTContext) :
  findSwapCall Calls InOut1 InOut2 (withSwiftVersion3 b Ctx)
  = findSwapCall Calls InOut1 InOut2 Ctx.
Proof.
  induction Calls as [|AI Calls IH]; [reflexivity|]. simpl.
  rewrite IH. reflexivity.
Qed.

Lemma tryFixIt_mode (b : bool) (Access1 Access2 : BeginAccessInst)
    (Calls : list ApplyInst) (Ctx : ASTContext) :
  tryFixItWithCallToCollectionSwapAt Access1 Access2 Calls (withSwiftVersion3 b Ctx)
  = tryFixItWithCallToCollectionSwapAt Access1 Access2 Calls Ctx.
Proof.
  unfold tryFixItWithCallToCollectionSwapAt.
  destruct Calls as [|AI Calls]; [reflexivity|].
  destruct (_ || _); [reflexivity|].
  destruct (_ || _); [reflexivity|].
  destruct (getAsInOutExpr (getLoc Access1)) as [[i1 Sub1| | | | | | |]|];
    try reflexivity.
  destruct (getAsInOutExpr (getLoc Access2)) as [[i2 Sub2| | | | | | |]|];
    try reflexivity.
  rewrite findSwapCall_mode. reflexivity.
Qed.

Lemma diagnoseExclusivityViolation_mode (Storage : AccessedStorage)
    (Prior New : BeginAccessInst) (Calls : list ApplyInst) (Ctx : ASTContext) :
  diagnoseExclusivityViolation Storage Prior New Calls (withSwiftVersion3 true Ctx)
  = match diagnoseExclusivityViolation Storage Prior New Calls
            (withSwiftVersion3 false Ctx) with
    | Ok Ds => Ok (asSwift3 <$> Ds)
    | Abort f => Abort f
    end.
Proof.
  unfold diagnoseExclusivityViolation.
  destruct (assertR _ _) as [u|f]; [|reflexivity]. cbn [bindR].
  destruct (getStorageDecl Storage) as [VD|]; [|reflexivity].
  rewrite !tryFixIt_mode.
  destruct (tryFixItWithCallToCollectionSwapAt Prior New Calls Ctx) as [Fix|f];
    reflexivity.
Qed.

Lemma emitViolations_mode (L : list ConflictingAccess) (Swaps : list ApplyInst)
    (Ctx : ASTContext) :
  emitViolations L Swaps (withSwiftVersion3 true Ctx)
  = match emitViolations L Swaps (withSwiftVersion3 false Ctx) with
    | Ok Ds => Ok (asSwift3 <$> Ds)
    | Abort f => Abort f
    end.
Proof.
  induction L as [|c L IH]; [reflexivity|]. cbn [emitViolations].
  rewrite diagnoseExclusivityViolation_mode, IH.
  destruct (diagnoseExclusivityViolation _ _ _ _ (withSwiftVersion3 false Ctx))
    as [Ds|f]; [|reflexivity]. cbn [bindR].
  destruct (emitViolations L Swaps (withSwiftVersion3 false Ctx)) as [Rest|f];
    [|reflexivity]. cbn [bindR]. rewrite fmap_app. reflexivity.
Qed.

Lemma transferInsts_mode (b : bool) (Ctx : ASTContext) (Is : list SILInstruction) :
  forall St,
    transferInsts (withSwiftVersion3 b Ctx) Is St = transferInsts Ctx Is St.
Proof.
  induction Is as [|Ins Is IH]; intros St; [reflexivity|]. cbn [transferInsts].
  assert (HT : transfer (withSwiftVersion3 b Ctx) Ins St = transfer Ctx Ins St)
    by (destruct Ins; reflexivity).
  rewrite HT. destruct (transfer Ctx Ins St) as [St1|f]; [|reflexivity].
  cbn [bindR]. apply IH.
Qed.

Lemma visitBlocks_mode (b : bool) (Ctx : ASTContext) (RPO : list SILBasicBlock) :
  forall FnSt,
    visitBlocks (withSwiftVersion3 b Ctx) RPO FnSt = visitBlocks Ctx RPO FnSt.
Proof.
  induction RPO as [|BB RPO IH]; intros FnSt; [reflexivity|]. cbn [visitBlocks].
  assert (HV : visitBlock (withSwiftVersion3 b Ctx) BB FnSt = visitBlock Ctx BB FnSt).
  { unfold visitBlock. destruct (predecessorState _ _ _); [|reflexivity].
    rewrite transferInsts_mode. reflexivity. }
  rewrite HV. destruct (visitBlock Ctx BB FnSt) as [FnSt1|f]; [|reflexivity].
  cbn [bindR]. apply IH.
Qed.

(** X18. The language mode does not change what the pass finds, only
    how it is reported: in Swift 3 mode the pass emits the diagnostics of
    the other modes, at the same places, with the same arguments,
    highlights and fix-its and in the same order, with the two primary
    diagnostics replaced by their Swift 3 variants; it stops in one mode
    iff it stops in the other, with the same fault. *)
Theorem swift3_mode_changes_only_the_diagnostic :
  forall (Fn : SILFunction) (RPO : list SILBasicBlock),
    traverse (inLanguageMode true Fn) RPO = traverse (inLanguageMode false Fn) RPO
    /\ checkStaticExclusivity (inLanguageMode true Fn) RPO
       = match checkStaticExclusivity (inLanguageMode false Fn) RPO with
         | Ok Ds => Ok (asSwift3 <$> Ds)
         | Abort f => Abort f
         end.
Proof.
  intros Fn RPO.
  assert (HT : traverse (inLanguageMode true Fn) RPO
               = traverse (inLanguageMode false Fn) RPO).
  { unfold traverse. cbn [inLanguageMode Blocks getASTContext].
    destruct (Blocks Fn) as [|Entry Rest]; [reflexivity|].
    rewrite !visitBlocks_mode. reflexivity. }
  split; [exact HT|].
  unfold checkStaticExclusivity. rewrite HT.
  cbn [inLanguageMode Blocks getASTContext].
  destruct (Blocks Fn) as [|Entry Rest] eqn:EB; [reflexivity|].
  destruct (traverse (inLanguageMode false Fn) RPO) as [FnSt|f]; [|reflexivity].
  cbn [bindR]. apply emitViolations_mode.
Qed.

(** ** The further theorems at concrete inputs *)

Lemma diagnostics_follow_begin_accesses_witness :
  exists Ds FnSt Pairs,
    checkStaticExclusivity Example.readThenWrite Example.rpo = Ok Ds
    /\ traverse Example.readThenWrite Example.rpo = Ok FnSt
    /\ Forall2 diagnosticsOfConflict (fs_ConflictingAccesses FnSt) Pairs
    /\ Ds = concat Pairs
    /\ (length Ds <= 4)%nat.
Proof.
  destruct (checkStaticExclusivity Example.readThenWrite Example.rpo)
    as [Ds|f] eqn:H.
  2:{ vm_compute in H. discriminate H. }
  destruct (diagnostics_follow_begin_accesses _ _ _ H)
    as (FnSt & Pairs & HT & _ & HF & HD & HL).
  exists Ds, FnSt, Pairs. repeat split; assumption.
Defined.

Lemma conflicting_accesses_share_storage_witness :
  exists S1,
    findAccessedStorage (getSource Example.readG) = Ok S1
    /\ isEqual S1 (OfGlobal Example.g) = true.
Proof.
  destruct (traverse Example.readThenWrite Example.rpo) as [FnSt|f] eqn:HT.
  2:{ vm_compute in HT. discriminate HT. }
  destruct (conflicting_accesses_share_storage
              Example.readThenWrite Example.rpo FnSt
              {| ca_Storage := OfGlobal Example.g;
                 ca_FirstAccess := Example.readG;
                 ca_SecondAccess := Example.writeG |} HT)
    as (_ & _ & _ & HS).
  - vm_compute in HT. injection HT as <-. apply list_elem_of_here.
  - exact HS.
Defined.

Lemma storage_only_read_is_never_reported_witness :
  checkStaticExclusivity Example.readAcrossBlocks Example.rpoAcross = Ok [].
Proof.
  destruct (checkStaticExclusivity Example.readAcrossBlocks Example.rpoAcross)
    as [Ds|f] eqn:H.
  2:{ vm_compute in H. discriminate H. }
  f_equal.
  apply (proj2 storage_only_read_is_never_reported
           Example.readAcrossBlocks Example.rpoAcross Ds); [|exact H].
  repeat constructor.
Defined.

Lemma calls_to_swap_recorded_in_order_witness :
  exists FnSt,
    traverse (Example.swapFunction Example.access1 Example.access2 Example.swapCall)
             (Blocks (Example.swapFunction Example.access1 Example.access2
                                           Example.swapCall)) = Ok FnSt
    /\ fs_CallsToSwap FnSt = [Example.applyAt Example.swapCall].
Proof.
  destruct (traverse (Example.swapFunction Example.access1 Example.access2
                                           Example.swapCall) _)
    as [FnSt|f] eqn:HT.
  2:{ vm_compute in HT. discriminate HT. }
  exists FnSt. split; [reflexivity|].
  assert (HNE : Blocks (Example.swapFunction Example.access1 Example.access2
                                             Example.swapCall) <> [])
    by discriminate.
  destruct (calls_to_swap_recorded_in_order _ _ FnSt HNE HT) as (HC & _).
  rewrite HC. reflexivity.
Defined.

Lemma fixIt_replaces_a_recorded_swap_call_witness :
  exists Fix AI i Callee Arg CalledValue,
    IApply AI ∈ functionInsts
      (Blocks (Example.swapFunction Example.access1 Example.access2
                                    Example.swapCall))
    /\ getAsCallExpr (ai_Loc AI) = Some (CallExpr i Callee Arg CalledValue)
    /\ fix_Range Fix = e_SourceRange i
    /\ fix_Text Fix = "c.swapAt(i, j)".
Proof.
  destruct (checkStaticExclusivity
              (Example.swapFunction Example.access1 Example.access2
                                    Example.swapCall)
              (Blocks (Example.swapFunction Example.access1 Example.access2
                                            Example.swapCall)))
    as [Ds|f] eqn:H.
  2:{ vm_compute in H. discriminate H. }
  pose proof H as H'. vm_compute in H'. injection H' as <-.
  match type of H with
  | _ = Ok (?D :: _) =>
      destruct (fixIt_replaces_a_recorded_swap_call _ _ _ D
                  {| fix_Range := Example.range 0 18;
                     fix_Text := "c.swapAt(i, j)" |} H)
        as (AI & i & Callee & Arg & CV & HIn & _ & HCE & HR & _)
  end.
  - apply list_elem_of_here.
  - reflexivity.
  - eexists. exists AI, i, Callee, Arg, CV.
    split; [exact HIn|]. split; [exact HCE|]. split; [exact HR|]. reflexivity.
Defined.

Lemma overlapping_accesses_conflict_iff_witness :
  checkStaticExclusivity
    {| Blocks := [overlappingAccesses 1%N Example.readG Example.writeG];
       getASTContext := Example.ctx |}
    [overlappingAccesses 1%N Example.readG Example.writeG]
  = Ok [primaryFor Example.ctx Example.g_decl Example.writeG None;
        noteFor Example.readG]
  /\ checkStaticExclusivity
       {| Blocks := [overlappingAccesses 1%N Example.readG Example.readG'];
          getASTContext := Example.ctx |}
       [overlappingAccesses 1%N Example.readG Example.readG']
     = Ok [].
Proof.
  split.
  - rewrite (overlapping_accesses_conflict_iff Example.ctx Example.readG
               Example.writeG (OfGlobal Example.g) (OfGlobal Example.g) 1%N
               eq_refl eq_refl).
    reflexivity.
  - rewrite (overlapping_accesses_conflict_iff Example.ctx Example.readG
               Example.readG' (OfGlobal Example.g) (OfGlobal Example.g) 1%N
               eq_refl eq_refl).
    reflexivity.
Defined.

Lemma reported_conflicts_are_genuine_witness :
  exists FnSt,
    traverse Example.readThenWrite Example.rpo = Ok FnSt
    /\ fs_ConflictingAccesses FnSt <> []
    /\ Forall (genuineConflict Example.rpo 1%N) (fs_ConflictingAccesses FnSt).
Proof.
  destruct (traverse Example.readThenWrite Example.rpo) as [FnSt|f] eqn:HT.
  2:{ vm_compute in HT. discriminate HT. }
  exists FnSt. split; [reflexivity|]. split.
  - vm_compute in HT. injection HT as <-. discriminate.
  - apply (reported_conflicts_are_genuine Example.readThenWrite Example.rpo
             Example.entryBlock [Example.exitBlock] [Example.exitBlock] FnSt
             eq_refl eq_refl Example_NoDup Example_nestedMarkers HT).
Defined.

Lemma conflicting_overlaps_are_reported_witness :
  exists FnSt P,
    traverse Example.readThenWrite Example.rpo = Ok FnSt
    /\ cfgPath Example.rpo 1%N (Example.exitBlock :: P)
    /\ overlapsReported (pathInsts (Example.exitBlock :: P))
                        (fs_ConflictingAccesses FnSt).
Proof.
  destruct (traverse Example.readThenWrite Example.rpo) as [FnSt|f] eqn:HT.
  2:{ vm_compute in HT. discriminate HT. }
  destruct (conflicting_overlaps_are_reported Example.readThenWrite Example.rpo
              Example.entryBlock [Example.exitBlock] [Example.exitBlock] FnSt
              eq_refl eq_refl Example_NoDup Example_wellFormed HT
              Example.exitBlock) as (P & HP & HO).
  - apply list_elem_of_further, list_elem_of_here.
  - exists FnSt, P. auto.
Defined.

Lemma findAccessedStorage_depends_on_root_witness :
  rootOf Example.c_addr = Example.c_box
  /\ findAccessedStorage Example.c_addr = Ok (OfValue Example.c_box)
  /\ findAccessedStorage (Inst1 420%N ValueKind.StructElementAddrInst Example.c_addr)
     = findAccessedStorage (Inst1 421%N ValueKind.TupleElementAddrInst Example.c_addr).
Proof.
  destruct (findAccessedStorage_depends_on_root Example.c_addr)
    as (HR & _ & _ & HB & HL & _).
  split; [reflexivity|]. split; [exact HR|].
  rewrite (HL 420%N ValueKind.StructElementAddrInst eq_refl).
  rewrite (HL 421%N ValueKind.TupleElementAddrInst eq_refl). reflexivity.
Defined.

Lemma class_property_identity_witness :
  exists S1 S2,
    findAccessedStorage
      (RefElementAddr 1%N (Inst1 2%N ValueKind.BeginBorrowInst
                             (FunctionArgument 3%N None)) 0%N None) = Ok S1
    /\ findAccessedStorage
         (RefElementAddr 4%N (FunctionArgument 3%N None) 0%N None) = Ok S2
    /\ isEqual S1 S2 = true.
Proof.
  destruct (proj1 class_property_identity
              1%N (Inst1 2%N ValueKind.BeginBorrowInst (FunctionArgument 3%N None))
              0%N None
              4%N (FunctionArgument 3%N None) 0%N None)
    as (S1 & S2 & H1 & H2 & _ & _ & HE).
  exists S1, S2. split; [exact H1|]. split; [exact H2|].
  apply HE. split; reflexivity.
Defined.

Lemma begin_then_end_restores_the_map_witness :
  transferInsts Example.ctx
    [IBeginAccess Example.readG; IEndAccess {| getBeginAccess := Example.readG |}]
    initialState
  = Ok initialState.
Proof.
  rewrite (begin_then_end_restores_the_map Example.ctx Example.readG initialState
             (OfGlobal Example.g) eq_refl).
  - reflexivity.
  - intros Info HK. simpl in HK. rewrite lookup_empty in HK. discriminate HK.
Defined.

Lemma storage_map_counts_accesses_in_progress_witness :
  exists FnSt M B P Open,
    traverse Example.readAcrossBlocks Example.rpoAcross = Ok FnSt
    /\ BlockOutAccesses FnSt !! 1%N = Some (Some M)
    /\ bb_self B = 1%N
    /\ balanced [] (pathInsts (B :: P)) Open
    /\ forall K,
         match M !! K with
         | None => forall b, b ∈ Open -> keyOf b <> Some K
         | Some Info =>
             Reads Info = countOpen K true Open
             /\ NonReads Info = countOpen K false Open
             /\ hasAccessesInProgress Info = true
             /\ exists b, b ∈ Open /\ keyOf b = Some K
         end.
Proof.
  destruct (traverse Example.readAcrossBlocks Example.rpoAcross)
    as [FnSt|f] eqn:HT.
  2:{ vm_compute in HT. discriminate HT. }
  destruct (BlockOutAccesses FnSt !! 1%N) as [[M|]|] eqn:Ha.
  - destruct (storage_map_counts_accesses_in_progress
                Example.readAcrossBlocks Example.rpoAcross
                Example.openingBlock [Example.closingBlock] [Example.closingBlock]
                FnSt 1%N M eq_refl eq_refl ExampleAcross_NoDup
                ExampleAcross_wellFormed HT Ha)
      as (B & P & Open & HB & _ & HBal & HK).
    exists FnSt, M, B, P, Open. auto.
  - vm_compute in HT. injection HT as <-. vm_compute in Ha. discriminate Ha.
  - vm_compute in HT. injection HT as <-. vm_compute in Ha. discriminate Ha.
Defined.

Lemma diagnostic_names_declaration_of_root_witness :
  diagnoseExclusivityViolation (OfValue Example.c_addressor)
    Example.access1addressor Example.access2addressor
    [Example.applyAt Example.swapCall] Example.swapCtx
  = Ok [primaryUnknownFor Example.swapCtx Example.access1addressor;
        noteFor Example.access2addressor].
Proof.
  destruct (diagnoseExclusivityViolation (OfValue Example.c_addressor)
              Example.access1addressor Example.access2addressor
              [Example.applyAt Example.swapCall] Example.swapCtx)
    as [Ds|f] eqn:H.
  2:{ vm_compute in H. discriminate H. }
  destruct (diagnostic_names_declaration_of_root
              (OfValue Example.c_addressor)
              Example.access1addressor Example.access2addressor
              [Example.applyAt Example.swapCall] Example.swapCtx Ds eq_refl H)
    as (_ & _ & HU).
  destruct (HU 403%N ValueKind.PointerToAddressInst
               (Inst0 402%N (ValueKind.Other 0%N)) (or_intror eq_refl))
    as [-> _].
  reflexivity.
Defined.

Lemma equal_storage_has_equal_hash_witness :
  getHashValue MigratorExample.hashes
    (OfObjectProjection
       {| Object := FunctionArgument 3%N None;
          Proj := {| proj_Index := 1%N; proj_VarDecl := None |} |})
  = getHashValue MigratorExample.hashes
      (OfObjectProjection
         {| Object := FunctionArgument 3%N (Some Example.c_decl);
            Proj := {| proj_Index := 1%N;
                       proj_VarDecl := Some Example.g_decl |} |}).
Proof.
  apply equal_storage_has_equal_hash; [|reflexivity].
  intros a P Q HE. unfold Projection_eq in HE. apply N.eqb_eq in HE.
  simpl. rewrite HE. reflexivity.
Defined.

Lemma repeatFixitMigrations_stops_at_fixed_point_witness :
  match Migrator.repeatFixitMigrations MigratorExample.externals 2 [3%N]
          MigratorExample.migrator MigratorExample.world with
  | Ok (r, M', W') =>
      r <> None
      /\ exists New,
           Migrator.States MigratorExample.externals M'
           = Migrator.States MigratorExample.externals MigratorExample.migrator
             ++ New
           /\ (N.of_nat (length New) <= 2)%N
           /\ exists Prev Last,
                New = Prev ++ [Last]
                /\ Forall (changesOccurred MigratorExample.externals) Prev
                /\ Migrator.noChangesOccurred MigratorExample.externals Last = true
  | Abort _ => False
  end.
Proof.
  destruct (Migrator.repeatFixitMigrations MigratorExample.externals 2 [3%N]
              MigratorExample.migrator MigratorExample.world)
    as [[[r M'] W']|f] eqn:H.
  2:{ vm_compute in H. discriminate H. }
  destruct (repeatFixitMigrations_stops_at_fixed_point _ _ _ _ _ _ _ _ H)
    as (_ & _ & (New & HS & HL & _ & HR) & _).
  destruct r as [Instance|].
  - split; [discriminate|]. exists New. auto.
  - vm_compute in H. discriminate H.
Defined.

Lemma updateCodeAndEmitRemap_result_witness :
  match Migrator.updateCodeAndEmitRemap MigratorExample.externals true
          MigratorExample.invocation [] with
  | Ok (b, W') =>
      b = false
      /\ exists M3 W3 W4,
           Migrator.emitMigratedFile MigratorExample.externals M3 W3
           = Ok (false, W4)
           /\ Migrator.dumpStates MigratorExample.externals M3 W4 = (false, W')
  | Abort _ => False
  end.
Proof.
  destruct (Migrator.updateCodeAndEmitRemap MigratorExample.externals true
              MigratorExample.invocation [])
    as [[b W']|f] eqn:H.
  2:{ vm_compute in H. discriminate H. }
  assert (Hb : b = false).
  { vm_compute in H. injection H as <- _. reflexivity. }
  split; [exact Hb|]. subst b.
  destruct (updateCodeAndEmitRemap_result _ _ _ _ _ _ H)
    as (M1 & W1 & _ & [(Hb & _)|(_ & M3 & W3 & W4 & b1 & b2 & _ & HE & HD & Hb)]).
  - discriminate Hb.
  - symmetry in Hb. apply orb_false_iff in Hb as [-> ->]. eauto.
Defined.

Lemma dumpStates_prints_every_state_witness :
  fst (Migrator.dumpStates MigratorExample.externals MigratorExample.migrator
         MigratorExample.world) = false
  /\ length (printResults MigratorExample.externals
               (Migrator.States MigratorExample.externals MigratorExample.migrator)
               0%N "states" MigratorExample.world) = 1%nat.
Proof.
  destruct (dumpStates_prints_every_state MigratorExample.externals
              MigratorExample.migrator MigratorExample.world) as (_ & H & _).
  destruct (H ltac:(discriminate)) as [H1 H2].
  split; [rewrite H1; reflexivity | exact H2].
Defined.

Lemma updateCodeAndEmitRemap_states_witness :
  exists W' Pre Post,
    Migrator.updateCodeAndEmitRemap MigratorExample.externals true
      MigratorExample.invocation [] = Ok (false, W')
    /\ (0 < length Pre <= 2)%nat
    /\ (N.of_nat (length Post) <= 7)%N
    /\ exists Inst Syn W4,
         Migrator.dumpStates MigratorExample.externals
           (Migrator.Build_Migrator MigratorExample.externals Inst
              MigratorExample.invocation
              (((None, 0%N, 0%N) :: Pre) ++ [Syn] ++ Post)) W4
         = (false, W').
Proof.
  destruct (Migrator.updateCodeAndEmitRemap MigratorExample.externals true
              MigratorExample.invocation [])
    as [[b W']|f] eqn:H.
  2:{ vm_compute in H. discriminate H. }
  assert (Hb : b = false).
  { vm_compute in H. injection H as <- _. reflexivity. }
  subst b.
  destruct (updateCodeAndEmitRemap_states _ _ _ _ _ H)
    as (ID & W1 & Inst & Pre & Before & ResultBuffer & Post & W3 & W4
        & HN & _ & _ & HLen & HPre & _ & HPost & _ & _ & _ & HD).
  vm_compute in HN. injection HN as HID HW1. subst W1.
  cbv zeta in HD. rewrite <- HID in HD.
  exists W', Pre, Post. split; [reflexivity|]. split.
  { split; [|exact HLen]. change (Migrator.hadError MigratorExample.externals true
       [{| Migrator.getBuffer := "old"; Migrator.getBufferIdentifier := "main.swift" |}])
       with true in HPre.
    destruct HPre as [HNE _]. destruct Pre; [contradiction|simpl; lia]. }
  split; [exact HPost|]. eauto.
Defined.
